(** * PDT configuration editor: grouping, validation and import merge

    A shallow embedding of the grouping / validation / merge engine of the
    PDT configuration generator:

    - [Js]                   the JavaScript values the code manipulates;
    - [Grouping]             the [groups[key].push(entry)] idiom;
    - [ValidationManager]    js/validation-manager.js (the version that has
                             [checkDuplicateDisplayFormats]);
    - [ConfigManager]        the ConfigManager class that has
                             [groupByCommonParams] and [sortRangeEntries];
    - [ExportImportManager]  the import normalisation and merge, the check
                             and the count of an imported configuration,
                             and [escapeHtml];
    - [YamlHandler]          [processConfigForYaml];
    - [Spec], [MergeSpec], [RebuildSpec], [ValidationSpec], [StoreSpec],
      [SortSpec], [MergedSpec], [EscapeSpec], [ImportSpec], [YamlSpec]
                             the properties stated about them and the
                             concrete inputs they are evaluated on;
    - [OverlapFacts], [ValidationFacts], [KeyFacts], [StoreFacts],
      [GroupingFacts], [MergeFacts], [RebuildFacts], [PairFacts],
      [ValidationMore], [StoreMore], [StoreSteps], [RebuildMore],
      [ViewFacts], [AliasFacts], [EditFacts], [DeleteFacts], [AddRuleFacts],
      [SortFacts], [MergeMore], [EscapeFacts], [ImportFacts], [YamlFacts]
                             the lemmas, each followed by its theorems.

    Modelling conventions.
    - Numbers are integers ([Z]) plus [NaN]; the infinities only occur as
      temporaries of comparisons and live in [Js.num].
    - Plain objects used as dynamic bags (a rule, [commonParams]) are
      association lists in insertion order.  Objects used as tables
      ([groups], the [groupedEntries] of the grouping idiom) are association
      lists too: their keys are never array indices nor names inherited from
      [Object.prototype] ("constructor", "toString", ...), so
      [Object.entries] enumerates them in insertion order.
    - Flat entries and their conditions are records, one field per name the
      code reads; conditions carry a bucket for unrecognised keys.
    - Strings are byte strings; [toUpperCase] is modelled on ASCII letters. *)

From Stdlib Require Import List String Ascii ZArith Bool Lia Permutation Sorted.
From Stdlib Require Import DecimalString DecimalPos DecimalZ.
Import ListNotations.

Local Open Scope string_scope.
Local Open Scope list_scope.
Local Infix "+++" := String.append (right associativity, at level 60).

(* ================================================================== *)
(** ** JavaScript values *)
(* ================================================================== *)

Module Js.

#[warnings="-register-all"]
Inductive value : Type :=
| VUndef
| VNull
| VBool (b : bool)
| VNum (n : Z)
| VNaN
| VStr (s : string)
| VArr (xs : list value)
| VObj (fs : list (string * value)).

Definition obj : Type := list (string * value).

(** Numbers as the relational operators see them. *)
Inductive num : Type := NegInf | Fin (z : Z) | PosInf | NaN.

(** ToBoolean. *)
Definition truthy (v : value) : bool :=
  match v with
  | VUndef | VNull | VNaN => false
  | VBool b => b
  | VNum n => negb (n =? 0)%Z
  | VStr s => negb (s =? "")
  | VArr _ | VObj _ => true
  end.

(** [a || b]. *)
Definition or_else (a b : value) : value := if truthy a then a else b.

(** [a === b].  Arrays and objects are compared by reference in JavaScript;
    the model keeps no identities and takes two of them as different. *)
Definition strict_eq (a b : value) : bool :=
  match a, b with
  | VUndef, VUndef => true
  | VNull, VNull => true
  | VBool x, VBool y => Bool.eqb x y
  | VNum x, VNum y => (x =? y)%Z
  | VStr x, VStr y => (x =? y)
  | _, _ => false
  end.

(** SameValueZero, the comparison of [Array.prototype.includes]. *)
Definition same_value_zero (a b : value) : bool :=
  match a, b with
  | VNaN, VNaN => true
  | _, _ => strict_eq a b
  end.

Definition includes (l : list value) (v : value) : bool :=
  existsb (same_value_zero v) l.

(** [v !== null && v !== undefined]. *)
Definition specified (v : value) : bool :=
  negb (strict_eq v VNull) && negb (strict_eq v VUndef).

(** Property read [o[k]] and write [o[k] = v] on a plain object. *)
Fixpoint get (o : obj) (k : string) : value :=
  match o with
  | [] => VUndef
  | (k', v) :: rest => if (k =? k') then v else get rest k
  end.

Fixpoint set (o : obj) (k : string) (v : value) : obj :=
  match o with
  | [] => [(k, v)]
  | (k', v') :: rest =>
      if (k =? k') then (k', v) :: rest else (k', v') :: set rest k v
  end.

Definition keys (o : obj) : list string := map fst o.

(** Decimal numerals. *)
Definition string_of_Z (z : Z) : string := NilZero.string_of_int (Z.to_int z).

Fixpoint join (sep : string) (l : list string) : string :=
  match l with
  | [] => ""
  | [x] => x
  | x :: rest => x +++ sep +++ join sep rest
  end.

(** ToString, as applied by template literals and [String(v)]. *)
Fixpoint toStr (v : value) : string :=
  match v with
  | VUndef => "undefined"
  | VNull => "null"
  | VBool true => "true"
  | VBool false => "false"
  | VNum n => string_of_Z n
  | VNaN => "NaN"
  | VStr s => s
  | VArr xs =>
      join "," (map (fun x => match x with
                              | VUndef | VNull => ""
                              | _ => toStr x
                              end) xs)
  | VObj _ => "[object Object]"
  end.

(** [xs.join(sep)] on an array of values. *)
Definition joinValues (sep : string) (xs : list value) : string :=
  join sep (map (fun x => match x with
                          | VUndef | VNull => ""
                          | _ => toStr x
                          end) xs).

Definition upper_ascii (c : ascii) : ascii :=
  let n := nat_of_ascii c in
  if (Nat.leb 97 n && Nat.leb n 122)%bool then ascii_of_nat (n - 32) else c.

Fixpoint toUpperCase (s : string) : string :=
  match s with
  | EmptyString => EmptyString
  | String c rest => String (upper_ascii c) (toUpperCase rest)
  end.

Fixpoint startsWith (s p : string) : bool :=
  match p, s with
  | EmptyString, _ => true
  | String _ _, EmptyString => false
  | String a p', String b s' => (Ascii.eqb a b && startsWith s' p')%bool
  end.

(** A decimal digit's value. *)
Definition digit (c : ascii) : option Z :=
  let n := nat_of_ascii c in
  if (Nat.leb 48 n && Nat.leb n 57)%bool then Some (Z.of_nat (n - 48)) else None.

(** The longest run of digits at the head of [s], read in base ten on top
    of [acc]; [seen] tells whether a digit was read. *)
Fixpoint digits (s : string) (acc : Z) (seen : bool) : option Z :=
  match s with
  | EmptyString => if seen then Some acc else None
  | String c rest =>
      match digit c with
      | Some d => digits rest (10 * acc + d)%Z true
      | None => if seen then Some acc else None
      end
  end.

(** [parseInt(v)]: an optional sign and the digits that follow.  Leading
    blanks and the hexadecimal prefix are not modelled. *)
Definition parseIntStr (s : string) : value :=
  match s with
  | String "-"%char rest =>
      match digits rest 0 false with Some z => VNum (- z) | None => VNaN end
  | String "+"%char rest =>
      match digits rest 0 false with Some z => VNum z | None => VNaN end
  | _ => match digits s 0 false with Some z => VNum z | None => VNaN end
  end.

Definition parseInt (v : value) : value := parseIntStr (toStr v).

(** ToNumber on the values a bound can hold.  A string is read as an
    integer numeral (the empty string is [0]); arrays and objects are
    outside the numeric model and read as [NaN].  The relational operators
    go through ToNumber unless both operands are strings, which JavaScript
    compares as strings; the statements below compare numeric bounds only. *)
Definition toNum (v : value) : num :=
  match v with
  | VUndef | VNaN | VArr _ | VObj _ => NaN
  | VNull => Fin 0
  | VBool b => Fin (if b then 1 else 0)
  | VNum n => Fin n
  | VStr s =>
      if (s =? "") then Fin 0
      else match parseIntStr s with VNum z => Fin z | _ => NaN end
  end.

(** [a < b] on numbers. *)
Definition num_lt (a b : num) : bool :=
  match a, b with
  | NaN, _ | _, NaN => false
  | _, NegInf => false
  | NegInf, _ => true
  | PosInf, _ => false
  | Fin _, PosInf => true
  | Fin x, Fin y => (x <? y)%Z
  end.

Definition num_gt (a b : num) : bool := num_lt b a.

End Js.

(* ================================================================== *)
(** ** The grouping idiom *)
(* ================================================================== *)

Module Grouping.

(** [if (!groups[key]) groups[key] = []; groups[key].push(x)]. *)
Fixpoint push {A : Type} (k : string) (x : A) (gs : list (string * list A))
  : list (string * list A) :=
  match gs with
  | [] => [(k, [x])]
  | (k', xs) :: rest =>
      if (k =? k') then (k', xs ++ [x]) :: rest
      else (k', xs) :: push k x rest
  end.

(** [entries.forEach(e => ... groups[key(e)].push(e))] followed by
    [Object.entries(groups)]. *)
Definition groupBy {A : Type} (key : A -> string) (l : list A)
  : list (string * list A) :=
  fold_left (fun gs x => push (key x) x gs) l [].

(** The pairs visited by [for i ... for j = i + 1 ...], in that order. *)
Fixpoint pairs {A : Type} (l : list A) : list (A * A) :=
  match l with
  | [] => []
  | x :: rest => map (pair x) rest ++ pairs rest
  end.

(** An array with its indices. *)
Definition indexed {A : Type} (l : list A) : list (nat * A) :=
  combine (seq 0 (List.length l)) l.

(** One turn of the loop of [groupBy]. *)
Definition step {A : Type} (key : A -> string) (gs : list (string * list A))
           (x : A) : list (string * list A) :=
  push (key x) x gs.

Definition keysOf {A : Type} (gs : list (string * list A)) : list string :=
  map fst gs.

(** A group of a grouping table: not empty, and of entries that have the
    group's key. *)
Definition block {A : Type} (key : A -> string) (g : string * list A) : Prop :=
  snd g <> [] /\ Forall (fun x => key x = fst g) (snd g).

(** A grouping table: distinct keys, each with a group. *)
Definition table {A : Type} (key : A -> string) (gs : list (string * list A))
  : Prop :=
  NoDup (keysOf gs) /\ Forall (block key) gs.

(** [key(x) === k], the test that picks the members of the group [k]. *)
Definition keyed {A : Type} (key : A -> string) (k : string) (x : A) : bool :=
  key x =? k.

End Grouping.

(* ================================================================== *)
(** ** The data model *)
(* ================================================================== *)

(** The conditions of a flat entry.  A field that holds [VUndef] is an
    absent key. *)
Module Conditions.
Import Js.

Record t : Type := make {
  delivery_mode : value;
  marketplace : value;
  vertical_types : option (list value);
  pdt_greater_than : value;
  pdt_less_than_or_equal_to : value;
  mean_delay_greater_than : value;
  mean_delay_less_than_or_equal_to : value;
  others : obj
}.


Definition present (v : value) : nat :=
  match v with VUndef => 0 | _ => 1 end.

(** [Object.keys(conditions).length]. *)
Definition keyCount (c : t) : nat :=
  present (delivery_mode c) + present (marketplace c)
  + (match vertical_types c with Some _ => 1 | None => 0 end)
  + present (pdt_greater_than c) + present (pdt_less_than_or_equal_to c)
  + present (mean_delay_greater_than c)
  + present (mean_delay_less_than_or_equal_to c)
  + List.length (others c).

(** [conditions[key]] for a key known at run time only. *)
Definition lookup (c : t) (key : string) : value :=
  if key =? "delivery_mode" then delivery_mode c
  else if key =? "marketplace" then marketplace c
  else if key =? "vertical_types" then
    match vertical_types c with Some xs => VArr xs | None => VUndef end
  else if key =? "pdt_greater_than" then pdt_greater_than c
  else if key =? "pdt_less_than_or_equal_to" then pdt_less_than_or_equal_to c
  else if key =? "mean_delay_greater_than" then mean_delay_greater_than c
  else if key =? "mean_delay_less_than_or_equal_to"
       then mean_delay_less_than_or_equal_to c
  else get (others c) key.

End Conditions.

(** [{min, max}] of a capping entry. *)
Module Single.
Record t : Type := make { min : Js.value; max : Js.value }.
End Single.

(** [{min: {lower_bound, upper_bound}, max: {...}}] of a capping entry. *)
Module CappingRanges.
Record bounds : Type := makeBounds {
  lower_bound : Js.value;
  upper_bound : Js.value
}.
Record t : Type := make { min : bounds; max : bounds }.
End CappingRanges.

(** A flat entry of a section.  [conditions = None] stands for a missing
    (or [null]) conditions object. *)
Module Entry.
Import Js.

Record t : Type := make {
  format : value;
  delivery_option : value;
  lower_bound : value;
  upper_bound : value;
  strategy : value;
  _title : value;
  conditions : option Conditions.t;
  single : option Single.t;
  ranges : option CappingRanges.t
}.

(** [newEntry._title = v]. *)
Definition setTitle (e : t) (v : value) : t :=
  make (format e) (delivery_option e) (lower_bound e) (upper_bound e)
       (strategy e) v (conditions e) (single e) (ranges e).

(** [entry.conditions?.field]. *)
Definition cond (f : Conditions.t -> value) (e : t) : value :=
  match conditions e with Some c => f c | None => VUndef end.

End Entry.

(** An element of [pdt]: arrays of flat entries under the section keys. *)
Module Section.

Record t : Type := make {
  display_format : option (list Entry.t);
  ranges : option (list Entry.t);
  capping : option (list Entry.t);
  rounding : option (list Entry.t)
}.

End Section.

Module Model.
Import Js.

(** A group.  [P] and [R] are what [commonParams] and [rules] hold: the
    objects themselves in a snapshot, their addresses in the store. *)
Record Group (P R : Type) : Type := mkGroup {
  id : string;
  type : string;
  title : value;
  commonParams : P;
  rules : R
}.

Arguments mkGroup {P R}.
Arguments id {P R}.
Arguments type {P R}.
Arguments title {P R}.
Arguments commonParams {P R}.
Arguments rules {P R}.

(** What [Object.values(configManager.groups)] shows of a group. *)
Definition GroupView : Type := Group obj (list obj).

Record Config : Type := mkConfig {
  configFormatVersion : value;
  variant : value;
  platform : value;
  countryCode : value;
  pdt : list Section.t
}.

End Model.

(* ================================================================== *)
(** ** ValidationManager *)
(* ================================================================== *)

Module ValidationManager.
Import Js Grouping Model.

Record DuplicateIssue : Type := mkDuplicate {
  group1 : string;
  group2 : string;
  dupType : string;
  dupMessage : string
}.

Inductive OverlapIssue : Type :=
| RulePair (groupId : string) (rule1Index rule2Index : nat) (message : string)
| RuleIndices (groupId : string) (ruleIndices : list nat) (message : string).

Record FieldIssue : Type := mkFieldIssue {
  fieldGroupId : string;
  fieldMessage : string
}.

Definition issueGroupId (i : OverlapIssue) : string :=
  match i with
  | RulePair g _ _ _ => g
  | RuleIndices g _ _ => g
  end.

(** [this.validationIssues]. *)
Record Issues : Type := mkIssues {
  duplicateGroups : list DuplicateIssue;
  overlappingRules : list OverlapIssue;
  requiredFields : list FieldIssue
}.

Definition noIssues : Issues := mkIssues [] [] [].

Definition pushDuplicates (i : Issues) (l : list DuplicateIssue) : Issues :=
  mkIssues (duplicateGroups i ++ l) (overlappingRules i) (requiredFields i).

Definition pushOverlaps (i : Issues) (l : list OverlapIssue) : Issues :=
  mkIssues (duplicateGroups i) (overlappingRules i ++ l) (requiredFields i).

Definition pushRequired (i : Issues) (l : list FieldIssue) : Issues :=
  mkIssues (duplicateGroups i) (overlappingRules i) (requiredFields i ++ l).

Definition isValid (i : Issues) : bool :=
  (Nat.eqb (List.length (duplicateGroups i)) 0
   && Nat.eqb (List.length (overlappingRules i)) 0
   && Nat.eqb (List.length (requiredFields i)) 0)%bool.

Definition areGroupsEqual (group1 group2 : GroupView) : bool :=
  let params1 := commonParams group1 in
  let params2 := commonParams group2 in
  let keys1 := keys params1 in
  let keys2 := keys params2 in
  if negb (Nat.eqb (List.length keys1) (List.length keys2)) then false
  else forallb (fun key => strict_eq (get params1 key) (get params2 key)) keys1.

Definition duplicatesOfType (entry : string * list GroupView)
  : list DuplicateIssue :=
  let (ty, typeGroups) := entry in
  if Nat.leb (List.length typeGroups) 1 then []
  else
    flat_map
      (fun p : GroupView * GroupView =>
         let (gi, gj) := p in
         if areGroupsEqual gi gj then
           [mkDuplicate (id gi) (id gj) ty
              ("Groups '" +++ toStr (title gi) +++ "' and '"
               +++ toStr (title gj) +++ "' have identical parameters")]
         else [])
      (pairs typeGroups).

Definition checkDuplicateGroups (groups : list GroupView) (i : Issues)
  : Issues :=
  let groupsByType := groupBy type groups in
  pushDuplicates i (flat_map duplicatesOfType groupsByType).

Definition keysToCompare : list string :=
  ["deliveryMode"; "marketplace"; "pdtLessThanOrEqualTo"; "verticalType"].

Definition paramExists (v : value) : bool :=
  (negb (strict_eq v VUndef) && negb (strict_eq v (VStr "")))%bool.

Definition haveMatchingParameters (params1 params2 : obj) : bool :=
  forallb
    (fun key =>
       let param1Exists := paramExists (get params1 key) in
       let param2Exists := paramExists (get params2 key) in
       if negb (Bool.eqb param1Exists param2Exists) then false
       else if (param1Exists && param2Exists
                && negb (strict_eq (get params1 key) (get params2 key)))%bool
            then false
            else true)
    keysToCompare.

Definition formatsOf (g : GroupView) : list value :=
  map (fun rule => get rule "format") (rules g).

Definition duplicateFormats (group1 group2 : GroupView) : list value :=
  filter (fun format => includes (formatsOf group2) format) (formatsOf group1).

Definition tooManyFormats (group : GroupView) : list FieldIssue :=
  if Nat.ltb 1 (List.length (rules group)) then
    [mkFieldIssue (id group)
       ("Display Format group '" +++ toStr (title group)
        +++ "' has multiple format rules. Only one format rule is allowed per group.")]
  else [].

Definition sameFormatDuplicate (p : GroupView * GroupView)
  : list DuplicateIssue :=
  let (group1, group2) := p in
  if haveMatchingParameters (commonParams group1) (commonParams group2) then
    let dups := duplicateFormats group1 group2 in
    if Nat.ltb 0 (List.length dups) then
      [mkDuplicate (id group1) (id group2) "display-format"
         ("Groups '" +++ toStr (title group1) +++ "' and '"
          +++ toStr (title group2)
          +++ "' have identical parameters with the same format: "
          +++ joinValues ", " dups)]
    else []
  else [].

Definition checkDuplicateDisplayFormats (groups : list GroupView) (i : Issues)
  : Issues :=
  let displayFormatGroups :=
    filter (fun group => type group =? "display-format") groups in
  if Nat.ltb (List.length displayFormatGroups) 2 then i
  else
    let i1 := pushRequired i (flat_map tooManyFormats displayFormatGroups) in
    pushDuplicates i1 (flat_map sameFormatDuplicate (pairs displayFormatGroups)).

Definition doRangesRulesOverlap (rule1 rule2 : obj) : bool :=
  let rule1HasPdtGreaterThan := specified (get rule1 "pdtGreaterThan") in
  let rule1HasPdtLessThanOrEqual := specified (get rule1 "pdtLessThanOrEqualTo") in
  let rule2HasPdtGreaterThan := specified (get rule2 "pdtGreaterThan") in
  let rule2HasPdtLessThanOrEqual := specified (get rule2 "pdtLessThanOrEqualTo") in
  if (rule1HasPdtLessThanOrEqual && rule2HasPdtGreaterThan
      && strict_eq (get rule1 "pdtLessThanOrEqualTo") (get rule2 "pdtGreaterThan"))%bool
  then false
  else if (rule2HasPdtLessThanOrEqual && rule1HasPdtGreaterThan
      && strict_eq (get rule2 "pdtLessThanOrEqualTo") (get rule1 "pdtGreaterThan"))%bool
  then false
  else
    let pdt1From := if rule1HasPdtGreaterThan
                    then toNum (get rule1 "pdtGreaterThan") else NegInf in
    let pdt1To := if rule1HasPdtLessThanOrEqual
                  then toNum (get rule1 "pdtLessThanOrEqualTo") else PosInf in
    let pdt2From := if rule2HasPdtGreaterThan
                    then toNum (get rule2 "pdtGreaterThan") else NegInf in
    let pdt2To := if rule2HasPdtLessThanOrEqual
                  then toNum (get rule2 "pdtLessThanOrEqualTo") else PosInf in
    if (num_lt pdt1To pdt2From || num_gt pdt1From pdt2To)%bool then false
    else
      let rule1HasMeanDelayGreaterThan :=
        specified (get rule1 "meanDelayGreaterThan") in
      let rule1HasMeanDelayLessThanOrEqual :=
        specified (get rule1 "meanDelayLessThanOrEqualTo") in
      let rule2HasMeanDelayGreaterThan :=
        specified (get rule2 "meanDelayGreaterThan") in
      let rule2HasMeanDelayLessThanOrEqual :=
        specified (get rule2 "meanDelayLessThanOrEqualTo") in
      if ((negb rule1HasMeanDelayGreaterThan
           && negb rule1HasMeanDelayLessThanOrEqual)
          || (negb rule2HasMeanDelayGreaterThan
              && negb rule2HasMeanDelayLessThanOrEqual))%bool
      then true
      else if (rule1HasMeanDelayLessThanOrEqual && rule2HasMeanDelayGreaterThan
               && strict_eq (get rule1 "meanDelayLessThanOrEqualTo")
                            (get rule2 "meanDelayGreaterThan"))%bool
      then false
      else if (rule2HasMeanDelayLessThanOrEqual && rule1HasMeanDelayGreaterThan
               && strict_eq (get rule2 "meanDelayLessThanOrEqualTo")
                            (get rule1 "meanDelayGreaterThan"))%bool
      then false
      else
        let md1From := if rule1HasMeanDelayGreaterThan
                       then toNum (get rule1 "meanDelayGreaterThan") else NegInf in
        let md1To := if rule1HasMeanDelayLessThanOrEqual
                     then toNum (get rule1 "meanDelayLessThanOrEqualTo")
                     else PosInf in
        let md2From := if rule2HasMeanDelayGreaterThan
                       then toNum (get rule2 "meanDelayGreaterThan") else NegInf in
        let md2To := if rule2HasMeanDelayLessThanOrEqual
                     then toNum (get rule2 "meanDelayLessThanOrEqualTo")
                     else PosInf in
        if (num_lt md1To md2From || num_gt md1From md2To)%bool then false
        else true.

Definition checkOverlappingRangesRules (groupId : string) (rules : list obj)
  : list OverlapIssue :=
  flat_map
    (fun p : (nat * obj) * (nat * obj) =>
       let '((i, ri), (j, rj)) := p in
       if doRangesRulesOverlap ri rj then
         [RulePair groupId i j
            ("Rules " +++ string_of_Z (Z.of_nat (i + 1)) +++ " and "
             +++ string_of_Z (Z.of_nat (j + 1))
             +++ " have overlapping conditions")]
       else [])
    (pairs (indexed rules)).

Definition hasType (ty : string) (rule : obj) : bool :=
  strict_eq (get rule "type") (VStr ty).

(** [rules.map((rule, index) => rule.type === ty ? index : -1)
         .filter(index => index !== -1)]. *)
Definition indicesOfType (ty : string) (rules : list obj) : list nat :=
  map fst (filter (fun p : nat * obj => hasType ty (snd p)) (indexed rules)).

Definition checkOverlappingCappingRules (groupId : string) (rules : list obj)
  : list OverlapIssue :=
  let singleRules := filter (hasType "single") rules in
  let rangesRules := filter (hasType "ranges") rules in
  (if Nat.ltb 1 (List.length singleRules) then
     [RuleIndices groupId (indicesOfType "single" rules)
        "Multiple 'single' rules found. Only one is allowed."]
   else [])
  ++
  (if Nat.ltb 1 (List.length rangesRules) then
     [RuleIndices groupId (indicesOfType "ranges" rules)
        "Multiple 'ranges' rules found. Only one is allowed."]
   else []).

Definition checkOverlappingRules (group : GroupView) : list OverlapIssue :=
  if type group =? "ranges" then
    checkOverlappingRangesRules (id group) (rules group)
  else if type group =? "capping" then
    checkOverlappingCappingRules (id group) (rules group)
  else [].

(** The issues the [allGroups.forEach] of [validateConfiguration] adds for
    one group. *)
Definition overlapsOfGroup (group : GroupView) : list OverlapIssue :=
  if Nat.ltb 1 (List.length (rules group)) then checkOverlappingRules group
  else [].

Definition validateConfiguration (allGroups : list GroupView)
  : bool * Issues :=
  let i0 := noIssues in
  let i1 := checkDuplicateGroups allGroups i0 in
  let i2 := checkDuplicateDisplayFormats allGroups i1 in
  let i3 := fold_left (fun i group => pushOverlaps i (overlapsOfGroup group))
                      allGroups i2 in
  (isValid i3, i3).

End ValidationManager.

(* ================================================================== *)
(** ** ConfigManager: flat entries to groups *)
(* ================================================================== *)

Module ConfigManager.
Import Js Grouping Model.

(** *** The store

    [commonParams] objects and [rules] arrays are mutated in place and can
    be shared between groups ([addGroup] copies a template group
    shallowly), so groups hold addresses into a heap. *)

Definition address : Type := nat.

Definition StoredGroup : Type := Group address address.

Record Heap : Type := mkHeap {
  paramObjects : list obj;
  ruleArrays : list (list obj)
}.

Record t : Type := mk {
  config : Config;
  groups : list (string * StoredGroup);
  idCounter : nat;
  heap : Heap;
  (** the values handed to [localStorage.setItem('pdtConfig', ...)],
      oldest first *)
  saved : list Config
}.

Fixpoint replaceAt {A : Type} (l : list A) (n : nat) (x : A) : list A :=
  match l, n with
  | [], _ => []
  | _ :: rest, O => x :: rest
  | y :: rest, S n' => y :: replaceAt rest n' x
  end.

Definition paramsAt (h : Heap) (a : address) : obj := nth a (paramObjects h) [].
Definition rulesAt (h : Heap) (a : address) : list obj := nth a (ruleArrays h) [].

Definition allocParams (h : Heap) (o : obj) : Heap * address :=
  (mkHeap (paramObjects h ++ [o]) (ruleArrays h), List.length (paramObjects h)).

Definition allocRules (h : Heap) (rs : list obj) : Heap * address :=
  (mkHeap (paramObjects h) (ruleArrays h ++ [rs]), List.length (ruleArrays h)).

Definition storeParams (h : Heap) (a : address) (o : obj) : Heap :=
  mkHeap (replaceAt (paramObjects h) a o) (ruleArrays h).

Definition storeRules (h : Heap) (a : address) (rs : list obj) : Heap :=
  mkHeap (paramObjects h) (replaceAt (ruleArrays h) a rs).

Definition view (h : Heap) (g : StoredGroup) : GroupView :=
  mkGroup (id g) (type g) (title g)
          (paramsAt h (commonParams g)) (rulesAt h (rules g)).

(** [this.groups[groupId]]. *)
Fixpoint getGroup (gs : list (string * StoredGroup)) (groupId : string)
  : option StoredGroup :=
  match gs with
  | [] => None
  | (k, g) :: rest => if groupId =? k then Some g else getGroup rest groupId
  end.

(** [this.groups[groupId] = g]. *)
Fixpoint putGroup (gs : list (string * StoredGroup)) (groupId : string)
         (g : StoredGroup) : list (string * StoredGroup) :=
  match gs with
  | [] => [(groupId, g)]
  | (k, g') :: rest =>
      if groupId =? k then (k, g) :: rest
      else (k, g') :: putGroup rest groupId g
  end.

(** [delete this.groups[groupId]]. *)
Definition removeGroup (gs : list (string * StoredGroup)) (groupId : string)
  : list (string * StoredGroup) :=
  filter (fun p : string * StoredGroup => negb (groupId =? fst p)) gs.

(** [Object.values(this.groups)], dereferenced. *)
Definition allGroups (cm : t) : list GroupView :=
  map (fun p : string * StoredGroup => view (heap cm) (snd p)) (groups cm).

Definition setConfig (cm : t) (c : Config) : t :=
  mk c (groups cm) (idCounter cm) (heap cm) (saved cm).
Definition setGroups (cm : t) (gs : list (string * StoredGroup)) : t :=
  mk (config cm) gs (idCounter cm) (heap cm) (saved cm).
Definition setIdCounter (cm : t) (n : nat) : t :=
  mk (config cm) (groups cm) n (heap cm) (saved cm).
Definition setHeap (cm : t) (h : Heap) : t :=
  mk (config cm) (groups cm) (idCounter cm) h (saved cm).

Definition saveConfig (cm : t) : t :=
  mk (config cm) (groups cm) (idCounter cm) (heap cm)
     (saved cm ++ [config cm]).

(** A section type followed by [-] and a counter value. *)
Definition makeId (sectionType : string) (n : nat) : string :=
  sectionType +++ "-" +++ string_of_Z (Z.of_nat n).

Definition getSectionType (section : Section.t) : string :=
  match Section.display_format section, Section.ranges section,
        Section.capping section, Section.rounding section with
  | Some _, _, _, _ => "display-format"
  | None, Some _, _, _ => "ranges"
  | None, None, Some _, _ => "capping"
  | None, None, None, Some _ => "rounding"
  | None, None, None, None => "unknown"
  end.

(** *** groupByCommonParams *)

Definition hasAnyConditions (entry : Entry.t) : bool :=
  match Entry.conditions entry with
  | Some c => Nat.ltb 0 (Conditions.keyCount c)
  | None => false
  end.

Definition hasOnlyDeliveryOption (entry : Entry.t) : bool :=
  (negb (hasAnyConditions entry)
   && truthy (Entry.delivery_option entry)
   && match Entry.conditions entry with Some _ => false | None => true end)%bool.

(** The key parts one parameter key contributes in the third case. *)
Definition paramKeyParts (c : Conditions.t) (key : string) : list string :=
  if ((key =? "delivery_mode") && truthy (Conditions.delivery_mode c))%bool then
    ["delivery_mode:" +++ toUpperCase (toStr (Conditions.delivery_mode c))]
  else if ((key =? "marketplace")
           && negb (strict_eq (Conditions.marketplace c) VUndef))%bool then
    let marketplaceValue :=
      if (strict_eq (Conditions.marketplace c) (VBool true)
          || strict_eq (Conditions.marketplace c) (VStr "true"))%bool
      then "true" else "false" in
    ["marketplace:" +++ marketplaceValue]
  else if key =? "vertical_types" then
    let verticalValue :=
      match Conditions.vertical_types c with
      | Some (x :: xs) => joinValues "," (x :: xs)
      | _ => "ANY"
      end in
    ["vertical_types:" +++ verticalValue]
  else if ((key =? "pdt_less_than_or_equal_to")
           && negb (strict_eq (Conditions.pdt_less_than_or_equal_to c) VUndef))%bool
  then
    ["pdt_less_than_or_equal_to:"
     +++ toStr (Conditions.pdt_less_than_or_equal_to c)]
  else [].

Definition deliveryOptionPart (entry : Entry.t) : string :=
  "delivery_option:" +++ toUpperCase (toStr (Entry.delivery_option entry)).

(** The [keyParts] built for one entry. *)
Definition keyParts (entry : Entry.t) (paramKeys : list string) : list string :=
  if (negb (hasAnyConditions entry) && negb (hasOnlyDeliveryOption entry))%bool
  then ["conditions:none"]
  else if hasOnlyDeliveryOption entry then
    [deliveryOptionPart entry; "conditions:delivery_option_only"]
  else
    (if truthy (Entry.delivery_option entry)
     then [deliveryOptionPart entry] else [])
    ++ match Entry.conditions entry with
       | Some c => flat_map (paramKeyParts c) paramKeys
       | None => []
       end.

(** [keyParts.join('|') || 'default']. *)
Definition groupingKey (paramKeys : list string) (entry : Entry.t) : string :=
  let key := join "|" (keyParts entry paramKeys) in
  if key =? "" then "default" else key.

Definition groupByCommonParams (entries : list Entry.t)
           (paramKeys : list string) : list (string * list Entry.t) :=
  groupBy (groupingKey paramKeys) entries.

(** *** sortRangeEntries *)

(** A bound as the comparator holds it: the value of the condition, or an
    infinity when the condition is [undefined]. *)
Inductive sortBound : Type :=
| Given (v : value)
| MinusInfinity
| PlusInfinity.

Definition boundOr (v : value) (dflt : sortBound) : sortBound :=
  if negb (strict_eq v VUndef) then Given v else dflt.

(** [a !== b] on bounds. *)
Definition boundDiffers (a b : sortBound) : bool :=
  match a, b with
  | Given x, Given y => negb (strict_eq x y)
  | MinusInfinity, MinusInfinity => false
  | PlusInfinity, PlusInfinity => false
  | _, _ => true
  end.

Definition boundNum (a : sortBound) : num :=
  match a with
  | Given v => toNum v
  | MinusInfinity => NegInf
  | PlusInfinity => PosInf
  end.

(** The sign of [a - b]; [None] when the difference is [NaN]. *)
Definition signOfDifference (a b : num) : option comparison :=
  match a, b with
  | NaN, _ | _, NaN => None
  | NegInf, NegInf | PosInf, PosInf => None
  | NegInf, _ => Some Lt
  | _, NegInf => Some Gt
  | PosInf, _ => Some Gt
  | _, PosInf => Some Lt
  | Fin x, Fin y => Some (Z.compare x y)
  end.

(** The comparator handed to [entries.sort], reduced to the sign of its
    result. *)
Definition compareRangeEntries (a b : Entry.t) : option comparison :=
  let aPdtLower := boundOr (Entry.cond Conditions.pdt_greater_than a) MinusInfinity in
  let aPdtUpper := boundOr (Entry.cond Conditions.pdt_less_than_or_equal_to a) PlusInfinity in
  let bPdtLower := boundOr (Entry.cond Conditions.pdt_greater_than b) MinusInfinity in
  let bPdtUpper := boundOr (Entry.cond Conditions.pdt_less_than_or_equal_to b) PlusInfinity in
  if boundDiffers aPdtLower bPdtLower then
    signOfDifference (boundNum aPdtLower) (boundNum bPdtLower)
  else if boundDiffers aPdtUpper bPdtUpper then
    signOfDifference (boundNum aPdtUpper) (boundNum bPdtUpper)
  else
    let aMdLower := boundOr (Entry.cond Conditions.mean_delay_greater_than a) MinusInfinity in
    let aMdUpper := boundOr (Entry.cond Conditions.mean_delay_less_than_or_equal_to a) PlusInfinity in
    let bMdLower := boundOr (Entry.cond Conditions.mean_delay_greater_than b) MinusInfinity in
    let bMdUpper := boundOr (Entry.cond Conditions.mean_delay_less_than_or_equal_to b) PlusInfinity in
    if boundDiffers aMdLower bMdLower then
      signOfDifference (boundNum aMdLower) (boundNum bMdLower)
    else if boundDiffers aMdUpper bMdUpper then
      signOfDifference (boundNum aMdUpper) (boundNum bMdUpper)
    else if negb (strict_eq (Entry.lower_bound a) (Entry.lower_bound b)) then
      signOfDifference (toNum (Entry.lower_bound a)) (toNum (Entry.lower_bound b))
    else
      signOfDifference (toNum (Entry.upper_bound a)) (toNum (Entry.upper_bound b)).

(** [Array.prototype.sort] is stable; it is modelled as the stable
    insertion sort.  An element moves in front of another only when the
    comparator answers a negative number for the pair; with a comparator
    that is not a consistent ordering the order a JavaScript engine
    produces is implementation-defined, and the model fixes this one. *)
Fixpoint insertSorted {A : Type} (cmp : A -> A -> option comparison)
         (x : A) (l : list A) : list A :=
  match l with
  | [] => [x]
  | y :: rest =>
      match cmp x y with
      | Some Lt => x :: y :: rest
      | _ => y :: insertSorted cmp x rest
      end
  end.

Definition arraySort {A : Type} (cmp : A -> A -> option comparison)
           (l : list A) : list A :=
  fold_left (fun sorted x => insertSorted cmp x sorted) l [].

Definition sortRangeEntries (entries : list Entry.t) : list Entry.t :=
  arraySort compareRangeEntries entries.

(** *** rebuildGroupsMapping *)

(** [s.includes(sub)]. *)
Fixpoint includesStr (s sub : string) : bool :=
  (startsWith s sub
   || match s with
      | EmptyString => false
      | String _ rest => includesStr rest sub
      end)%bool.

(** [v?.toString()]. *)
Definition optToString (v : value) : value :=
  match v with
  | VUndef | VNull => VUndef
  | _ => VStr (toStr v)
  end.

(** [conditions?.vertical_types?.[0]]. *)
Definition firstVerticalType (entry : Entry.t) : value :=
  match Entry.conditions entry with
  | Some c => match Conditions.vertical_types c with
              | Some (x :: _) => x
              | _ => VUndef
              end
  | None => VUndef
  end.

(** A conditions object stored in a rule. *)
Definition field (name : string) (v : value) : obj :=
  match v with VUndef => [] | _ => [(name, v)] end.

Definition conditionsValue (c : option Conditions.t) : value :=
  match c with
  | None => VObj []
  | Some c =>
      VObj (field "delivery_mode" (Conditions.delivery_mode c)
            ++ field "marketplace" (Conditions.marketplace c)
            ++ match Conditions.vertical_types c with
               | Some xs => [("vertical_types", VArr xs)]
               | None => []
               end
            ++ field "pdt_greater_than" (Conditions.pdt_greater_than c)
            ++ field "pdt_less_than_or_equal_to"
                     (Conditions.pdt_less_than_or_equal_to c)
            ++ field "mean_delay_greater_than"
                     (Conditions.mean_delay_greater_than c)
            ++ field "mean_delay_less_than_or_equal_to"
                     (Conditions.mean_delay_less_than_or_equal_to c)
            ++ Conditions.others c)
  end.

Definition noEntry : Entry.t :=
  Entry.make VUndef VUndef VUndef VUndef VUndef VUndef None None None.

(** [entries[0]]; a key of the grouping table always has an entry. *)
Definition firstOf (entries : list Entry.t) : Entry.t := hd noEntry entries.

(** The elements of [l] with the counter values they receive from [n] on. *)
Definition numbered {A : Type} (n : nat) (l : list A) : list (nat * A) :=
  combine (seq n (List.length l)) l.

Definition isBlankKey (commonParamsKey : string) : bool :=
  ((commonParamsKey =? "conditions:none")
   || includesStr commonParamsKey "conditions:delivery_option_only")%bool.

Definition displayFormatParamKeys : list string :=
  ["delivery_mode"; "marketplace"; "pdt_less_than_or_equal_to"; "vertical_types"].

Definition commonParamKeys : list string :=
  ["delivery_option"; "delivery_mode"; "marketplace"; "vertical_types"].

Definition displayFormatGroup (p : nat * (string * list Entry.t)) : GroupView :=
  let '(n, (commonParamsKey, entries)) := p in
  let firstEntry := firstOf entries in
  let blank := isBlankKey commonParamsKey in
  let title0 :=
    if blank then VStr "Display Format (Any)"
    else if truthy (Entry.cond Conditions.delivery_mode firstEntry)
         then VStr ("Display Format " +++
                    toStr (Entry.cond Conditions.delivery_mode firstEntry))
         else VStr "Display Format" in
  let title := if truthy (Entry._title firstEntry)
               then Entry._title firstEntry else title0 in
  mkGroup (makeId "display-format" n) "display-format" title
    [ ("deliveryMode",
        if blank then VStr ""
        else or_else (Entry.cond Conditions.delivery_mode firstEntry) (VStr ""));
      ("marketplace",
        if blank then VStr ""
        else or_else (optToString (Entry.cond Conditions.marketplace firstEntry))
                     (VStr "false"));
      ("pdtLessThanOrEqualTo",
        if blank then VStr ""
        else or_else (Entry.cond Conditions.pdt_less_than_or_equal_to firstEntry)
                     (VStr ""));
      ("verticalType",
        if blank then VStr ""
        else or_else (firstVerticalType firstEntry) (VStr "")) ]
    (map (fun entry =>
            [ ("format", Entry.format entry);
              ("conditions", conditionsValue (Entry.conditions entry)) ])
         entries).

(** The rule a ranges entry becomes. *)
Definition rangesRule (entry : Entry.t) : obj :=
  [ ("lowerBound", Entry.lower_bound entry);
    ("upperBound", Entry.upper_bound entry);
    ("pdtGreaterThan",
      or_else (Entry.cond Conditions.pdt_greater_than entry) VNull);
    ("pdtLessThanOrEqualTo",
      or_else (Entry.cond Conditions.pdt_less_than_or_equal_to entry) VNull);
    ("meanDelayGreaterThan",
      or_else (Entry.cond Conditions.mean_delay_greater_than entry) VNull);
    ("meanDelayLessThanOrEqualTo",
      or_else (Entry.cond Conditions.mean_delay_less_than_or_equal_to entry) VNull) ].

Definition rangesGroup (p : nat * (string * list Entry.t)) : GroupView :=
  let '(n, (commonParamsKey, entries)) := p in
  let firstEntry := firstOf entries in
  let blank := isBlankKey commonParamsKey in
  let verticalType :=
    if blank then VStr ""
    else match Entry.conditions firstEntry with
         | Some c => match Conditions.vertical_types c with
                     | Some (x :: _) => x
                     | _ => VStr ""
                     end
         | None => VStr ""
         end in
  let title :=
    if blank then VStr "Ranges Default"
    else if truthy (Entry._title firstEntry) then Entry._title firstEntry
    else if negb (strict_eq
                    (Entry.cond Conditions.pdt_less_than_or_equal_to firstEntry)
                    VUndef)
         then VStr ("Ranges PDT ≤" +++
                    toStr (Entry.cond Conditions.pdt_less_than_or_equal_to firstEntry))
    else if negb (strict_eq
                    (Entry.cond Conditions.pdt_greater_than firstEntry) VUndef)
         then VStr ("Ranges PDT >" +++
                    toStr (Entry.cond Conditions.pdt_greater_than firstEntry))
    else VStr "Ranges" in
  mkGroup (makeId "ranges" n) "ranges" title
    [ ("deliveryOption",
        or_else (Entry.delivery_option firstEntry) (VStr "STANDARD"));
      ("deliveryMode",
        if blank then VStr ""
        else or_else (Entry.cond Conditions.delivery_mode firstEntry)
                     (VStr "DELIVERY"));
      ("marketplace",
        if blank then VStr ""
        else or_else (optToString (Entry.cond Conditions.marketplace firstEntry))
                     (VStr "false"));
      ("verticalType", verticalType) ]
    (map rangesRule (sortRangeEntries entries)).

Definition cappingRulesOf (entry : Entry.t) : list obj :=
  (match Entry.single entry with
   | Some s => [ [ ("type", VStr "single");
                   ("min", Single.min s);
                   ("max", Single.max s) ] ]
   | None => []
   end)
  ++
  (match Entry.ranges entry with
   | Some r =>
       [ [ ("type", VStr "ranges");
           ("minLowerBound", CappingRanges.lower_bound (CappingRanges.min r));
           ("minUpperBound", CappingRanges.upper_bound (CappingRanges.min r));
           ("maxLowerBound", CappingRanges.lower_bound (CappingRanges.max r));
           ("maxUpperBound", CappingRanges.upper_bound (CappingRanges.max r)) ] ]
   | None => []
   end).

Definition cappingGroup (p : nat * (string * list Entry.t)) : GroupView :=
  let '(n, (commonParamsKey, entries)) := p in
  let firstEntry := firstOf entries in
  let blank := isBlankKey commonParamsKey in
  let title :=
    if blank then VStr "Capping Default"
    else if truthy (Entry._title firstEntry) then Entry._title firstEntry
    else VStr ("Capping " +++
               toStr (or_else (Entry.delivery_option firstEntry) (VStr ""))) in
  let blankOr (f : Conditions.t -> value) (dflt : string) : value :=
    if blank then VStr "" else or_else (Entry.cond f firstEntry) (VStr dflt) in
  mkGroup (makeId "capping" n) "capping" title
    [ ("deliveryOption",
        or_else (Entry.delivery_option firstEntry) (VStr "STANDARD"));
      ("deliveryMode", blankOr Conditions.delivery_mode "");
      ("marketplace",
        if blank then VStr ""
        else or_else (optToString (Entry.cond Conditions.marketplace firstEntry))
                     (VStr "false"));
      ("pdtGreaterThan", blankOr Conditions.pdt_greater_than "");
      ("pdtLessThanOrEqualTo", blankOr Conditions.pdt_less_than_or_equal_to "");
      ("meanDelayGreaterThan", blankOr Conditions.mean_delay_greater_than "");
      ("meanDelayLessThanOrEqualTo",
        blankOr Conditions.mean_delay_less_than_or_equal_to "");
      ("verticalType",
        if blank then VStr ""
        else or_else (firstVerticalType firstEntry) (VStr "")) ]
    (flat_map cappingRulesOf entries).

Definition roundingGroup (n : nat) (p : nat * Entry.t) : GroupView :=
  let (index, entry) := p in
  mkGroup (makeId "rounding" (n + index)) "rounding"
    (or_else (Entry._title entry)
             (VStr ("Rounding " +++ string_of_Z (Z.of_nat (index + 1)))))
    [ ("strategy", or_else (Entry.strategy entry) (VStr "NEAREST_5")) ]
    [].

(** The groups one section contributes when the counter stands at [n]. *)
Definition groupsOfSection (n : nat) (section : Section.t) : list GroupView :=
  match Section.display_format section, Section.ranges section,
        Section.capping section, Section.rounding section with
  | Some entries, _, _, _ =>
      map displayFormatGroup
          (numbered n (groupByCommonParams entries displayFormatParamKeys))
  | None, Some entries, _, _ =>
      map rangesGroup (numbered n (groupByCommonParams entries commonParamKeys))
  | None, None, Some entries, _ =>
      map cappingGroup (numbered n (groupByCommonParams entries commonParamKeys))
  | None, None, None, Some entries =>
      map (roundingGroup n) (indexed entries)
  | None, None, None, None => []
  end.

(** [this.groups[id] = {id, type, title, commonParams: {...}, rules: [...]}]
    with the counter moved on. *)
Definition install (cm : t) (g : GroupView) : t :=
  let (h1, paramsAddress) := allocParams (heap cm) (commonParams g) in
  let (h2, rulesAddress) := allocRules h1 (rules g) in
  mk (config cm)
     (putGroup (groups cm) (id g)
               (mkGroup (id g) (type g) (title g) paramsAddress rulesAddress))
     (S (idCounter cm)) h2 (saved cm).

Definition rebuildGroupsMapping (cm : t) : t :=
  fold_left
    (fun cm section =>
       fold_left install (groupsOfSection (idCounter cm) section) cm)
    (pdt (config cm))
    (mk (config cm) [] 0 (heap cm) (saved cm)).

(** *** updateConfigFromGroups *)

Definition paramIsSet (v : value) : bool :=
  (negb (strict_eq v VUndef) && negb (strict_eq v (VStr "")))%bool.

Definition whenTrue (b : bool) (v : value) : value := if b then v else VUndef.

Definition displayFormatEntry (group : GroupView) (rule : obj) : Entry.t :=
  let params := commonParams group in
  let deliveryMode := get params "deliveryMode" in
  let marketplace := get params "marketplace" in
  let pdtLessThanOrEqualTo := get params "pdtLessThanOrEqualTo" in
  let verticalType := get params "verticalType" in
  let hasVertical := (truthy verticalType
                      && negb (strict_eq verticalType (VStr "")))%bool in
  let hasConditions :=
    (truthy deliveryMode || paramIsSet marketplace
     || truthy pdtLessThanOrEqualTo || hasVertical)%bool in
  let conditions :=
    Conditions.make
      (whenTrue (truthy deliveryMode) deliveryMode)
      (whenTrue (paramIsSet marketplace)
                (VBool (strict_eq marketplace (VStr "true"))))
      (if hasVertical then Some [verticalType] else None)
      VUndef
      (whenTrue (truthy pdtLessThanOrEqualTo) (parseInt pdtLessThanOrEqualTo))
      VUndef VUndef [] in
  Entry.make (get rule "format") VUndef VUndef VUndef VUndef (title group)
             (if hasConditions then Some conditions else None) None None.

Definition rangesEntry (group : GroupView) (rule : obj) : Entry.t :=
  let params := commonParams group in
  let deliveryMode := get params "deliveryMode" in
  let marketplace := get params "marketplace" in
  let verticalType := get params "verticalType" in
  let hasVertical := (truthy verticalType
                      && negb (strict_eq verticalType (VStr "")))%bool in
  let bound (name : string) : value :=
    whenTrue (specified (get rule name)) (get rule name) in
  let conditions :=
    Conditions.make
      (whenTrue (truthy deliveryMode) deliveryMode)
      (whenTrue (paramIsSet marketplace)
                (VBool (strict_eq marketplace (VStr "true"))))
      (if hasVertical then Some [verticalType] else None)
      (bound "pdtGreaterThan")
      (bound "pdtLessThanOrEqualTo")
      (bound "meanDelayGreaterThan")
      (bound "meanDelayLessThanOrEqualTo")
      [] in
  Entry.make VUndef
             (or_else (get params "deliveryOption") (VStr "STANDARD"))
             (get rule "lowerBound") (get rule "upperBound")
             VUndef (title group) (Some conditions) None None.

Definition cappingEntry (group : GroupView) : Entry.t :=
  let params := commonParams group in
  let deliveryMode := get params "deliveryMode" in
  let marketplace := get params "marketplace" in
  let pdtGreaterThan := get params "pdtGreaterThan" in
  let pdtLessThanOrEqualTo := get params "pdtLessThanOrEqualTo" in
  let meanDelayGreaterThan := get params "meanDelayGreaterThan" in
  let meanDelayLessThanOrEqualTo := get params "meanDelayLessThanOrEqualTo" in
  let verticalType := get params "verticalType" in
  let hasVertical := (truthy verticalType
                      && negb (strict_eq verticalType (VStr "")))%bool in
  let hasConditions :=
    (truthy deliveryMode || paramIsSet marketplace
     || truthy pdtGreaterThan || truthy pdtLessThanOrEqualTo
     || truthy meanDelayGreaterThan || truthy meanDelayLessThanOrEqualTo
     || hasVertical)%bool in
  let conditions :=
    Conditions.make
      (whenTrue (truthy deliveryMode) deliveryMode)
      (whenTrue (paramIsSet marketplace)
                (VBool (strict_eq marketplace (VStr "true"))))
      (if hasVertical then Some [verticalType] else None)
      (whenTrue (truthy pdtGreaterThan) (parseInt pdtGreaterThan))
      (whenTrue (truthy pdtLessThanOrEqualTo) (parseInt pdtLessThanOrEqualTo))
      (whenTrue (truthy meanDelayGreaterThan) (parseInt meanDelayGreaterThan))
      (whenTrue (truthy meanDelayLessThanOrEqualTo)
                (parseInt meanDelayLessThanOrEqualTo))
      [] in
  let singleRules :=
    filter (fun rule => strict_eq (get rule "type") (VStr "single")) (rules group) in
  let rangesRules :=
    filter (fun rule => strict_eq (get rule "type") (VStr "ranges")) (rules group) in
  Entry.make VUndef
             (or_else (get params "deliveryOption") (VStr "STANDARD"))
             VUndef VUndef VUndef (title group)
             (if hasConditions then Some conditions else None)
             (match singleRules with
              | rule :: _ => Some (Single.make (get rule "min") (get rule "max"))
              | [] => None
              end)
             (match rangesRules with
              | rule :: _ =>
                  Some (CappingRanges.make
                          (CappingRanges.makeBounds (get rule "minLowerBound")
                                                    (get rule "minUpperBound"))
                          (CappingRanges.makeBounds (get rule "maxLowerBound")
                                                    (get rule "maxUpperBound")))
              | [] => None
              end).

Definition roundingEntry (group : GroupView) : Entry.t :=
  Entry.make VUndef VUndef VUndef VUndef
             (or_else (get (commonParams group) "strategy") (VStr "NEAREST_5"))
             (title group) None None None.

Definition ofType (ty : string) (gs : list GroupView) : list GroupView :=
  filter (fun group => type group =? ty) gs.

(** The [pdt] array built from the groups. *)
Definition sectionsOfGroups (gs : list GroupView) : list Section.t :=
  (match ofType "display-format" gs with
   | [] => []
   | dfs =>
       [Section.make
          (Some (flat_map (fun group => map (displayFormatEntry group)
                                            (rules group)) dfs))
          None None None]
   end)
  ++
  (match ofType "ranges" gs with
   | [] => []
   | rgs =>
       [Section.make None
          (Some (flat_map (fun group => map (rangesEntry group) (rules group))
                          rgs))
          None None]
   end)
  ++
  (match ofType "capping" gs with
   | [] => []
   | cgs => [Section.make None None (Some (map cappingEntry cgs)) None]
   end)
  ++
  (match ofType "rounding" gs with
   | [] => []
   | ros => [Section.make None None None (Some (map roundingEntry ros))]
   end).

Definition updateConfigFromGroups (cm : t) : t :=
  let c := config cm in
  saveConfig
    (setConfig cm
       (mkConfig (configFormatVersion c) (variant c) (platform c)
                 (countryCode c) (sectionsOfGroups (allGroups cm)))).

(** *** The mutators

    Each returns the value the method returns and the store it leaves. *)

Definition sectionTypeToDisplayName (sectionType : string) : string :=
  if sectionType =? "display-format" then "Display Format"
  else if sectionType =? "ranges" then "Range"
  else if sectionType =? "capping" then "Capping"
  else if sectionType =? "rounding" then "Rounding"
  else sectionType.

Definition createDefaultRules (sectionType : string) : list obj :=
  if sectionType =? "display-format" then
    [ [ ("format", VStr "DISPLAY_FORMAT_MINUTE_RANGE"); ("conditions", VObj []) ] ]
  else if sectionType =? "ranges" then
    [ [ ("lowerBound", VNum (-10)); ("upperBound", VNum 5);
        ("pdtGreaterThan", VNull); ("pdtLessThanOrEqualTo", VNull);
        ("meanDelayGreaterThan", VNull); ("meanDelayLessThanOrEqualTo", VNull) ] ]
  else if sectionType =? "capping" then
    [ [ ("type", VStr "single"); ("min", VNum 5); ("max", VNum 180) ] ]
  else [].

(** The common parameters and rules [adaptTemplateToSectionType] gives the
    adapted group. *)
Definition adaptedParams (templateParams : obj) (targetSectionType : string)
  : obj :=
  if targetSectionType =? "display-format" then
    [ ("deliveryMode", or_else (get templateParams "deliveryMode") (VStr "DELIVERY"));
      ("marketplace", or_else (get templateParams "marketplace") (VStr "false")) ]
  else if targetSectionType =? "ranges" then
    [ ("deliveryOption", or_else (get templateParams "deliveryOption") (VStr "STANDARD"));
      ("deliveryMode", or_else (get templateParams "deliveryMode") (VStr "DELIVERY"));
      ("marketplace", or_else (get templateParams "marketplace") (VStr "false"));
      ("verticalType", or_else (get templateParams "verticalType") (VStr "")) ]
  else if targetSectionType =? "capping" then
    [ ("deliveryOption", or_else (get templateParams "deliveryOption") (VStr "STANDARD"));
      ("deliveryMode", or_else (get templateParams "deliveryMode") (VStr "DELIVERY")) ]
  else if targetSectionType =? "rounding" then
    [ ("strategy", VStr "NEAREST_5") ]
  else [].

Definition adaptTemplateToSectionType (h : Heap) (templateGroup : StoredGroup)
           (targetSectionType newId : string) : GroupView :=
  mkGroup newId targetSectionType
    (if truthy (title templateGroup) then title templateGroup
     else VStr ("New " +++ sectionTypeToDisplayName targetSectionType))
    (adaptedParams (paramsAt h (commonParams templateGroup)) targetSectionType)
    (createDefaultRules targetSectionType).

(** A fresh group object whose [commonParams] and [rules] are fresh too. *)
Definition putFresh (cm : t) (g : GroupView) : t :=
  let (h1, paramsAddress) := allocParams (heap cm) (commonParams g) in
  let (h2, rulesAddress) := allocRules h1 (rules g) in
  setHeap
    (setGroups cm
       (putGroup (groups cm) (id g)
                 (mkGroup (id g) (type g) (title g) paramsAddress rulesAddress)))
    h2.

Definition addGroup (cm : t) (sectionType : string)
           (templateGroup : option StoredGroup) : value * t :=
  let newId := makeId sectionType (idCounter cm) in
  let cm1 := setIdCounter cm (S (idCounter cm)) in
  let cm2 :=
    match templateGroup with
    | Some template =>
        if negb (type template =? sectionType) then
          putFresh cm1 (adaptTemplateToSectionType (heap cm1) template
                                                   sectionType newId)
        else
          (* {...templateGroup, id}: the copy shares commonParams and rules *)
          setGroups cm1
            (putGroup (groups cm1) newId
                      (mkGroup newId (type template) (title template)
                               (commonParams template) (rules template)))
    | None =>
        putFresh cm1
          (mkGroup newId sectionType
                   (VStr ("New " +++ sectionTypeToDisplayName sectionType))
                   [] (createDefaultRules sectionType))
    end in
  (VStr newId, updateConfigFromGroups cm2).

(** [JSON.parse(JSON.stringify(v))]. *)
Fixpoint jsonClone (v : value) : value :=
  match v with
  | VNaN => VNull
  | VArr xs =>
      VArr (map (fun x => match x with
                          | VUndef => VNull
                          | _ => jsonClone x
                          end) xs)
  | VObj fs =>
      VObj ((fix fields (l : list (string * value)) : list (string * value) :=
               match l with
               | [] => []
               | (k, VUndef) :: rest => fields rest
               | (k, x) :: rest => (k, jsonClone x) :: fields rest
               end) fs)
  | _ => v
  end.

Definition jsonCloneObject (o : obj) : obj :=
  match jsonClone (VObj o) with VObj fs => fs | _ => [] end.

Definition cloneGroup (cm : t) (groupId : string) : value * t :=
  match getGroup (groups cm) groupId with
  | None => (VNull, cm)
  | Some sourceGroup =>
      let source := view (heap cm) sourceGroup in
      let newId := makeId (type source) (idCounter cm) in
      let cm1 := setIdCounter cm (S (idCounter cm)) in
      let cm2 :=
        putFresh cm1
          (mkGroup newId (type source)
                   (VStr ("Copy of " +++ toStr (title source)))
                   (jsonCloneObject (commonParams source))
                   (map jsonCloneObject (rules source))) in
      (VStr newId, updateConfigFromGroups cm2)
  end.

Definition deleteGroup (cm : t) (sectionType groupId : string) : value * t :=
  match getGroup (groups cm) groupId with
  | Some _ =>
      (VBool true,
       updateConfigFromGroups (setGroups cm (removeGroup (groups cm) groupId)))
  | None => (VBool false, cm)
  end.

Definition updateGroupCommonParam (cm : t) (groupId paramName : string)
           (v : value) : value * t :=
  match getGroup (groups cm) groupId with
  | Some group =>
      let a := commonParams group in
      (VBool true,
       updateConfigFromGroups
         (setHeap cm (storeParams (heap cm) a
                                  (set (paramsAt (heap cm) a) paramName v))))
  | None => (VBool false, cm)
  end.

Definition addRule (cm : t) (groupId : string) (format : value) : value * t :=
  match getGroup (groups cm) groupId with
  | None => (VBool false, cm)
  | Some group =>
      let a := rules group in
      let old := rulesAt (heap cm) a in
      let new :=
        if type group =? "display-format" then
          old ++ [ [ ("format",
                       or_else format (VStr "DISPLAY_FORMAT_MINUTE_RANGE"));
                     ("conditions", VObj []) ] ]
        else if type group =? "ranges" then
          match rev old with
          | lastRule :: _ => old ++ [lastRule]
          | [] =>
              old ++ [ [ ("lowerBound", VNum (-10)); ("upperBound", VNum 5);
                         ("pdtGreaterThan", VNull);
                         ("pdtLessThanOrEqualTo", VNull);
                         ("meanDelayGreaterThan", VNull);
                         ("meanDelayLessThanOrEqualTo", VNull) ] ]
          end
        else if type group =? "capping" then
          old ++ [ [ ("type", VStr "single"); ("min", VNum 5); ("max", VNum 180) ] ]
        else old in
      (VBool true,
       updateConfigFromGroups (setHeap cm (storeRules (heap cm) a new)))
  end.

(** [rules[ruleIndex]]. *)
Definition ruleAt (rs : list obj) (ruleIndex : Z) : option obj :=
  if (ruleIndex <? 0)%Z then None else nth_error rs (Z.to_nat ruleIndex).

Definition updateRule (cm : t) (groupId : string) (ruleIndex : Z)
           (fieldName : string) (v : value) : value * t :=
  match getGroup (groups cm) groupId with
  | None => (VBool false, cm)
  | Some group =>
      let a := rules group in
      let old := rulesAt (heap cm) a in
      match ruleAt old ruleIndex with
      | None => (VBool false, cm)
      | Some rule =>
          let newRule :=
            if ((type group =? "capping") && (fieldName =? "type"))%bool then
              if strict_eq v (VStr "single") then
                [ ("type", VStr "single"); ("min", VNum 5); ("max", VNum 180) ]
              else if strict_eq v (VStr "ranges") then
                [ ("type", VStr "ranges");
                  ("minLowerBound", VNum 10); ("minUpperBound", VNum 20);
                  ("maxLowerBound", VNum 160); ("maxUpperBound", VNum 180) ]
              else rule
            else set rule fieldName v in
          (VBool true,
           updateConfigFromGroups
             (setHeap cm (storeRules (heap cm) a
                            (replaceAt old (Z.to_nat ruleIndex) newRule))))
      end
  end.

(** [rules.splice(n, 1)]. *)
Fixpoint removeAt {A : Type} (l : list A) (n : nat) : list A :=
  match l, n with
  | [], _ => []
  | _ :: rest, O => rest
  | x :: rest, S n' => x :: removeAt rest n'
  end.

Definition deleteRule (cm : t) (groupId : string) (ruleIndex : Z) : value * t :=
  match getGroup (groups cm) groupId with
  | None => (VBool false, cm)
  | Some group =>
      let a := rules group in
      let old := rulesAt (heap cm) a in
      match ruleAt old ruleIndex with
      | None => (VBool false, cm)
      | Some _ =>
          (VBool true,
           updateConfigFromGroups
             (setHeap cm (storeRules (heap cm) a
                            (removeAt old (Z.to_nat ruleIndex)))))
      end
  end.

(** [a <= b] and [Math.max] on numbers. *)
Definition num_le (a b : num) : bool :=
  match a, b with
  | NaN, _ | _, NaN => false
  | NegInf, _ => true
  | _, PosInf => true
  | _, NegInf => false
  | PosInf, _ => false
  | Fin x, Fin y => (x <=? y)%Z
  end.

Definition num_max (a b : num) : num :=
  match a, b with
  | NaN, _ | _, NaN => NaN
  | PosInf, _ | _, PosInf => PosInf
  | NegInf, x | x, NegInf => x
  | Fin x, Fin y => Fin (Z.max x y)
  end.

(** Whether [updateGroupTitle] finds that the rules of a ranges group cover
    all positive PDT values. *)
Definition coversAllPositive (rs : list obj) : bool :=
  let hasZeroLowerBound :=
    existsb
      (fun rule =>
         ((strict_eq (get rule "pdtGreaterThan") VNull
           || strict_eq (get rule "pdtGreaterThan") VUndef
           || num_le (toNum (get rule "pdtGreaterThan")) (Fin 0))
          && specified (get rule "pdtLessThanOrEqualTo"))%bool)
      rs in
  if hasZeroLowerBound then
    let highestUpperBound :=
      fold_left num_max
        (map (fun r => toNum (get r "pdtLessThanOrEqualTo"))
             (filter (fun r => specified (get r "pdtLessThanOrEqualTo")) rs))
        NegInf in
    num_le (Fin 100) highestUpperBound
  else false.

Definition updateGroupTitle (cm : t) (groupId newTitle : string) : value * t :=
  match getGroup (groups cm) groupId with
  | Some group =>
      let chosen :=
        if ((type group =? "ranges") && negb (startsWith newTitle "Copy of"))%bool
        then
          if coversAllPositive (rulesAt (heap cm) (rules group))
          then "Ranges (All Positive PDT)" else newTitle
        else newTitle in
      let group' :=
        mkGroup (id group) (type group) (VStr chosen)
                (commonParams group) (rules group) in
      (VBool true,
       saveConfig
         (updateConfigFromGroups
            (setGroups cm (putGroup (groups cm) groupId group'))))
  | None => (VBool false, cm)
  end.

End ConfigManager.

(* ================================================================== *)
(** ** ExportImportManager: merging imported sections *)
(* ================================================================== *)

Module ExportImportManager.
Import Js Grouping Model.

Definition generateEntryKey (entry : Entry.t) (paramKeys : list string)
  : string :=
  let conditionParts :=
    match Entry.conditions entry with
    | Some c =>
        flat_map
          (fun key =>
             match Conditions.lookup c key with
             | VUndef => []
             | VArr xs => [key +++ ":" +++ joinValues "," xs]
             | v => [key +++ ":" +++ toStr v]
             end)
          paramKeys
    | None => []
    end in
  let deliveryPart :=
    if truthy (Entry.delivery_option entry)
    then ["delivery_option:" +++ toStr (Entry.delivery_option entry)]
    else [] in
  join "|" (conditionParts ++ deliveryPart).

(** The key both [groupRangesByPdtBounds] and [groupEntriesByMeanDelay]
    build from a pair of bounds. *)
Definition boundsKey (greaterThan lessThanOrEqualTo : value) : string :=
  if (negb (strict_eq greaterThan VUndef)
      && negb (strict_eq lessThanOrEqualTo VUndef))%bool
  then toStr greaterThan +++ "-" +++ toStr lessThanOrEqualTo
  else if negb (strict_eq greaterThan VUndef) then ">" +++ toStr greaterThan
  else if negb (strict_eq lessThanOrEqualTo VUndef)
       then "≤" +++ toStr lessThanOrEqualTo
  else "default".

Definition pdtBoundsKey (entry : Entry.t) : string :=
  boundsKey (Entry.cond Conditions.pdt_greater_than entry)
            (Entry.cond Conditions.pdt_less_than_or_equal_to entry).

Definition meanDelayKey (entry : Entry.t) : string :=
  boundsKey (Entry.cond Conditions.mean_delay_greater_than entry)
            (Entry.cond Conditions.mean_delay_less_than_or_equal_to entry).

Definition groupRangesByPdtBounds (entries : list Entry.t)
  : list (string * list Entry.t) := groupBy pdtBoundsKey entries.

Definition groupEntriesByMeanDelay (entries : list Entry.t)
  : list (string * list Entry.t) := groupBy meanDelayKey entries.

(** The text both descriptions give a pair of bounds of which one at least
    is defined. *)
Definition boundsText (greaterThan lessThanOrEqualTo : value) : string :=
  if (negb (strict_eq greaterThan VUndef)
      && negb (strict_eq lessThanOrEqualTo VUndef))%bool
  then toStr greaterThan +++ "-" +++ toStr lessThanOrEqualTo
  else if negb (strict_eq greaterThan VUndef) then ">" +++ toStr greaterThan
  else if negb (strict_eq lessThanOrEqualTo VUndef)
       then "≤" +++ toStr lessThanOrEqualTo
  else "".

Definition getMeanDelayDescription (conditions : option Conditions.t)
  : string :=
  match conditions with
  | None => ""
  | Some c =>
      let g := Conditions.mean_delay_greater_than c in
      let l := Conditions.mean_delay_less_than_or_equal_to c in
      if (negb (strict_eq g VUndef) || negb (strict_eq l VUndef))%bool
      then "Mean Delay " +++ boundsText g l
      else "Default Mean Delay"
  end.

Definition getPdtRangeDescription (conditions : option Conditions.t)
  : string :=
  match conditions with
  | None => "Default"
  | Some c =>
      let g := Conditions.pdt_greater_than c in
      let l := Conditions.pdt_less_than_or_equal_to c in
      if (negb (strict_eq g VUndef) || negb (strict_eq l VUndef))%bool
      then "PDT " +++ boundsText g l
      else "Default"
  end.

(** [type.charAt(0).toUpperCase() + type.slice(1)]. *)
Definition capitalize (s : string) : string :=
  match s with
  | EmptyString => EmptyString
  | String c rest => String (upper_ascii c) rest
  end.

Definition noEntry : Entry.t :=
  Entry.make VUndef VUndef VUndef VUndef VUndef VUndef None None None.

Definition mergedDisplayFormat (entry : Entry.t) : Entry.t :=
  Entry.make (Entry.format entry) VUndef VUndef VUndef VUndef
             (or_else (Entry._title entry)
                      (VStr ("Format: " +++ toStr (Entry.format entry))))
             (Entry.conditions entry) None None.

Definition withoutPdtBounds (commonParamKeys : list string) : list string :=
  filter (fun k => (negb (k =? "pdt_greater_than")
                    && negb (k =? "pdt_less_than_or_equal_to"))%bool)
         commonParamKeys.

(** The entries one mean-delay group of a ranges sub-group gives. *)
Definition titledMeanDelayGroup (baseTitle : string) (groupCount : nat)
           (g : string * list Entry.t) : list Entry.t :=
  let (mdKey, meanDelayEntries) := g in
  let groupTitle :=
    if (Nat.ltb 1 groupCount && negb (mdKey =? "default"))%bool then
      baseTitle +++ ", "
      +++ getMeanDelayDescription (Entry.conditions (hd noEntry meanDelayEntries))
    else baseTitle in
  map (fun p : nat * Entry.t =>
         let (index, entry) := p in
         Entry.setTitle entry
           (or_else (Entry._title entry)
              (VStr (if Nat.ltb 1 (List.length meanDelayEntries)
                     then groupTitle +++ " " +++ string_of_Z (Z.of_nat (index + 1))
                     else groupTitle))))
      (indexed meanDelayEntries).

Definition titledSubGroup (type : string) (g : string * list Entry.t)
  : list Entry.t :=
  let (key, entriesGroup) := g in
  let pdtDesc :=
    getPdtRangeDescription (Entry.conditions (hd noEntry entriesGroup)) in
  let baseTitle := capitalize type +++ " " +++ pdtDesc in
  let meanDelayGroups := groupEntriesByMeanDelay entriesGroup in
  flat_map (titledMeanDelayGroup baseTitle (List.length meanDelayGroups))
           meanDelayGroups.

Definition titledPdtGroup (type : string) (commonParamKeys : list string)
           (g : string * list Entry.t) : list Entry.t :=
  let (pdtKey, pdtEntries) := g in
  let subGroupedEntries :=
    groupBy (fun entry => generateEntryKey entry (withoutPdtBounds commonParamKeys))
            pdtEntries in
  flat_map (titledSubGroup type) subGroupedEntries.

Definition titledCappingGroup (type : string) (g : string * list Entry.t)
  : list Entry.t :=
  let (key, entriesGroup) := g in
  map (fun p : nat * Entry.t =>
         let (index, entry) := p in
         Entry.setTitle entry
           (or_else (Entry._title entry)
              (VStr (capitalize type +++ " "
                     +++ toStr (or_else (Entry.delivery_option entry) (VStr ""))
                     +++ " "
                     +++ (if Nat.ltb 0 index
                          then string_of_Z (Z.of_nat (index + 1)) else "")))))
      (indexed entriesGroup).

Definition mergeEntriesByCommonParams (entries : list Entry.t) (type : string)
           (commonParamKeys : list string) : list Entry.t :=
  if type =? "display_format" then
    let groupedEntries :=
      groupBy (fun entry => generateEntryKey entry commonParamKeys) entries in
    flat_map (fun g : string * list Entry.t => map mergedDisplayFormat (snd g))
             groupedEntries
  else if type =? "ranges" then
    flat_map (titledPdtGroup type commonParamKeys)
             (groupRangesByPdtBounds entries)
  else if type =? "capping" then
    let groupedEntries :=
      groupBy (fun entry => generateEntryKey entry commonParamKeys) entries in
    flat_map (titledCappingGroup type) groupedEntries
  else
    map (fun p : nat * Entry.t =>
           let (index, entry) := p in
           if truthy (Entry._title entry) then entry
           else Entry.setTitle entry
                  (VStr (capitalize type +++ " "
                         +++ string_of_Z (Z.of_nat (index + 1)))))
        (indexed entries).

(** [sectionsByType], filled by the first loop. *)
Record ByType : Type := mkByType {
  displayFormatEntries : list Entry.t;
  rangesEntries : list Entry.t;
  cappingEntries : list Entry.t;
  roundingEntries : list Entry.t
}.

Definition collect (acc : ByType) (section : Section.t) : ByType :=
  match Section.display_format section, Section.ranges section,
        Section.capping section, Section.rounding section with
  | Some es, _, _, _ =>
      mkByType (displayFormatEntries acc ++ es) (rangesEntries acc)
               (cappingEntries acc) (roundingEntries acc)
  | None, Some es, _, _ =>
      mkByType (displayFormatEntries acc) (rangesEntries acc ++ es)
               (cappingEntries acc) (roundingEntries acc)
  | None, None, Some es, _ =>
      mkByType (displayFormatEntries acc) (rangesEntries acc)
               (cappingEntries acc ++ es) (roundingEntries acc)
  | None, None, None, Some es =>
      mkByType (displayFormatEntries acc) (rangesEntries acc)
               (cappingEntries acc) (roundingEntries acc ++ es)
  | None, None, None, None => acc
  end.

Definition displayFormatKeys : list string :=
  ["delivery_mode"; "marketplace"; "pdt_less_than_or_equal_to"; "vertical_types"].

Definition rangesKeys : list string :=
  ["delivery_option"; "delivery_mode"; "marketplace"; "vertical_types";
   "pdt_greater_than"; "pdt_less_than_or_equal_to"].

Definition mergePdtSectionsByCommonParams (pdtSections : list Section.t)
  : list Section.t :=
  let sectionsByType := fold_left collect pdtSections (mkByType [] [] [] []) in
  (match displayFormatEntries sectionsByType with
   | [] => []
   | es =>
       [Section.make
          (Some (mergeEntriesByCommonParams es "display_format" displayFormatKeys))
          None None None]
   end)
  ++
  (match rangesEntries sectionsByType with
   | [] => []
   | es =>
       [Section.make None
          (Some (mergeEntriesByCommonParams es "ranges" rangesKeys)) None None]
   end)
  ++
  (match cappingEntries sectionsByType with
   | [] => []
   | es =>
       [Section.make None None
          (Some (mergeEntriesByCommonParams es "capping" rangesKeys)) None]
   end)
  ++
  (match roundingEntries sectionsByType with
   | [] => []
   | es => [Section.make None None None (Some es)]
   end).

(** *** Counting the imported items *)

(** [counts], one number per section type. *)
Record Counts : Type := mkCounts {
  display_format_count : nat;
  ranges_count : nat;
  capping_count : nat;
  rounding_count : nat
}.

(** [section.key.length] where [section.key] is an array, which is truthy
    also when it is empty; nothing is counted for a missing key. *)
Definition lengthOf (entries : option (list Entry.t)) : nat :=
  match entries with
  | Some es => List.length es
  | None => 0
  end.

Definition countSection (counts : Counts) (section : Section.t) : Counts :=
  mkCounts
    (display_format_count counts + lengthOf (Section.display_format section))
    (ranges_count counts + lengthOf (Section.ranges section))
    (capping_count counts + lengthOf (Section.capping section))
    (rounding_count counts + lengthOf (Section.rounding section)).

(** [countImportItems(config)], on the array [config.pdt]. *)
Definition countImportItems (pdt : list Section.t) : Counts :=
  fold_left countSection pdt (mkCounts 0 0 0 0).

(** *** Escaping a line for the diff view *)

(** [s.replace(/c/g, replacement)] for a one-character pattern. *)
Fixpoint replaceAll (c : ascii) (replacement : string) (s : string) : string :=
  match s with
  | EmptyString => EmptyString
  | String a rest =>
      if Ascii.eqb a c then replacement +++ replaceAll c replacement rest
      else String a (replaceAll c replacement rest)
  end.

(** The double quote. *)
Definition quote : ascii := ascii_of_nat 34.

(** The five replacements, in the order of the source.  The patterns are
    ASCII characters, which the bytes of a longer UTF-8 sequence never
    equal. *)
Definition escapeHtml (unsafe : string) : string :=
  replaceAll "'" "&#039;"
    (replaceAll quote "&quot;"
       (replaceAll ">" "&gt;"
          (replaceAll "<" "&lt;"
             (replaceAll "&" "&amp;" unsafe)))).

(** *** Checking an imported configuration *)

(** [{valid, errors}]. *)
Record Validation : Type := mkValidation {
  valid : bool;
  errors : list string
}.

(** [v[key]] for a key that no prototype defines; [None] is the TypeError
    that reading a property of [null] or [undefined] throws. *)
Definition prop (v : value) (key : string) : option value :=
  match v with
  | VUndef | VNull => None
  | VObj o => Some (get o key)
  | _ => Some VUndef
  end.

(** [section.display_format || section.ranges || section.capping ||
    section.rounding], as a condition. *)
Definition isValidSection (section : value) : option bool :=
  match prop section "display_format", prop section "ranges",
        prop section "capping", prop section "rounding" with
  | Some d, Some r, Some c, Some o =>
      Some (truthy d || truthy r || truthy c || truthy o)%bool
  | _, _, _, _ => None
  end.

(** The [for ... of] loop of [validateImportedConfig], which stops at the
    first valid section. *)
Fixpoint hasValidSection (pdt : list value) : option bool :=
  match pdt with
  | [] => Some false
  | section :: rest =>
      match isValidSection section with
      | None => None
      | Some true => Some true
      | Some false => hasValidSection rest
      end
  end.

Definition missingVersion : string :=
  "Missing config format version, will use default".

Definition isCritical (error : string) : bool :=
  (negb (error =? missingVersion)
   && negb (error =? "Missing country code, will use empty value"))%bool.

Definition whenMissing (v : value) (error : string) : list string :=
  if truthy v then [] else [error].

Definition validateImportedConfig (config : value) : option Validation :=
  if negb (truthy config) then
    Some (mkValidation false ["Configuration is empty or invalid"])
  else
    match prop config "configFormatVersion", prop config "config_format_version",
          prop config "variant", prop config "platform", prop config "pdt" with
    | Some configFormatVersion, Some config_format_version,
      Some variant, Some platform, Some pdt =>
        let errors :=
          (if (negb (truthy configFormatVersion)
               && negb (truthy config_format_version))%bool
           then [missingVersion] else [])
          ++ whenMissing variant "Missing variant"
          ++ whenMissing platform "Missing platform" in
        if negb (truthy pdt) then
          Some (mkValidation false (errors ++ ["Missing PDT configuration"]))
        else
          match pdt with
          | VArr sections =>
              match hasValidSection sections with
              | None => None
              | Some false =>
                  Some (mkValidation false
                          (errors ++
                           ["No valid PDT sections found (display_format, ranges, capping, or rounding)"]))
              | Some true =>
                  Some (mkValidation
                          (Nat.eqb (List.length (filter isCritical errors)) 0)
                          errors)
              end
          | _ =>
              Some (mkValidation false
                      (errors ++ ["PDT configuration must be an array"]))
          end
    | _, _, _, _, _ => None
    end.

End ExportImportManager.

(* ================================================================== *)
(** ** YamlHandler: preparing the configuration *)
(* ================================================================== *)

Module YamlHandler.
Import Js.

(** The configuration [generateYaml] works on: both spellings of the two
    renamed metadata keys, a field that holds [VUndef] being an absent key.
    The entries are those of a JSON clone, so no object is shared between
    two places of [pdt]. *)
Record Config : Type := mkConfig {
  configFormatVersion : value;
  config_format_version : value;
  variant : value;
  platform : value;
  countryCode : value;
  country_code : value;
  pdt : list Section.t
}.







End YamlHandler.

(* ================================================================== *)
(** ** What the specification says, in its own words *)
(* ================================================================== *)

Module Spec.
Import Js.

Local Open Scope Z_scope.

(** A bound of a rule: an integer, or [null] for an absent side. *)
Definition bound (b : option Z) : value :=
  match b with
  | Some z => VNum z
  | None => VNull
  end.

(** [x] lies in the half-open interval [(g, l]]; an absent side is
    unbounded. *)
Definition above (g : option Z) (x : Z) : Prop :=
  match g with Some a => a < x | None => True end.

Definition upTo (l : option Z) (x : Z) : Prop :=
  match l with Some b => x <= b | None => True end.

Definition inInterval (g l : option Z) (x : Z) : Prop := above g x /\ upTo l x.

Definition intersect (g1 l1 g2 l2 : option Z) : Prop :=
  exists x, inInterval g1 l1 x /\ inInterval g2 l2 x.

Definition nonEmpty (g l : option Z) : Prop := exists x, inInterval g l x.

Definition unbounded (g l : option Z) : Prop := g = None /\ l = None.

(** The bounds a ranges rule carries. *)
Record RuleBounds : Type := mkBounds {
  pdtGreaterThan : option Z;
  pdtLessThanOrEqualTo : option Z;
  meanDelayGreaterThan : option Z;
  meanDelayLessThanOrEqualTo : option Z
}.

Definition carries (rule : obj) (b : RuleBounds) : Prop :=
  get rule "pdtGreaterThan" = bound (pdtGreaterThan b)
  /\ get rule "pdtLessThanOrEqualTo" = bound (pdtLessThanOrEqualTo b)
  /\ get rule "meanDelayGreaterThan" = bound (meanDelayGreaterThan b)
  /\ get rule "meanDelayLessThanOrEqualTo" = bound (meanDelayLessThanOrEqualTo b).

(** Two rules overlap: the PDT intervals intersect, and the Mean-Delay
    intervals intersect or one of the rules has no Mean-Delay bound. *)
Definition rulesOverlap (a b : RuleBounds) : Prop :=
  intersect (pdtGreaterThan a) (pdtLessThanOrEqualTo a)
            (pdtGreaterThan b) (pdtLessThanOrEqualTo b)
  /\ (unbounded (meanDelayGreaterThan a) (meanDelayLessThanOrEqualTo a)
      \/ unbounded (meanDelayGreaterThan b) (meanDelayLessThanOrEqualTo b)
      \/ intersect (meanDelayGreaterThan a) (meanDelayLessThanOrEqualTo a)
                   (meanDelayGreaterThan b) (meanDelayLessThanOrEqualTo b)).

(** Both intervals of a rule have a point. *)
Definition wellFormed (b : RuleBounds) : Prop :=
  nonEmpty (pdtGreaterThan b) (pdtLessThanOrEqualTo b)
  /\ nonEmpty (meanDelayGreaterThan b) (meanDelayLessThanOrEqualTo b).

(** The rule object with these bounds and nothing else. *)
Definition ruleOf (b : RuleBounds) : obj :=
  [ ("pdtGreaterThan", bound (pdtGreaterThan b));
    ("pdtLessThanOrEqualTo", bound (pdtLessThanOrEqualTo b));
    ("meanDelayGreaterThan", bound (meanDelayGreaterThan b));
    ("meanDelayLessThanOrEqualTo", bound (meanDelayLessThanOrEqualTo b)) ].

(** [a < b] between a lower and an upper bound, absent sides being
    infinite. *)
Definition below (g l : option Z) : Prop :=
  match g, l with
  | Some a, Some b => a < b
  | _, _ => True
  end.

(** The value the code computes, on the bounds alone. *)
Definition overlapOnBounds (a b : RuleBounds) : Prop :=
  below (pdtGreaterThan b) (pdtLessThanOrEqualTo a)
  /\ below (pdtGreaterThan a) (pdtLessThanOrEqualTo b)
  /\ (unbounded (meanDelayGreaterThan a) (meanDelayLessThanOrEqualTo a)
      \/ unbounded (meanDelayGreaterThan b) (meanDelayLessThanOrEqualTo b)
      \/ (below (meanDelayGreaterThan b) (meanDelayLessThanOrEqualTo a)
          /\ below (meanDelayGreaterThan a) (meanDelayLessThanOrEqualTo b))).

(** The rules of the overlap-boundary example: PDT (0, 18] and (18, 23]. *)
Definition ruleA : RuleBounds := mkBounds (Some 0) (Some 18) None None.
Definition ruleB : RuleBounds := mkBounds (Some 18) (Some 23) None None.

(** A rule whose PDT bounds are the wrong way round, and an ordinary one. *)
Definition invertedRule : RuleBounds := mkBounds (Some 10) (Some 5) None None.
Definition wideRule : RuleBounds := mkBounds (Some 0) (Some 20) None None.

(** *** Display-format groups used to run the validator *)

Definition formatRule (format : string) : obj :=
  [ ("format", VStr format); ("conditions", VObj []) ].

Definition deliveryParams : obj :=
  [ ("deliveryMode", VStr "DELIVERY"); ("marketplace", VStr "false");
    ("pdtLessThanOrEqualTo", VStr ""); ("verticalType", VStr "") ].

(** One display-format group with two format rules. *)
Definition twoFormatsGroup : Model.GroupView :=
  Model.mkGroup "display-format-0" "display-format" (VStr "Display Format DELIVERY")
    deliveryParams
    [ formatRule "DISPLAY_FORMAT_MINUTE_RANGE"; formatRule "DISPLAY_FORMAT_MINUTE" ].

(** Two display-format groups with the same common parameters and no
    format in common. *)
Definition minuteRangeGroup : Model.GroupView :=
  Model.mkGroup "display-format-0" "display-format" (VStr "Minute range")
    deliveryParams [ formatRule "DISPLAY_FORMAT_MINUTE_RANGE" ].

Definition minuteGroup : Model.GroupView :=
  Model.mkGroup "display-format-1" "display-format" (VStr "Minute")
    deliveryParams [ formatRule "DISPLAY_FORMAT_MINUTE" ].

(** A capping group with one single rule and one ranges rule. *)
Definition oneOfEachGroup : Model.GroupView :=
  Model.mkGroup "capping-0" "capping" (VStr "Capping STANDARD")
    [ ("deliveryOption", VStr "STANDARD") ]
    [ [ ("type", VStr "single"); ("min", VNum 5); ("max", VNum 180) ];
      [ ("type", VStr "ranges");
        ("minLowerBound", VNum 10); ("minUpperBound", VNum 20);
        ("maxLowerBound", VNum 160); ("maxUpperBound", VNum 180) ] ].

(** *** The grouping key, as the specification words its three cases *)









(** *** The sections of [config.pdt] against the groups *)

(** The section kinds, in the order [updateConfigFromGroups] emits them. *)
Definition sectionKinds : list string :=
  ["display-format"; "ranges"; "capping"; "rounding"].

Definition hasGroupOfKind (gs : list Model.GroupView) (kind : string) : bool :=
  existsb (fun g => String.eqb (Model.type g) kind) gs.

(** A section with exactly one of the four keys. *)
Definition singleKeyed (s : Section.t) : Prop :=
  match Section.display_format s, Section.ranges s,
        Section.capping s, Section.rounding s with
  | Some _, None, None, None
  | None, Some _, None, None
  | None, None, Some _, None
  | None, None, None, Some _ => True
  | _, _, _, _ => False
  end.

(** [config.pdt] lists, in the fixed order and once each, the kinds that
    have a group, every section under its own key only. *)
Definition pdtReflectsGroups (cm : ConfigManager.t) : Prop :=
  map ConfigManager.getSectionType (Model.pdt (ConfigManager.config cm))
  = filter (hasGroupOfKind (ConfigManager.allGroups cm)) sectionKinds
  /\ Forall singleKeyed (Model.pdt (ConfigManager.config cm)).

(** The store of a fresh ConfigManager, with sections left over from an
    import in the reverse order. *)
Definition defaultConfig : Model.Config :=
  Model.mkConfig (VStr "1") (VStr "config-a") (VStr "talabat") (VStr "bh") [].

Definition freshStore : ConfigManager.t :=
  ConfigManager.mk defaultConfig [] 0 (ConfigManager.mkHeap [] []) [].

Definition reversedStore : ConfigManager.t :=
  ConfigManager.mk
    (Model.mkConfig (VStr "1") (VStr "config-a") (VStr "talabat") (VStr "bh")
       [ Section.make None None None (Some []);
         Section.make None (Some []) None None ])
    [] 0 (ConfigManager.mkHeap [] []) [].

(** A store with one ranges group, "ranges-0", holding one rule. *)
Definition oneRangesGroupStore : ConfigManager.t :=
  snd (ConfigManager.addGroup freshStore "ranges" None).

End Spec.

(* ================================================================== *)
(** ** Merging: notions used to state and prove idempotence *)
(* ================================================================== *)

Module MergeSpec.
Import Js Grouping ExportImportManager.

(** An entry that already has a title. *)
Definition titled (e : Entry.t) : Prop := truthy (Entry._title e) = true.
Definition noDeliveryOption (e : Entry.t) : Prop :=
  truthy (Entry.delivery_option e) = false.
Definition displayFormatWithoutOption (sections : list Section.t) : Prop :=
  forall section es, In section sections ->
                     Section.display_format section = Some es ->
                     Forall noDeliveryOption es.
(** [entries.map((entry, index) => ({...entry, _title: entry._title || text}))] *)
Definition retitle (text : nat -> Entry.t -> string) (l : list Entry.t) : list Entry.t :=
  map (fun p : nat * Entry.t =>
         let (index, entry) := p in
         Entry.setTitle entry
           (or_else (Entry._title entry) (VStr (text index entry))))
      (Grouping.indexed l).

(** The title text of a capping entry. *)
Definition cappingText (type : string) (index : nat) (entry : Entry.t) : string :=
  capitalize type +++ " "
  +++ toStr (or_else (Entry.delivery_option entry) (VStr ""))
  +++ " "
  +++ (if Nat.ltb 0 index then string_of_Z (Z.of_nat (index + 1)) else "").

(** The title text of a ranges entry of a mean-delay group. *)
Definition meanDelayText (baseTitle : string) (groupCount : nat) (mdKey : string)
           (meanDelayEntries : list Entry.t) (index : nat) (entry : Entry.t)
  : string :=
  let groupTitle :=
    if (Nat.ltb 1 groupCount && negb (mdKey =? "default"))%bool then
      baseTitle +++ ", "
      +++ getMeanDelayDescription (Entry.conditions (hd noEntry meanDelayEntries))
    else baseTitle in
  if Nat.ltb 1 (List.length meanDelayEntries)
  then groupTitle +++ " " +++ string_of_Z (Z.of_nat (index + 1))
  else groupTitle.

(** [out] is made of the entries of [src], each under a title, and has an
    entry if [src] has one. *)
Definition kept (src out : list Entry.t) : Prop :=
  out <> []
  /\ Forall titled out
  /\ Forall (fun e' => exists e v, In e src /\ e' = Entry.setTitle e v) out.

Definition keyIgnoresTitle (key : Entry.t -> string) : Prop :=
  forall e v, key (Entry.setTitle e v) = key e.

Definition noSections : ByType := mkByType [] [] [] [].

(** What [mergeEntriesByCommonParams] makes of each kind. *)
Definition mergedByType (b : ByType) : ByType :=
  mkByType
    (mergeEntriesByCommonParams (displayFormatEntries b) "display_format" displayFormatKeys)
    (mergeEntriesByCommonParams (rangesEntries b) "ranges" rangesKeys)
    (mergeEntriesByCommonParams (cappingEntries b) "capping" rangesKeys)
    (roundingEntries b).

(** One section per kind that has entries, in the fixed order. *)
Definition sectionsOf (b : ByType) : list Section.t :=
  (match displayFormatEntries b with
   | [] => []
   | es => [Section.make (Some es) None None None]
   end)
  ++ (match rangesEntries b with
      | [] => []
      | es => [Section.make None (Some es) None None]
      end)
  ++ (match cappingEntries b with
      | [] => []
      | es => [Section.make None None (Some es) None]
      end)
  ++ (match roundingEntries b with
      | [] => []
      | es => [Section.make None None None (Some es)]
      end).

(** The keys of a grouping table with the sizes of their groups. *)
Definition shape (gs : list (string * list Entry.t)) : list (string * nat) :=
  map (fun g => (fst g, List.length (snd g))) gs.

Definition collected (sections : list Section.t) : ByType :=
  fold_left collect sections noSections.

Definition remergeChangesNothing (sections : list Section.t) : Prop :=
  let once := mergePdtSectionsByCommonParams sections in
  mergePdtSectionsByCommonParams once = once
  /\ shape (groupBy (fun e => generateEntryKey e displayFormatKeys)
                    (displayFormatEntries (collected once)))
     = shape (groupBy (fun e => generateEntryKey e displayFormatKeys)
                      (displayFormatEntries (collected sections)))
  /\ shape (groupRangesByPdtBounds (rangesEntries (collected once)))
     = shape (groupRangesByPdtBounds (rangesEntries (collected sections)))
  /\ shape (groupBy (fun e => generateEntryKey e rangesKeys)
                    (cappingEntries (collected once)))
     = shape (groupBy (fun e => generateEntryKey e rangesKeys)
                      (cappingEntries (collected sections))).

Definition deliveryConditions (mode : string) : Conditions.t :=
  Conditions.make (VStr mode) VUndef None VUndef VUndef VUndef VUndef [].

Definition formatEntry (format : string) (option : value) (mode : string) : Entry.t :=
  Entry.make (VStr format) option VUndef VUndef VUndef VUndef
             (Some (deliveryConditions mode)) None None.

(** Three display-format entries; the first carries a delivery option. *)
Definition optionedSections : list Section.t :=
  [ Section.make
      (Some [ formatEntry "DISPLAY_FORMAT_MINUTE_RANGE" (VStr "EXPRESS") "DELIVERY";
              formatEntry "DISPLAY_FORMAT_MINUTE" VUndef "PICKUP";
              formatEntry "DISPLAY_FORMAT_TIME" VUndef "DELIVERY" ])
      None None None ].

(** Three ranges entries of the end-to-end scenario, in one flat section. *)
Definition rangeEntry (g l : value) : Entry.t :=
  Entry.make VUndef (VStr "STANDARD") (VNum (-10)) (VNum 5) VUndef VUndef
    (Some (Conditions.make VUndef VUndef (Some [VStr "restaurants"]) g l VUndef VUndef []))
    None None.

Definition scenarioSections : list Section.t :=
  [ Section.make None
      (Some [ rangeEntry VUndef (VNum 13); rangeEntry (VNum 13) (VNum 18);
              rangeEntry (VNum 18) (VNum 23) ])
      None None ].

End MergeSpec.

(* ================================================================== *)
(** ** Rebuilding the index: notions used to state and prove the loss of a
    zero bound *)
(* ================================================================== *)

Module RebuildSpec.
Import Js Grouping Model ConfigManager.

(** The groups [rebuildGroupsMapping] creates for the sections, the counter
    standing at [n]. *)
Fixpoint rebuiltGroups (n : nat) (sections : list Section.t) : list GroupView :=
  match sections with
  | [] => []
  | section :: rest =>
      let gs := groupsOfSection n section in
      gs ++ rebuiltGroups (n + List.length gs) rest
  end.

(** Groups whose ids were made from the counter values [n], [n + 1], ... *)
Inductive numberedFrom : nat -> list GroupView -> Prop :=
| numbered_nil (n : nat) : numberedFrom n []
| numbered_cons (n : nat) (g : GroupView) (gs : list GroupView) :
    (exists ty, In ty Spec.sectionKinds /\ id g = makeId ty n) ->
    numberedFrom (S n) gs ->
    numberedFrom n (g :: gs).

(** The keys of [groups] are ids made from counter values already used,
    and the addresses the groups hold are allocated. *)
Definition wellFormed (cm : t) : Prop :=
  Forall (fun p : string * StoredGroup =>
            (exists ty n, In ty Spec.sectionKinds /\ n < idCounter cm
                          /\ fst p = makeId ty n)
            /\ commonParams (snd p) < List.length (paramObjects (heap cm))
            /\ rules (snd p) < List.length (ruleArrays (heap cm)))
         (groups cm).

(** A bound that was 0 in the entry is [null] in the rule made of it and
    absent from the entry the rule is serialised to. *)
Definition zeroBoundLost (bound : Conditions.t -> value) (name : string)
           (e : Entry.t) (g : GroupView) : Prop :=
  Entry.cond bound e = VNum 0 ->
  get (rangesRule e) name = VNull
  /\ Entry.cond bound (rangesEntry g (rangesRule e)) = VUndef.

(** [config.pdt] after the rebuild and the serialisation that follows the
    next mutation. *)
Definition reserialised (cm : t) : list Section.t :=
  pdt (config (updateConfigFromGroups (rebuildGroupsMapping cm))).

(** The entry [e] has its rule in a ranges group of the rebuilt index, the
    rule has lost every bound that was 0, and so has the entry the rule is
    serialised to. *)
Definition rebuiltWithoutZeroBounds (cm : t) (e : Entry.t) : Prop :=
  exists g : GroupView,
    In g (allGroups (rebuildGroupsMapping cm))
    /\ type g = "ranges"
    /\ In (rangesRule e) (rules g)
    /\ zeroBoundLost Conditions.pdt_greater_than "pdtGreaterThan" e g
    /\ zeroBoundLost Conditions.pdt_less_than_or_equal_to
                     "pdtLessThanOrEqualTo" e g
    /\ zeroBoundLost Conditions.mean_delay_greater_than
                     "meanDelayGreaterThan" e g
    /\ zeroBoundLost Conditions.mean_delay_less_than_or_equal_to
                     "meanDelayLessThanOrEqualTo" e g
    /\ exists es,
        In (Section.make None (Some es) None None) (reserialised cm)
        /\ In (rangesEntry g (rangesRule e)) es.

(** A ranges section with one entry whose lower PDT bound is 0. *)
Definition zeroBoundEntry : Entry.t :=
  Entry.make VUndef (VStr "STANDARD") (VNum (-10)) (VNum 5) VUndef VUndef
    (Some (Conditions.make (VStr "DELIVERY") (VBool false) (Some [VStr "restaurants"])
                           (VNum 0) (VNum 13) VUndef VUndef []))
    None None.

Definition zeroBoundStore : t :=
  mk (mkConfig (VStr "1") (VStr "config-a") (VStr "talabat") (VStr "bh")
               [ Section.make None (Some [zeroBoundEntry]) None None ])
     [] 0 (mkHeap [] []) [].

End RebuildSpec.

(* ================================================================== *)
(** ** What the statements below say of the validator, the store and the import *)
(* ================================================================== *)

Module ValidationSpec.
Import Js Model ValidationManager Spec.

(** The message of an overlap between the rules at [i] and [j]. *)
Definition overlapMessage (i j : nat) : string :=
  "Rules " +++ string_of_Z (Z.of_nat (i + 1)) +++ " and "
  +++ string_of_Z (Z.of_nat (j + 1)) +++ " have overlapping conditions".

(** Rules that tile the PDT axis: each rule ends where the next one starts,
    and the next one ends later. *)
Inductive tiled : list RuleBounds -> Prop :=
| tiled_nil : tiled []
| tiled_one (r : RuleBounds) : tiled [r]
| tiled_cons (a b : RuleBounds) (rest : list RuleBounds) (x : Z) :
    pdtLessThanOrEqualTo a = Some x ->
    pdtGreaterThan b = Some x ->
    below (Some x) (pdtLessThanOrEqualTo b) ->
    tiled (b :: rest) ->
    tiled (a :: b :: rest).

(** Common parameters without repeated keys and without a key that holds
    [undefined]. *)
Definition plainParams (o : obj) : Prop :=
  NoDup (keys o) /\ Forall (fun p : string * value => snd p <> VUndef) o.

Definition duplicateMessage (g1 g2 : GroupView) : string :=
  "Groups '" +++ toStr (title g1) +++ "' and '"
  +++ toStr (title g2) +++ "' have identical parameters".

(** PDT up to 13, 13 to 18, 18 to 23, and above 23. *)
Definition fourTiles : list RuleBounds :=
  [ mkBounds None (Some 13%Z) None None;
    mkBounds (Some 13%Z) (Some 18%Z) None None;
    mkBounds (Some 18%Z) (Some 23%Z) (Some 0%Z) (Some 5%Z);
    mkBounds (Some 23%Z) None None None ].

End ValidationSpec.

Module StoreSpec.
Import Js Grouping Model ConfigManager.

(** The store as the manager keeps it: ids made from counter values
    already used, allocated addresses, one entry per id, every group filed
    under its own id, and of one of the four section types. *)
Definition consistent (cm : t) : Prop :=
  RebuildSpec.wellFormed cm
  /\ NoDup (map fst (groups cm))
  /\ Forall (fun p : string * StoredGroup =>
               id (snd p) = fst p /\ In (type (snd p)) Spec.sectionKinds)
            (groups cm).

(** A template group lives in the heap of the store. *)
Definition allocated (cm : t) (templateGroup : option StoredGroup) : Prop :=
  match templateGroup with
  | Some g => commonParams g < List.length (paramObjects (heap cm))
              /\ rules g < List.length (ruleArrays (heap cm))
  | None => True
  end.

(** One call of a mutator. *)
Inductive step (cm : t) : t -> Prop :=
| step_addGroup (sectionType : string) (templateGroup : option StoredGroup) :
    In sectionType Spec.sectionKinds -> allocated cm templateGroup ->
    step cm (snd (addGroup cm sectionType templateGroup))
| step_cloneGroup (groupId : string) :
    step cm (snd (cloneGroup cm groupId))
| step_deleteGroup (sectionType groupId : string) :
    step cm (snd (deleteGroup cm sectionType groupId))
| step_updateGroupCommonParam (groupId paramName : string) (v : value) :
    step cm (snd (updateGroupCommonParam cm groupId paramName v))
| step_addRule (groupId : string) (format : value) :
    step cm (snd (addRule cm groupId format))
| step_updateRule (groupId : string) (ruleIndex : Z) (fieldName : string)
                  (v : value) :
    step cm (snd (updateRule cm groupId ruleIndex fieldName v))
| step_deleteRule (groupId : string) (ruleIndex : Z) :
    step cm (snd (deleteRule cm groupId ruleIndex))
| step_updateGroupTitle (groupId newTitle : string) :
    step cm (snd (updateGroupTitle cm groupId newTitle)).

(** Any number of calls. *)
Inductive steps (cm : t) : t -> Prop :=
| steps_none : steps cm cm
| steps_more (cm1 cm2 : t) : steps cm cm1 -> step cm1 cm2 -> steps cm cm2.

(** The group stored under [groupId], dereferenced. *)
Definition viewOf (cm : t) (groupId : string) : option GroupView :=
  option_map (view (heap cm)) (getGroup (groups cm) groupId).

(** Groups that carry the ids of their own type for the counter values
    [n], [n + 1], ... *)
Inductive numberedByType : nat -> list GroupView -> Prop :=
| byType_nil (n : nat) : numberedByType n []
| byType_cons (n : nat) (g : GroupView) (gs : list GroupView) :
    In (type g) Spec.sectionKinds ->
    id g = makeId (type g) n ->
    numberedByType (S n) gs ->
    numberedByType n (g :: gs).

(** The objects two stored groups hold are the same objects. *)
Definition sameObjects (g g' : StoredGroup) : Prop :=
  commonParams g' = commonParams g /\ rules g' = rules g.

(** A store with one template group kept outside the index: its common
    parameters and its rules are objects of the heap. *)
Definition templateStore : t :=
  mk Spec.defaultConfig [] 0
     (mkHeap [ [ ("deliveryOption", VStr "STANDARD") ] ]
             [ [ [ ("lowerBound", VNum (-10)); ("upperBound", VNum 5);
                   ("pdtGreaterThan", VNull); ("pdtLessThanOrEqualTo", VNum 13);
                   ("meanDelayGreaterThan", VNull);
                   ("meanDelayLessThanOrEqualTo", VNull) ] ] ])
     [].

Definition templateGroup : StoredGroup :=
  mkGroup "template" "ranges" (VStr "Standard ranges") 0 0.

End StoreSpec.

Module SortSpec.
Import Js Model ConfigManager.

(** A bound that is an integer or is absent. *)
Definition integerOrAbsent (v : value) : Prop :=
  v = VUndef \/ exists z, v = VNum z.

Definition integer (v : value) : Prop := exists z, v = VNum z.

(** A ranges entry whose condition bounds are integers or absent and whose
    own bounds are integers. *)
Definition plainRange (e : Entry.t) : Prop :=
  integerOrAbsent (Entry.cond Conditions.pdt_greater_than e)
  /\ integerOrAbsent (Entry.cond Conditions.pdt_less_than_or_equal_to e)
  /\ integerOrAbsent (Entry.cond Conditions.mean_delay_greater_than e)
  /\ integerOrAbsent (Entry.cond Conditions.mean_delay_less_than_or_equal_to e)
  /\ integer (Entry.lower_bound e)
  /\ integer (Entry.upper_bound e).

(** The six numbers the comparator looks at, in its order: an absent lower
    bound counts as minus infinity, an absent upper bound as plus
    infinity. *)
Definition sortKey (e : Entry.t) : list num :=
  [ boundNum (boundOr (Entry.cond Conditions.pdt_greater_than e) MinusInfinity);
    boundNum (boundOr (Entry.cond Conditions.pdt_less_than_or_equal_to e)
                      PlusInfinity);
    boundNum (boundOr (Entry.cond Conditions.mean_delay_greater_than e)
                      MinusInfinity);
    boundNum (boundOr (Entry.cond Conditions.mean_delay_less_than_or_equal_to e)
                      PlusInfinity);
    toNum (Entry.lower_bound e);
    toNum (Entry.upper_bound e) ].

(** The lexicographic order on keys. *)
Fixpoint lexLe (k1 k2 : list num) : Prop :=
  match k1, k2 with
  | a :: r1, b :: r2 => num_lt a b = true \/ (a = b /\ lexLe r1 r2)
  | _, _ => True
  end.

Definition inOrder (a b : Entry.t) : Prop := lexLe (sortKey a) (sortKey b).

(** Equality of numbers. *)
Definition num_eqb (a b : num) : bool :=
  match a, b with
  | NegInf, NegInf | PosInf, PosInf => true
  | Fin x, Fin y => (x =? y)%Z
  | _, _ => false
  end.

(** The comparator, on keys. *)
Fixpoint compareKeys (k1 k2 : list num) : option comparison :=
  match k1, k2 with
  | [a], [b] => signOfDifference a b
  | a :: r1, b :: r2 =>
      if num_eqb a b then compareKeys r1 r2 else signOfDifference a b
  | _, _ => None
  end.

Definition isNumber (a : num) : Prop := a <> NaN.

Definition rangeWith (g l : value) (lower upper : Z) : Entry.t :=
  Entry.make VUndef (VStr "STANDARD") (VNum lower) (VNum upper) VUndef VUndef
    (Some (Conditions.make VUndef VUndef None g l VUndef VUndef [])) None None.

(** PDT above 18, PDT up to 13, and PDT 13 to 18, in that order. *)
Definition shuffledRanges : list Entry.t :=
  [ rangeWith (VNum 18) VUndef 0 10;
    rangeWith VUndef (VNum 13) (-10) 5;
    rangeWith (VNum 13) (VNum 18) (-5) 5 ].

End SortSpec.

Module MergedSpec.
Import Js Grouping Model ExportImportManager MergeSpec.

(** An entry without its title. *)
Definition untitled (e : Entry.t) : Entry.t := Entry.setTitle e VUndef.

(** The lists hold the same entries, titles and order apart. *)
Definition sameEntries (l l' : list Entry.t) : Prop :=
  Permutation (map untitled l) (map untitled l').

(** The entries of a kind, by the name of the kind in [config.pdt]. *)
Definition entriesOfKind (b : ByType) (kind : string) : list Entry.t :=
  if kind =? "display-format" then displayFormatEntries b
  else if kind =? "ranges" then rangesEntries b
  else if kind =? "capping" then cappingEntries b
  else if kind =? "rounding" then roundingEntries b
  else [].

Definition hasEntries (b : ByType) (kind : string) : bool :=
  match entriesOfKind b kind with
  | [] => false
  | _ :: _ => true
  end.

(** The arrays of a section are not empty. *)
Definition noEmptyArray (s : Section.t) : Prop :=
  Section.display_format s <> Some [] /\ Section.ranges s <> Some []
  /\ Section.capping s <> Some [] /\ Section.rounding s <> Some [].

(** A section with one key at most. *)
Definition atMostOneKey (s : Section.t) : Prop :=
  match Section.display_format s, Section.ranges s,
        Section.capping s, Section.rounding s with
  | Some _, None, None, None
  | None, Some _, None, None
  | None, None, Some _, None
  | None, None, None, Some _
  | None, None, None, None => True
  | _, _, _, _ => False
  end.

(** A step of the merge that keeps the entries of the group it is given. *)
Definition keepsEntries (F : string * list Entry.t -> list Entry.t) : Prop :=
  forall g, sameEntries (F g) (snd g).

(** The number of entries of each kind. *)
Definition sizes (b : ByType) : Counts :=
  mkCounts (List.length (displayFormatEntries b)) (List.length (rangesEntries b))
           (List.length (cappingEntries b)) (List.length (roundingEntries b)).

End MergedSpec.

Module EscapeSpec.
Import Js ExportImportManager.

(** What one character becomes. *)
Definition escapeChar (a : ascii) : string :=
  if Ascii.eqb a "&" then "&amp;"
  else if Ascii.eqb a "<" then "&lt;"
  else if Ascii.eqb a ">" then "&gt;"
  else if Ascii.eqb a quote then "&quot;"
  else if Ascii.eqb a "'" then "&#039;"
  else String a EmptyString.

Fixpoint escapeEach (s : string) : string :=
  match s with
  | EmptyString => EmptyString
  | String a rest => escapeChar a +++ escapeEach rest
  end.

(** The characters that open or close markup or an attribute value. *)
Definition markup (a : ascii) : Prop :=
  a = "<"%char \/ a = ">"%char \/ a = quote \/ a = "'"%char.

End EscapeSpec.

Module ImportSpec.
Import Js ExportImportManager.

(** The keys that make a section of [pdt] count. *)
Definition kindKeys : list string :=
  ["display_format"; "ranges"; "capping"; "rounding"].

(** A section that holds something under one of the four keys. *)
Definition usable (section : value) : Prop :=
  exists (o : obj) (key : string),
    section = VObj o /\ In key kindKeys /\ truthy (get o key) = true.

(** A section that can be read, and holds nothing under the four keys. *)
Definition blank (section : value) : Prop :=
  section <> VUndef /\ section <> VNull /\ ~ usable section.

(** The sections up to the first usable one can be read and are blank. *)
Definition reachesUsable (sections : list value) : Prop :=
  exists before section after,
    sections = before ++ section :: after
    /\ Forall blank before /\ usable section.

(** The one error an accepted configuration may carry. *)
Definition versionNote (o : obj) : list string :=
  if (negb (truthy (get o "configFormatVersion"))
      && negb (truthy (get o "config_format_version")))%bool
  then [missingVersion] else [].

Definition importable (config : value) (errors : list string) : Prop :=
  exists (o : obj) (sections : list value),
    config = VObj o
    /\ truthy (get o "variant") = true
    /\ truthy (get o "platform") = true
    /\ get o "pdt" = VArr sections
    /\ reachesUsable sections
    /\ errors = versionNote o.

End ImportSpec.

Module YamlSpec.
Import Js YamlHandler.






End YamlSpec.

(* ================================================================== *)
(** ** Overlap of ranges rules *)
(* ================================================================== *)

Module OverlapFacts.
Import Js Model ValidationManager Spec.

Local Open Scope Z_scope.

Lemma nonEmpty_below (g l : option Z) : nonEmpty g l <-> below g l.
Proof.
  unfold nonEmpty, inInterval, above, upTo, below.
  destruct g as [a|], l as [b|]; split; intros H; try exact I.
  - destruct H as [x [H1 H2]]. lia.
  - exists b. lia.
  - exists (a + 1). lia.
  - exists b. lia.
  - exists 0. tauto.
Qed.

Lemma intersect_below (g1 l1 g2 l2 : option Z) :
  intersect g1 l1 g2 l2 <->
  below g1 l1 /\ below g1 l2 /\ below g2 l1 /\ below g2 l2.
Proof.
  unfold intersect, inInterval, above, upTo, below.
  destruct g1 as [a1|], l1 as [b1|], g2 as [a2|], l2 as [b2|];
    (split; [ intros [x H]; repeat split; try exact I; lia | intros H ]).
  all: try (exists (Z.min b1 b2); lia).
  all: try (exists b1; lia).
  all: try (exists b2; lia).
  all: try (exists (Z.max a1 a2 + 1); lia).
  all: try (exists (a1 + 1); lia).
  all: try (exists (a2 + 1); lia).
  all: try (exists 0; tauto).
Qed.

Ltac split_comparisons :=
  repeat match goal with
         | |- context [(?x =? ?y)%Z] => destruct (Z.eqb_spec x y)
         | |- context [(?x <? ?y)%Z] => destruct (Z.ltb_spec x y)
         end.

Lemma doRangesRulesOverlap_on_bounds (r1 r2 : obj) (a b : RuleBounds) :
  carries r1 a -> carries r2 b ->
  (doRangesRulesOverlap r1 r2 = true <-> overlapOnBounds a b).
Proof.
  intros (A1 & A2 & A3 & A4) (B1 & B2 & B3 & B4).
  unfold doRangesRulesOverlap, overlapOnBounds, unbounded.
  rewrite A1, A2, A3, A4, B1, B2, B3, B4.
  destruct a as [pg1 pl1 mg1 ml1], b as [pg2 pl2 mg2 ml2]; simpl.
  destruct pg1, pl1, pg2, pl2; simpl; split_comparisons; simpl;
    try (split; [ discriminate | intros (? & ? & ?); lia ]);
    destruct mg1, ml1, mg2, ml2; simpl; split_comparisons; simpl;
    (split;
     [ intros E; try discriminate E;
       repeat split; try exact I; try lia;
       first [ left; split; reflexivity
             | right; left; split; reflexivity
             | right; right; split; first [ exact I | lia ] ]
     | intros (P1 & P2 & [[? ?] | [[? ?] | [? ?]]]);
       try reflexivity; try discriminate; try lia ]).
Qed.

End OverlapFacts.

(** C2, as stated, fails on a rule whose PDT bounds are the wrong way
    round: the interval (10, 5] has no point, so it intersects nothing, yet
    [doRangesRulesOverlap] answers [true] against the rule (0, 20]. *)
Lemma C2_inverted_interval_counterexample :
  ~ (ValidationManager.doRangesRulesOverlap
       (Spec.ruleOf Spec.invertedRule) (Spec.ruleOf Spec.wideRule) = true
     <-> Spec.rulesOverlap Spec.invertedRule Spec.wideRule).
Proof.
  intros [H _].
  assert (E : ValidationManager.doRangesRulesOverlap
                (Spec.ruleOf Spec.invertedRule) (Spec.ruleOf Spec.wideRule) = true)
    by reflexivity.
  destruct (H E) as [[x [[H1 H2] _]] _].
  simpl in H1, H2. lia.
Qed.

(** C2 (amended): for two ranges rules whose bounds are integers or null
    and whose own PDT and Mean-Delay intervals are non-empty,
    [doRangesRulesOverlap] returns [true] exactly when the half-open PDT
    intervals (greaterThan, lessThanOrEqualTo] intersect and the Mean-Delay
    intervals intersect, a rule without any Mean-Delay bound overlapping
    every rule in that dimension. *)
Theorem doRangesRulesOverlap_half_open :
  forall (r1 r2 : Js.obj) (a b : Spec.RuleBounds),
    Spec.carries r1 a -> Spec.carries r2 b ->
    Spec.wellFormed a -> Spec.wellFormed b ->
    (ValidationManager.doRangesRulesOverlap r1 r2 = true
     <-> Spec.rulesOverlap a b).
Proof.
  intros r1 r2 a b Ha Hb [Wa1 Wa2] [Wb1 Wb2].
  rewrite (OverlapFacts.doRangesRulesOverlap_on_bounds r1 r2 a b Ha Hb).
  apply OverlapFacts.nonEmpty_below in Wa1, Wa2, Wb1, Wb2.
  unfold Spec.overlapOnBounds, Spec.rulesOverlap.
  rewrite !OverlapFacts.intersect_below.
  tauto.
Qed.

(** The boundary example of the specification: PDT (0, 18] against
    (18, 23], no Mean-Delay bounds. *)
Lemma doRangesRulesOverlap_half_open_witness :
  ValidationManager.doRangesRulesOverlap
    (Spec.ruleOf Spec.ruleA) (Spec.ruleOf Spec.ruleB) = true
  <-> Spec.rulesOverlap Spec.ruleA Spec.ruleB.
Proof.
  apply (doRangesRulesOverlap_half_open
           (Spec.ruleOf Spec.ruleA) (Spec.ruleOf Spec.ruleB)
           Spec.ruleA Spec.ruleB).
  - repeat split; reflexivity.
  - repeat split; reflexivity.
  - split; [ exists 1%Z | exists 0%Z ]; simpl; unfold Spec.inInterval; simpl; lia.
  - split; [ exists 19%Z | exists 0%Z ]; simpl; unfold Spec.inInterval; simpl; lia.
Defined.

(** Adjacent rules: the first ends at 18 where the second starts. *)
Example adjacent_rules_do_not_overlap :
  ValidationManager.doRangesRulesOverlap
    (Spec.ruleOf Spec.ruleA) (Spec.ruleOf Spec.ruleB) = false.
Proof. reflexivity. Qed.

(* ================================================================== *)
(** ** The validator *)
(* ================================================================== *)

Module ValidationFacts.
Import Js Grouping Model ValidationManager.

Lemma fold_pushOverlaps (gs : list GroupView) (i : Issues) :
  overlappingRules
    (fold_left (fun i group => pushOverlaps i (overlapsOfGroup group)) gs i)
  = overlappingRules i ++ flat_map overlapsOfGroup gs.
Proof.
  revert i. induction gs as [|g gs IH]; intros i; simpl.
  - now rewrite app_nil_r.
  - rewrite IH. simpl. now rewrite <- app_assoc.
Qed.

Lemma checkDuplicateDisplayFormats_overlaps (gs : list GroupView) (i : Issues) :
  overlappingRules (checkDuplicateDisplayFormats gs i) = overlappingRules i.
Proof.
  unfold checkDuplicateDisplayFormats.
  destruct (Nat.ltb _ 2); reflexivity.
Qed.

(** The overlap issues of a validation run are those of the groups, in the
    order of the groups. *)
Lemma validate_overlappingRules (gs : list GroupView) :
  overlappingRules (snd (validateConfiguration gs)) = flat_map overlapsOfGroup gs.
Proof.
  unfold validateConfiguration. simpl.
  rewrite fold_pushOverlaps, checkDuplicateDisplayFormats_overlaps.
  reflexivity.
Qed.

Lemma filter_length_le {A : Type} (f : A -> bool) (l : list A) :
  List.length (filter f l) <= List.length l.
Proof.
  induction l as [|x l IH]; simpl; [lia|].
  destruct (f x); simpl; lia.
Qed.

Lemma overlapsOfGroup_capping (g : GroupView) :
  type g = "capping" ->
  1 < List.length (rules g) ->
  overlapsOfGroup g = checkOverlappingCappingRules (id g) (rules g).
Proof.
  intros Ht Hl. unfold overlapsOfGroup, checkOverlappingRules.
  apply Nat.ltb_lt in Hl. rewrite Hl, Ht. reflexivity.
Qed.

Lemma checkOverlappingRangesRules_groupId (gid : string) (rs : list obj) :
  forall i, In i (checkOverlappingRangesRules gid rs) -> issueGroupId i = gid.
Proof.
  intros i Hi. unfold checkOverlappingRangesRules in Hi.
  apply in_flat_map in Hi. destruct Hi as ([[a ra] [b rb]] & _ & Hi).
  destruct (doRangesRulesOverlap ra rb); simpl in Hi; [|tauto].
  destruct Hi as [<- | []]. reflexivity.
Qed.

Lemma checkOverlappingCappingRules_groupId (gid : string) (rs : list obj) :
  forall i, In i (checkOverlappingCappingRules gid rs) -> issueGroupId i = gid.
Proof.
  intros i Hi. unfold checkOverlappingCappingRules in Hi.
  apply in_app_or in Hi.
  destruct Hi as [Hi | Hi];
    match type of Hi with
    | In _ (if ?c then _ else _) => destruct c
    end; simpl in Hi; try tauto;
    destruct Hi as [<- | []]; reflexivity.
Qed.

(** Every overlap issue names the group it was found in. *)
Lemma overlapsOfGroup_groupId (g : GroupView) :
  forall i, In i (overlapsOfGroup g) -> issueGroupId i = id g.
Proof.
  intros i Hi. unfold overlapsOfGroup, checkOverlappingRules in Hi.
  destruct (Nat.ltb 1 (List.length (rules g))); [|destruct Hi].
  destruct (type g =? "ranges").
  - now apply checkOverlappingRangesRules_groupId in Hi.
  - destruct (type g =? "capping"); [|destruct Hi].
    now apply checkOverlappingCappingRules_groupId in Hi.
Qed.

Lemma same_id_same_group (gs : list GroupView) (g g' : GroupView) :
  NoDup (map id gs) -> In g gs -> In g' gs -> id g' = id g -> g' = g.
Proof.
  induction gs as [|x gs IH]; simpl; intros Hnd Hg Hg' E; [tauto|].
  inversion Hnd as [|? ? Hx Hnd']; subst.
  destruct Hg as [-> | Hg], Hg' as [-> | Hg']; auto.
  - exfalso. apply Hx. rewrite <- E. now apply in_map.
  - exfalso. apply Hx. rewrite E. now apply in_map.
Qed.

End ValidationFacts.

(** C6: in every configuration, a capping group with more than one rule of
    type 'single' gets an overlapping-rules issue whose message starts with
    "Multiple 'single' rules"; independently, more than one rule of type
    'ranges' gets one too; and a capping group with exactly one rule of
    each type gets no overlapping-rules issue (groups having distinct
    ids). *)
Theorem capping_cardinality :
  forall (allGroups : list Model.GroupView) (g : Model.GroupView),
    In g allGroups ->
    Model.type g = "capping" ->
    let issues :=
      ValidationManager.overlappingRules
        (snd (ValidationManager.validateConfiguration allGroups)) in
    let singles :=
      List.length (filter (ValidationManager.hasType "single") (Model.rules g)) in
    let ranges :=
      List.length (filter (ValidationManager.hasType "ranges") (Model.rules g)) in
    (1 < singles ->
     In (ValidationManager.RuleIndices (Model.id g)
           (ValidationManager.indicesOfType "single" (Model.rules g))
           "Multiple 'single' rules found. Only one is allowed.") issues)
    /\ (1 < ranges ->
        In (ValidationManager.RuleIndices (Model.id g)
              (ValidationManager.indicesOfType "ranges" (Model.rules g))
              "Multiple 'ranges' rules found. Only one is allowed.") issues)
    /\ (singles = 1 -> ranges = 1 ->
        NoDup (map Model.id allGroups) ->
        forall i, In i issues -> ValidationManager.issueGroupId i <> Model.id g).
Proof.
  intros allGroups g Hin Hty issues singles ranges.
  unfold issues. rewrite ValidationFacts.validate_overlappingRules.
  repeat split.
  - intros H. apply in_flat_map. exists g. split; [exact Hin|].
    rewrite ValidationFacts.overlapsOfGroup_capping; trivial.
    + unfold ValidationManager.checkOverlappingCappingRules.
      apply in_or_app. left.
      fold singles. apply Nat.ltb_lt in H. rewrite H. now left.
    + pose proof (ValidationFacts.filter_length_le
                    (ValidationManager.hasType "single") (Model.rules g)).
      unfold singles in H. lia.
  - intros H. apply in_flat_map. exists g. split; [exact Hin|].
    rewrite ValidationFacts.overlapsOfGroup_capping; trivial.
    + unfold ValidationManager.checkOverlappingCappingRules.
      apply in_or_app. right.
      fold ranges. apply Nat.ltb_lt in H. rewrite H. now left.
    + pose proof (ValidationFacts.filter_length_le
                    (ValidationManager.hasType "ranges") (Model.rules g)).
      unfold ranges in H. lia.
  - intros Hs Hr Hnd i Hi E.
    apply in_flat_map in Hi. destruct Hi as (g' & Hg' & Hi).
    pose proof (ValidationFacts.overlapsOfGroup_groupId g' i Hi) as E'.
    rewrite E in E'. symmetry in E'.
    apply (ValidationFacts.same_id_same_group allGroups g g' Hnd Hin Hg') in E'.
    subst g'.
    unfold ValidationManager.overlapsOfGroup,
           ValidationManager.checkOverlappingRules in Hi.
    rewrite Hty in Hi. simpl in Hi.
    unfold ValidationManager.checkOverlappingCappingRules in Hi.
    fold singles in Hi. fold ranges in Hi. rewrite Hs, Hr in Hi.
    destruct (Nat.ltb 1 (List.length (Model.rules g))); destruct Hi.
Qed.

(** The specification's capping example with one rule of each type: none
    of the issues of the run names the group. *)
Lemma capping_cardinality_witness :
  Forall (fun i => ValidationManager.issueGroupId i <> Model.id Spec.oneOfEachGroup)
         (ValidationManager.overlappingRules
            (snd (ValidationManager.validateConfiguration [Spec.oneOfEachGroup]))).
Proof.
  apply Forall_forall.
  apply (capping_cardinality [Spec.oneOfEachGroup] Spec.oneOfEachGroup).
  - simpl. now left.
  - reflexivity.
  - reflexivity.
  - reflexivity.
  - simpl. constructor; [ intros [] | constructor ].
Defined.

(** C7 fails on the code: [checkDuplicateDisplayFormats] returns before the
    per-group check when fewer than two display-format groups exist, so a
    lone group with two format rules raises no issue; next to a second
    display-format group the same group is reported. *)
Theorem lone_display_format_group_is_not_flagged :
  List.length (Model.rules Spec.twoFormatsGroup) = 2
  /\ ValidationManager.requiredFields
       (snd (ValidationManager.validateConfiguration [Spec.twoFormatsGroup])) = []
  /\ map ValidationManager.fieldGroupId
         (ValidationManager.requiredFields
            (snd (ValidationManager.validateConfiguration
                    [Spec.twoFormatsGroup; Spec.minuteGroup])))
     = [Model.id Spec.twoFormatsGroup].
Proof. repeat split. Qed.

(** C4 fails on the code: [validateConfiguration] also runs the generic
    [checkDuplicateGroups] over display-format groups, which compares the
    common parameters only; two display-format groups with identical
    common parameters and no format in common are reported as
    duplicates. *)
Theorem display_format_groups_without_shared_format_are_flagged :
  ValidationManager.duplicateFormats Spec.minuteRangeGroup Spec.minuteGroup = []
  /\ map (fun d => (ValidationManager.group1 d, ValidationManager.group2 d))
         (ValidationManager.duplicateGroups
            (snd (ValidationManager.validateConfiguration
                    [Spec.minuteRangeGroup; Spec.minuteGroup])))
     = [ (Model.id Spec.minuteRangeGroup, Model.id Spec.minuteGroup) ]
  /\ ValidationManager.duplicateGroups
       (ValidationManager.checkDuplicateDisplayFormats
          [Spec.minuteRangeGroup; Spec.minuteGroup] ValidationManager.noIssues)
     = [].
Proof. repeat split. Qed.

(* ================================================================== *)
(** ** The grouping key *)
(* ================================================================== *)

Module KeyFacts.
Import Js Grouping Model ConfigManager Spec.








End KeyFacts.




(* ================================================================== *)
(** ** The mutators of ConfigManager *)
(* ================================================================== *)

Module StoreFacts.
Import Js Grouping Model ConfigManager Spec.

Lemma existsb_filter {A : Type} (f : A -> bool) (l : list A) :
  existsb f l = match filter f l with [] => false | _ :: _ => true end.
Proof.
  induction l as [|x l IH]; simpl; [reflexivity|].
  destruct (f x); simpl; auto.
Qed.

Lemma sectionsOfGroups_kinds (gs : list GroupView) :
  map getSectionType (sectionsOfGroups gs)
  = filter (hasGroupOfKind gs) sectionKinds.
Proof.
  unfold sectionKinds. cbn [filter]. unfold hasGroupOfKind.
  rewrite !existsb_filter.
  unfold sectionsOfGroups, ofType.
  destruct (filter (fun g => type g =? "display-format") gs);
    destruct (filter (fun g => type g =? "ranges") gs);
    destruct (filter (fun g => type g =? "capping") gs);
    destruct (filter (fun g => type g =? "rounding") gs);
    reflexivity.
Qed.

Lemma sectionsOfGroups_singleKeyed (gs : list GroupView) :
  Forall singleKeyed (sectionsOfGroups gs).
Proof.
  unfold sectionsOfGroups.
  apply Forall_app; split; [|apply Forall_app; split; [|apply Forall_app; split]].
  all: match goal with
       | |- Forall _ (match ?l with _ => _ end) => destruct l
       end.
  all: repeat constructor.
Qed.

Lemma allGroups_updateConfigFromGroups (cm : t) :
  allGroups (updateConfigFromGroups cm) = allGroups cm.
Proof. reflexivity. Qed.

Lemma updateConfigFromGroups_reflects (cm : t) :
  pdtReflectsGroups (updateConfigFromGroups cm).
Proof.
  split.
  - rewrite allGroups_updateConfigFromGroups. simpl.
    apply sectionsOfGroups_kinds.
  - simpl. apply sectionsOfGroups_singleKeyed.
Qed.

Lemma saveConfig_reflects (cm : t) :
  pdtReflectsGroups cm -> pdtReflectsGroups (saveConfig cm).
Proof. intros H. exact H. Qed.

End StoreFacts.



(** C10: after every successful mutation, [config.pdt] holds one section
    for each kind that has a group and none for the others, each under its
    own key, in the order display_format, ranges, capping, rounding,
    whatever [config.pdt] was before. *)
Theorem successful_mutation_orders_sections :
  forall cm : ConfigManager.t,
    (forall sectionType templateGroup,
        Spec.pdtReflectsGroups
          (snd (ConfigManager.addGroup cm sectionType templateGroup)))
    /\ (forall groupId,
          fst (ConfigManager.cloneGroup cm groupId) <> Js.VNull ->
          Spec.pdtReflectsGroups (snd (ConfigManager.cloneGroup cm groupId)))
    /\ (forall sectionType groupId,
          fst (ConfigManager.deleteGroup cm sectionType groupId) = Js.VBool true ->
          Spec.pdtReflectsGroups
            (snd (ConfigManager.deleteGroup cm sectionType groupId)))
    /\ (forall groupId paramName v,
          fst (ConfigManager.updateGroupCommonParam cm groupId paramName v)
          = Js.VBool true ->
          Spec.pdtReflectsGroups
            (snd (ConfigManager.updateGroupCommonParam cm groupId paramName v)))
    /\ (forall groupId format,
          fst (ConfigManager.addRule cm groupId format) = Js.VBool true ->
          Spec.pdtReflectsGroups (snd (ConfigManager.addRule cm groupId format)))
    /\ (forall groupId ruleIndex fieldName v,
          fst (ConfigManager.updateRule cm groupId ruleIndex fieldName v)
          = Js.VBool true ->
          Spec.pdtReflectsGroups
            (snd (ConfigManager.updateRule cm groupId ruleIndex fieldName v)))
    /\ (forall groupId ruleIndex,
          fst (ConfigManager.deleteRule cm groupId ruleIndex) = Js.VBool true ->
          Spec.pdtReflectsGroups
            (snd (ConfigManager.deleteRule cm groupId ruleIndex)))
    /\ (forall groupId newTitle,
          fst (ConfigManager.updateGroupTitle cm groupId newTitle) = Js.VBool true ->
          Spec.pdtReflectsGroups
            (snd (ConfigManager.updateGroupTitle cm groupId newTitle))).
Proof.
  intros cm. repeat split.
  all: intros.
  all: try apply StoreFacts.updateConfigFromGroups_reflects.
  all: match goal with
       | H : fst ?call <> _ |- _ =>
           unfold ConfigManager.cloneGroup in *;
           destruct (ConfigManager.getGroup _ _);
           [ apply StoreFacts.updateConfigFromGroups_reflects
           | exfalso; apply H; reflexivity ]
       | H : fst _ = Js.VBool true |- _ =>
           unfold ConfigManager.deleteGroup, ConfigManager.updateGroupCommonParam,
                  ConfigManager.addRule, ConfigManager.updateRule,
                  ConfigManager.deleteRule, ConfigManager.updateGroupTitle in *;
           destruct (ConfigManager.getGroup _ _); try discriminate H;
           try (destruct (ConfigManager.ruleAt _ _); try discriminate H);
           first [ apply StoreFacts.updateConfigFromGroups_reflects
                 | apply StoreFacts.saveConfig_reflects,
                         StoreFacts.updateConfigFromGroups_reflects ]
       end.
Qed.

(** Adding a capping group to a store whose [pdt] held a rounding section
    before a ranges section. *)
Lemma successful_mutation_orders_sections_witness :
  Spec.pdtReflectsGroups
    (snd (ConfigManager.addGroup Spec.reversedStore "capping" None))
  /\ Spec.pdtReflectsGroups
       (snd (ConfigManager.deleteRule Spec.oneRangesGroupStore "ranges-0" 0)).
Proof.
  split.
  - apply (successful_mutation_orders_sections Spec.reversedStore).
  - apply (successful_mutation_orders_sections Spec.oneRangesGroupStore).
    reflexivity.
Defined.

(* ================================================================== *)
(** ** Grouping tables *)
(* ================================================================== *)

Module GroupingFacts.
Import Grouping.

Section GroupBy.

Context {A : Type}.
Variable key : A -> string.

Lemma push_new (k : string) (x : A) (gs : list (string * list A)) :
  ~ In k (keysOf gs) -> push k x gs = gs ++ [(k, [x])].
Proof.
  induction gs as [|[k' xs] gs IH]; simpl; intros H; [reflexivity|].
  destruct (String.eqb_spec k k') as [->|N].
  - exfalso. apply H. now left.
  - rewrite IH; [reflexivity|]. tauto.
Qed.

Lemma push_last (k : string) (x : A) (gs : list (string * list A)) (xs : list A) :
  ~ In k (keysOf gs) -> push k x (gs ++ [(k, xs)]) = gs ++ [(k, xs ++ [x])].
Proof.
  induction gs as [|[k' ys] gs IH]; simpl; intros H.
  - now rewrite String.eqb_refl.
  - destruct (String.eqb_spec k k') as [->|N].
    + exfalso. apply H. now left.
    + rewrite IH; [reflexivity|]. tauto.
Qed.

Lemma fold_same_key (k : string) (xs ys : list A) (gs : list (string * list A)) :
  ~ In k (keysOf gs) ->
  Forall (fun x => key x = k) xs ->
  fold_left (step key) xs (gs ++ [(k, ys)]) = gs ++ [(k, ys ++ xs)].
Proof.
  intros Hk. revert ys. induction xs as [|x xs IH]; intros ys H; simpl.
  - now rewrite app_nil_r.
  - apply Forall_cons_iff in H. destruct H as [Hx Hxs].
    unfold step at 2. rewrite Hx, push_last by exact Hk.
    rewrite IH by exact Hxs. now rewrite <- app_assoc.
Qed.

Lemma fold_block (g : string * list A) (gs : list (string * list A)) :
  block key g -> ~ In (fst g) (keysOf gs) ->
  fold_left (step key) (snd g) gs = gs ++ [g].
Proof.
  destruct g as [k xs]. intros [Hne Hall] Hk. simpl in *.
  destruct xs as [|x xs]; [congruence|].
  apply Forall_cons_iff in Hall. destruct Hall as [Hx Hxs]. simpl.
  unfold step at 2. rewrite Hx, push_new by exact Hk.
  now rewrite fold_same_key.
Qed.

Lemma fold_blocks (bs gs : list (string * list A)) :
  Forall (block key) bs -> NoDup (keysOf gs ++ keysOf bs) ->
  fold_left (step key) (flat_map snd bs) gs = gs ++ bs.
Proof.
  revert gs. induction bs as [|b bs IH]; intros gs Hb Hnd; simpl.
  - now rewrite app_nil_r.
  - inversion Hb as [|? ? Hb1 Hb2]; subst.
    rewrite fold_left_app.
    assert (Hk : ~ In (fst b) (keysOf gs)).
    { simpl in Hnd. apply NoDup_remove_2 in Hnd.
      intros Hin. apply Hnd. apply in_or_app. now left. }
    rewrite fold_block by assumption.
    rewrite IH; [now rewrite <- app_assoc | exact Hb2 |].
    unfold keysOf in *. rewrite map_app. simpl.
    rewrite <- app_assoc. exact Hnd.
Qed.

(** Grouping the concatenation of a table's groups gives the table back. *)
Lemma groupBy_blocks (bs : list (string * list A)) :
  table key bs -> groupBy key (flat_map snd bs) = bs.
Proof.
  intros [Hnd Hb]. unfold groupBy.
  change (fold_left (step key) (flat_map snd bs) [] = bs).
  now rewrite fold_blocks.
Qed.

Lemma push_keys (k : string) (x : A) (gs : list (string * list A)) :
  keysOf (push k x gs) = if existsb (String.eqb k) (keysOf gs)
                         then keysOf gs else keysOf gs ++ [k].
Proof.
  induction gs as [|[k' xs] gs IH]; simpl; [reflexivity|].
  destruct (String.eqb_spec k k') as [->|N]; simpl; [reflexivity|].
  rewrite IH. destruct (existsb _ _); reflexivity.
Qed.

Lemma push_table (x : A) (gs : list (string * list A)) :
  table key gs -> table key (push (key x) x gs).
Proof.
  intros [Hnd Hb]. split.
  - rewrite push_keys.
    destruct (existsb (String.eqb (key x)) (keysOf gs)) eqn:E; [exact Hnd|].
    apply NoDup_app_remove_l with (l := []). simpl.
    rewrite <- (rev_involutive (keysOf gs ++ [key x])).
    apply NoDup_rev. rewrite rev_app_distr. simpl. constructor.
    + rewrite <- in_rev. intros Hin.
      assert (existsb (String.eqb (key x)) (keysOf gs) = true).
      { apply existsb_exists. exists (key x). split; [exact Hin|].
        apply String.eqb_refl. }
      congruence.
    + now apply NoDup_rev.
  - clear Hnd. induction gs as [|[k' xs] gs IH]; simpl.
    + repeat constructor; simpl; congruence.
    + inversion Hb as [|? ? [H1 H2] Hb']; subst. simpl in *.
      destruct (String.eqb_spec (key x) k') as [E|N].
      * constructor; [|exact Hb']. split; simpl.
        -- destruct xs; discriminate.
        -- apply Forall_app. split; [exact H2|]. now repeat constructor.
      * constructor; [now split|]. now apply IH.
Qed.

Lemma fold_table (l : list A) (gs : list (string * list A)) :
  table key gs -> table key (fold_left (step key) l gs).
Proof.
  revert gs. induction l as [|x l IH]; intros gs H; simpl; [exact H|].
  apply IH. now apply push_table.
Qed.

Lemma groupBy_table (l : list A) : table key (groupBy key l).
Proof.
  apply fold_table. split; constructor.
Qed.

(** The groups hold entries of the list that was grouped. *)
Lemma push_members (P : A -> Prop) (x : A) (gs : list (string * list A)) :
  P x -> Forall (fun g => Forall P (snd g)) gs ->
  Forall (fun g => Forall P (snd g)) (push (key x) x gs).
Proof.
  intros Hx. induction gs as [|[k' xs] gs IH]; simpl; intros H.
  - now repeat constructor.
  - inversion H as [|? ? H1 H2]; subst. simpl in *.
    destruct (String.eqb (key x) k').
    + constructor; [|exact H2]. simpl. apply Forall_app. split; auto.
    + constructor; auto.
Qed.

Lemma groupBy_members (P : A -> Prop) (l : list A) :
  Forall P l -> Forall (fun g => Forall P (snd g)) (groupBy key l).
Proof.
  unfold groupBy.
  assert (G : forall gs, Forall P l ->
                         Forall (fun g => Forall P (snd g)) gs ->
                         Forall (fun g => Forall P (snd g))
                                (fold_left (fun gs x => push (key x) x gs) l gs)).
  { induction l as [|x l IH]; intros gs Hl Hgs; simpl; [exact Hgs|].
    inversion Hl; subst. apply IH; [assumption|]. now apply push_members. }
  intros H. apply G; [exact H | constructor].
Qed.

Lemma fold_nonempty (l : list A) (gs : list (string * list A)) :
  gs <> [] -> fold_left (step key) l gs <> [].
Proof.
  revert gs. induction l as [|x l IH]; intros gs H; simpl; [exact H|].
  apply IH. unfold step. destruct gs as [|[k xs] gs]; simpl; [discriminate|].
  destruct (String.eqb (key x) k); discriminate.
Qed.

Lemma groupBy_nonempty (l : list A) : l <> [] -> groupBy key l <> [].
Proof.
  destruct l as [|x l]; [congruence|]. intros _.
  unfold groupBy. simpl. apply (fold_nonempty l). discriminate.
Qed.

End GroupBy.

(** Regrouping what a pass made of each group: when every group gives a
    non-empty list of entries that still carry the group's key, the second
    table has the same keys, and under each key what the pass made of the
    group. *)
Lemma regroup {A : Type} (key : A -> string)
      (F : string * list A -> list A) (gs : list (string * list A)) :
  NoDup (keysOf gs) ->
  Forall (fun g => F g <> [] /\ Forall (fun x => key x = fst g) (F g)) gs ->
  groupBy key (flat_map F gs) = map (fun g => (fst g, F g)) gs.
Proof.
  intros Hnd HF.
  rewrite <- (groupBy_blocks key (map (fun g => (fst g, F g)) gs)).
  - f_equal. rewrite flat_map_concat_map, flat_map_concat_map, map_map.
    reflexivity.
  - split.
    + unfold keysOf. rewrite map_map. simpl. exact Hnd.
    + apply Forall_map. eapply Forall_impl; [|exact HF].
      intros g [H1 H2]. split; assumption.
Qed.

End GroupingFacts.

(* ================================================================== *)
(** ** The import merge *)
(* ================================================================== *)

Module MergeFacts.
Import Js Grouping Model ExportImportManager GroupingFacts MergeSpec.

Lemma setTitle_same (e : Entry.t) : Entry.setTitle e (Entry._title e) = e.
Proof. destruct e; reflexivity. Qed.

Lemma or_else_truthy (a b : value) : truthy a = true -> or_else a b = a.
Proof. unfold or_else. now intros ->. Qed.

Lemma truthy_or_else (a : value) (s : string) :
  s <> "" -> truthy (or_else a (VStr s)) = true.
Proof.
  intros H. unfold or_else. destruct (truthy a) eqn:E; [exact E|].
  simpl. destruct s; [congruence | reflexivity].
Qed.

Lemma append_nonempty_l (a b : string) : a <> "" -> a +++ b <> "".
Proof. destruct a; [congruence | discriminate]. Qed.

Lemma append_nonempty_r (a b : string) : b <> "" -> a +++ b <> "".
Proof. destruct a; simpl; [tauto | discriminate]. Qed.

Lemma retitle_from (text : nat -> Entry.t -> string) (n : nat) (l : list Entry.t) :
  map (fun p : nat * Entry.t =>
         let (index, entry) := p in
         Entry.setTitle entry
           (or_else (Entry._title entry) (VStr (text index entry))))
      (combine (seq n (List.length l)) l)
  = map (fun p : nat * Entry.t =>
           Entry.setTitle (snd p)
             (or_else (Entry._title (snd p)) (VStr (text (fst p) (snd p)))))
        (combine (seq n (List.length l)) l).
Proof. apply map_ext. now intros [i e]. Qed.

Lemma retitle_titled_from (text : nat -> Entry.t -> string) (n : nat)
      (l : list Entry.t) :
  Forall titled l ->
  map (fun p : nat * Entry.t =>
         let (index, entry) := p in
         Entry.setTitle entry
           (or_else (Entry._title entry) (VStr (text index entry))))
      (combine (seq n (List.length l)) l) = l.
Proof.
  revert n. induction l as [|e l IH]; intros n H; simpl; [reflexivity|].
  apply Forall_cons_iff in H. destruct H as [He Hl].
  rewrite IH by exact Hl.
  rewrite or_else_truthy by exact He. now rewrite setTitle_same.
Qed.

(** Entries that have a title keep it. *)
Lemma retitle_titled (text : nat -> Entry.t -> string) (l : list Entry.t) :
  Forall titled l -> retitle text l = l.
Proof. apply retitle_titled_from. Qed.

Lemma retitle_length (text : nat -> Entry.t -> string) (l : list Entry.t) :
  List.length (retitle text l) = List.length l.
Proof.
  unfold retitle, indexed.
  rewrite length_map, length_combine, length_seq. lia.
Qed.

Lemma retitle_nonempty (text : nat -> Entry.t -> string) (l : list Entry.t) :
  l <> [] -> retitle text l <> [].
Proof.
  intros H E. apply H. apply length_zero_iff_nil.
  rewrite <- (retitle_length text), E. reflexivity.
Qed.

(** What a retitled list is made of. *)
Lemma retitle_elements (text : nat -> Entry.t -> string) (l : list Entry.t) :
  Forall (fun e' => exists e i, In e l /\
                     e' = Entry.setTitle e
                            (or_else (Entry._title e) (VStr (text i e))))
         (retitle text l).
Proof.
  unfold retitle, indexed. apply Forall_forall. intros e' H.
  apply in_map_iff in H. destruct H as ([i e] & <- & H).
  exists e, i. split; [|reflexivity]. now apply in_combine_r in H.
Qed.

(** *** Display format *)

Lemma mergedDisplayFormat_idem (e : Entry.t) :
  mergedDisplayFormat (mergedDisplayFormat e) = mergedDisplayFormat e.
Proof.
  unfold mergedDisplayFormat. simpl.
  rewrite or_else_truthy; [reflexivity|].
  apply truthy_or_else. discriminate.
Qed.

Lemma mergedDisplayFormat_key (ks : list string) (e : Entry.t) :
  noDeliveryOption e ->
  generateEntryKey (mergedDisplayFormat e) ks = generateEntryKey e ks.
Proof.
  unfold noDeliveryOption, generateEntryKey. intros H. simpl. now rewrite H.
Qed.

Lemma flat_map_nonempty {A B : Type} (F : A -> list B) (l : list A) :
  l <> [] -> (forall x, In x l -> F x <> []) -> flat_map F l <> [].
Proof.
  destruct l as [|x l]; [congruence|]. intros _ H. simpl.
  specialize (H x (or_introl eq_refl)).
  destruct (F x); [congruence | discriminate].
Qed.

Lemma mergeDisplayFormat_idem (ks : list string) (es : list Entry.t) :
  Forall noDeliveryOption es ->
  let merged := mergeEntriesByCommonParams es "display_format" ks in
  mergeEntriesByCommonParams merged "display_format" ks = merged.
Proof.
  intros Hes. unfold mergeEntriesByCommonParams. simpl.
  set (key := fun entry => generateEntryKey entry ks).
  set (F := fun g : string * list Entry.t => map mergedDisplayFormat (snd g)).
  assert (T := groupBy_table key es).
  assert (Mb := groupBy_members key noDeliveryOption es Hes).
  destruct T as [Hnd Hb].
  rewrite (regroup key F (groupBy key es) Hnd).
  - rewrite flat_map_concat_map, map_map, <- flat_map_concat_map.
    apply flat_map_ext. intros g. unfold F. simpl.
    rewrite map_map. apply map_ext. intros e. apply mergedDisplayFormat_idem.
  - rewrite Forall_forall in *. intros g Hg.
    destruct (Hb g Hg) as [Hne Hk]. specialize (Mb g Hg). split.
    + unfold F. destruct (snd g); [congruence | discriminate].
    + unfold F. apply Forall_map. rewrite Forall_forall in *.
      intros e He. unfold key. rewrite mergedDisplayFormat_key; auto.
      apply (Hk e He).
Qed.

Lemma mergeDisplayFormat_nonempty (ks : list string) (es : list Entry.t) :
  es <> [] -> mergeEntriesByCommonParams es "display_format" ks <> [].
Proof.
  intros H. unfold mergeEntriesByCommonParams. simpl.
  apply flat_map_nonempty.
  - now apply groupBy_nonempty.
  - intros g Hg. destruct (groupBy_table (fun e => generateEntryKey e ks) es) as [_ Hb].
    rewrite Forall_forall in Hb. destruct (Hb g Hg) as [Hne _].
    destruct (snd g); [congruence | discriminate].
Qed.

(** *** Capping *)

Lemma generateEntryKey_setTitle (ks : list string) (e : Entry.t) (v : value) :
  generateEntryKey (Entry.setTitle e v) ks = generateEntryKey e ks.
Proof. reflexivity. Qed.

Lemma titledCappingGroup_retitle (type : string) (g : string * list Entry.t) :
  titledCappingGroup type g = retitle (cappingText type) (snd g).
Proof. destruct g. reflexivity. Qed.

Lemma cappingText_nonempty (type : string) (i : nat) (e : Entry.t) :
  cappingText type i e <> "".
Proof.
  unfold cappingText. apply append_nonempty_r. discriminate.
Qed.

(** A retitled list: entries of the list, each under a title. *)
Lemma retitle_titled_out (text : nat -> Entry.t -> string) (l : list Entry.t) :
  (forall i e, text i e <> "") -> Forall titled (retitle text l).
Proof.
  intros H. eapply Forall_impl; [|apply retitle_elements].
  intros e' (e & i & _ & ->). unfold titled. simpl.
  now apply truthy_or_else.
Qed.

Lemma retitle_keeps (key : Entry.t -> string) (text : nat -> Entry.t -> string)
      (k : string) (l : list Entry.t) :
  (forall e v, key (Entry.setTitle e v) = key e) ->
  Forall (fun e => key e = k) l ->
  Forall (fun e => key e = k) (retitle text l).
Proof.
  intros Hkey Hl. eapply Forall_impl; [|apply retitle_elements].
  intros e' (e & i & He & ->). rewrite Hkey.
  rewrite Forall_forall in Hl. now apply Hl.
Qed.

Lemma mergeCapping_idem (ks : list string) (es : list Entry.t) :
  let merged := mergeEntriesByCommonParams es "capping" ks in
  mergeEntriesByCommonParams merged "capping" ks = merged.
Proof.
  unfold mergeEntriesByCommonParams. simpl.
  set (key := fun entry => generateEntryKey entry ks).
  set (F := titledCappingGroup "capping").
  destruct (groupBy_table key es) as [Hnd Hb].
  rewrite (regroup key F (groupBy key es) Hnd).
  - rewrite flat_map_concat_map, map_map, <- flat_map_concat_map.
    apply flat_map_ext. intros g. unfold F.
    rewrite (titledCappingGroup_retitle "capping" (fst g, _)). simpl.
    apply retitle_titled.
    rewrite titledCappingGroup_retitle.
    apply retitle_titled_out, cappingText_nonempty.
  - rewrite Forall_forall in *. intros g Hg.
    destruct (Hb g Hg) as [Hne Hk]. unfold F.
    rewrite titledCappingGroup_retitle. split.
    + now apply retitle_nonempty.
    + apply retitle_keeps; [|exact Hk]. intros e v. reflexivity.
Qed.

Lemma mergeCapping_nonempty (ks : list string) (es : list Entry.t) :
  es <> [] -> mergeEntriesByCommonParams es "capping" ks <> [].
Proof.
  intros H. unfold mergeEntriesByCommonParams. simpl.
  apply flat_map_nonempty.
  - now apply groupBy_nonempty.
  - intros g Hg.
    destruct (groupBy_table (fun e => generateEntryKey e ks) es) as [_ Hb].
    rewrite Forall_forall in Hb. destruct (Hb g Hg) as [Hne _].
    rewrite titledCappingGroup_retitle. now apply retitle_nonempty.
Qed.

Lemma kept_keys (key : Entry.t -> string) (k : string) (src out : list Entry.t) :
  keyIgnoresTitle key ->
  Forall (fun e => key e = k) src -> kept src out ->
  Forall (fun e => key e = k) out.
Proof.
  intros Hkey Hsrc (_ & _ & H).
  eapply Forall_impl; [|exact H].
  intros e' (e & v & He & ->). rewrite Hkey.
  rewrite Forall_forall in Hsrc. now apply Hsrc.
Qed.

Lemma kept_retitle (text : nat -> Entry.t -> string) (l : list Entry.t) :
  l <> [] -> (forall i e, text i e <> "") -> kept l (retitle text l).
Proof.
  intros Hl Ht. repeat split.
  - now apply retitle_nonempty.
  - now apply retitle_titled_out.
  - eapply Forall_impl; [|apply retitle_elements].
    intros e' (e & i & He & ->). eauto.
Qed.

Section Nest.

Variable key : Entry.t -> string.
Hypothesis key_ignores_title : keyIgnoresTitle key.

(** One level of grouping: what the groups of [l] give is kept from [l]. *)
Lemma nest_kept (F : string * list Entry.t -> list Entry.t) (l : list Entry.t) :
  l <> [] ->
  (forall g, In g (groupBy key l) -> kept (snd g) (F g)) ->
  kept l (flat_map F (groupBy key l)).
Proof.
  intros Hl HF.
  pose proof (groupBy_members key (fun x => In x l) l) as Hm.
  assert (Hin : Forall (fun x => In x l) l) by (apply Forall_forall; auto).
  specialize (Hm Hin). rewrite Forall_forall in Hm.
  repeat split.
  - apply flat_map_nonempty; [now apply groupBy_nonempty|].
    intros g Hg. now destruct (HF g Hg).
  - apply Forall_forall. intros e' He'. apply in_flat_map in He'.
    destruct He' as (g & Hg & He').
    destruct (HF g Hg) as (_ & Ht & _). rewrite Forall_forall in Ht. auto.
  - apply Forall_forall. intros e' He'. apply in_flat_map in He'.
    destruct He' as (g & Hg & He').
    destruct (HF g Hg) as (_ & _ & Hs). rewrite Forall_forall in Hs.
    destruct (Hs e' He') as (e & v & He & ->).
    exists e, v. split; [|reflexivity].
    specialize (Hm g Hg). rewrite Forall_forall in Hm. auto.
Qed.

(** The second pass over one level: the table of the first pass comes
    back, and a pass [F'] that leaves the first pass's groups alone leaves
    the whole alone. *)
Lemma nest_idem (F F' : string * list Entry.t -> list Entry.t) (l : list Entry.t) :
  (forall g, In g (groupBy key l) -> kept (snd g) (F g)) ->
  (forall g, In g (groupBy key l) -> F' (fst g, F g) = F g) ->
  flat_map F' (groupBy key (flat_map F (groupBy key l)))
  = flat_map F (groupBy key l).
Proof.
  intros HF HF'.
  destruct (groupBy_table key l) as [Hnd Hb].
  rewrite (regroup key F (groupBy key l) Hnd).
  - rewrite flat_map_concat_map, map_map, <- flat_map_concat_map.
    rewrite !flat_map_concat_map. f_equal.
    apply map_ext_in. intros g Hg. now apply HF'.
  - rewrite Forall_forall in *. intros g Hg.
    destruct (Hb g Hg) as [_ Hk]. split.
    + now destruct (HF g Hg).
    + apply (kept_keys key (fst g) (snd g)); auto.
Qed.

End Nest.

(** *** Ranges *)

Lemma titledMeanDelayGroup_retitle (baseTitle : string) (groupCount : nat)
      (g : string * list Entry.t) :
  titledMeanDelayGroup baseTitle groupCount g
  = retitle (meanDelayText baseTitle groupCount (fst g) (snd g)) (snd g).
Proof. destruct g. reflexivity. Qed.

Lemma meanDelayText_nonempty (baseTitle : string) (groupCount : nat)
      (mdKey : string) (es : list Entry.t) (i : nat) (e : Entry.t) :
  baseTitle <> "" -> meanDelayText baseTitle groupCount mdKey es i e <> "".
Proof.
  intros H. unfold meanDelayText.
  destruct (Nat.ltb 1 (List.length es));
    destruct (Nat.ltb 1 groupCount && negb (mdKey =? "default"))%bool;
    repeat apply append_nonempty_l; exact H.
Qed.

Lemma titledMeanDelayGroup_kept (baseTitle : string) (groupCount : nat)
      (g : string * list Entry.t) :
  baseTitle <> "" -> snd g <> [] ->
  kept (snd g) (titledMeanDelayGroup baseTitle groupCount g).
Proof.
  intros Hb Hg. rewrite titledMeanDelayGroup_retitle.
  apply kept_retitle; [exact Hg|].
  intros i e. now apply meanDelayText_nonempty.
Qed.

Lemma titledMeanDelayGroup_titled (baseTitle : string) (groupCount : nat)
      (k : string) (l : list Entry.t) :
  Forall titled l -> titledMeanDelayGroup baseTitle groupCount (k, l) = l.
Proof.
  intros H. rewrite titledMeanDelayGroup_retitle. now apply retitle_titled.
Qed.

Lemma meanDelayKey_ignores_title : keyIgnoresTitle meanDelayKey.
Proof. intros e v. reflexivity. Qed.

Lemma pdtBoundsKey_ignores_title : keyIgnoresTitle pdtBoundsKey.
Proof. intros e v. reflexivity. Qed.

Lemma generateEntryKey_ignores_title (ks : list string) :
  keyIgnoresTitle (fun e => generateEntryKey e ks).
Proof. intros e v. reflexivity. Qed.

Lemma baseTitle_nonempty (type desc : string) :
  capitalize type +++ " " +++ desc <> "".
Proof. apply append_nonempty_r. discriminate. Qed.

Lemma groups_nonempty (key : Entry.t -> string) (l : list Entry.t)
      (g : string * list Entry.t) :
  In g (groupBy key l) -> snd g <> [].
Proof.
  intros Hg. destruct (groupBy_table key l) as [_ Hb].
  rewrite Forall_forall in Hb. now destruct (Hb g Hg).
Qed.

Lemma titledSubGroup_kept (type : string) (g : string * list Entry.t) :
  snd g <> [] -> kept (snd g) (titledSubGroup type g).
Proof.
  destruct g as [k es]. simpl. intros Hes.
  unfold titledSubGroup, groupEntriesByMeanDelay.
  apply nest_kept; [exact Hes|].
  intros g Hg. apply titledMeanDelayGroup_kept.
  - apply baseTitle_nonempty.
  - now apply groups_nonempty in Hg.
Qed.

Lemma titledSubGroup_idem (type : string) (k : string) (g : string * list Entry.t) :
  snd g <> [] ->
  titledSubGroup type (k, titledSubGroup type g) = titledSubGroup type g.
Proof.
  destruct g as [k0 es]. simpl. intros Hes.
  unfold titledSubGroup, groupEntriesByMeanDelay.
  apply (nest_idem meanDelayKey meanDelayKey_ignores_title).
  - intros g Hg. apply titledMeanDelayGroup_kept.
    + apply baseTitle_nonempty.
    + now apply groups_nonempty in Hg.
  - intros g Hg. apply titledMeanDelayGroup_titled.
    apply groups_nonempty in Hg.
    now destruct (titledMeanDelayGroup_kept
                    (capitalize type +++ " " +++
                       getPdtRangeDescription (Entry.conditions (hd noEntry es)))
                    (List.length (groupBy meanDelayKey es)) g
                    (baseTitle_nonempty _ _) Hg) as (_ & Ht & _).
Qed.

Lemma titledPdtGroup_kept (type : string) (ks : list string)
      (g : string * list Entry.t) :
  snd g <> [] -> kept (snd g) (titledPdtGroup type ks g).
Proof.
  destruct g as [k es]. simpl. intros Hes. unfold titledPdtGroup.
  apply nest_kept; [exact Hes|].
  intros g Hg. apply titledSubGroup_kept. now apply groups_nonempty in Hg.
Qed.

Lemma titledPdtGroup_idem (type : string) (ks : list string) (k : string)
      (g : string * list Entry.t) :
  snd g <> [] ->
  titledPdtGroup type ks (k, titledPdtGroup type ks g) = titledPdtGroup type ks g.
Proof.
  destruct g as [k0 es]. simpl. intros Hes. unfold titledPdtGroup.
  apply (nest_idem _ (generateEntryKey_ignores_title (withoutPdtBounds ks))).
  - intros g Hg. apply titledSubGroup_kept. now apply groups_nonempty in Hg.
  - intros g Hg. apply titledSubGroup_idem. now apply groups_nonempty in Hg.
Qed.

Lemma mergeRanges_idem (ks : list string) (es : list Entry.t) :
  let merged := mergeEntriesByCommonParams es "ranges" ks in
  mergeEntriesByCommonParams merged "ranges" ks = merged.
Proof.
  unfold mergeEntriesByCommonParams. simpl. unfold groupRangesByPdtBounds.
  apply (nest_idem pdtBoundsKey pdtBoundsKey_ignores_title).
  - intros g Hg. apply titledPdtGroup_kept. now apply groups_nonempty in Hg.
  - intros g Hg. apply titledPdtGroup_idem. now apply groups_nonempty in Hg.
Qed.

Lemma mergeRanges_nonempty (ks : list string) (es : list Entry.t) :
  es <> [] -> mergeEntriesByCommonParams es "ranges" ks <> [].
Proof.
  intros H. unfold mergeEntriesByCommonParams. simpl.
  unfold groupRangesByPdtBounds.
  apply flat_map_nonempty; [now apply groupBy_nonempty|].
  intros g Hg. apply groups_nonempty in Hg.
  now destruct (titledPdtGroup_kept "ranges" ks g Hg).
Qed.

Lemma collect_sectionsOf (b : ByType) : collected (sectionsOf b) = b.
Proof.
  destruct b as [d r c o]. unfold collected, sectionsOf. simpl.
  destruct d, r, c, o; reflexivity.
Qed.

Lemma merge_as_sectionsOf (sections : list Section.t) :
  mergePdtSectionsByCommonParams sections
  = sectionsOf (mergedByType (collected sections)).
Proof.
  unfold mergePdtSectionsByCommonParams. fold noSections.
  fold (collected sections).
  destruct (collected sections) as [d r c o]. unfold sectionsOf, mergedByType.
  cbn [displayFormatEntries rangesEntries cappingEntries roundingEntries].
  f_equal; [|f_equal; [|f_equal]].
  - destruct d as [|e d]; [reflexivity|].
    pose proof (mergeDisplayFormat_nonempty displayFormatKeys (e :: d)
                                            ltac:(discriminate)) as H.
    destruct (mergeEntriesByCommonParams (e :: d) "display_format" displayFormatKeys);
      [congruence | reflexivity].
  - destruct r as [|e r]; [reflexivity|].
    pose proof (mergeRanges_nonempty rangesKeys (e :: r) ltac:(discriminate)) as H.
    destruct (mergeEntriesByCommonParams (e :: r) "ranges" rangesKeys);
      [congruence | reflexivity].
  - destruct c as [|e c]; [reflexivity|].
    pose proof (mergeCapping_nonempty rangesKeys (e :: c) ltac:(discriminate)) as H.
    destruct (mergeEntriesByCommonParams (e :: c) "capping" rangesKeys);
      [congruence | reflexivity].
Qed.

Lemma collect_display_format (P : Entry.t -> Prop) (sections : list Section.t) :
  (forall section es, In section sections ->
                      Section.display_format section = Some es -> Forall P es) ->
  Forall P (displayFormatEntries (collected sections)).
Proof.
  unfold collected.
  assert (G : forall b, Forall P (displayFormatEntries b) ->
                        (forall section es, In section sections ->
                           Section.display_format section = Some es -> Forall P es) ->
                        Forall P (displayFormatEntries (fold_left collect sections b))).
  { induction sections as [|s sections IH]; intros b Hb H; simpl; [exact Hb|].
    apply IH.
    - unfold collect.
      destruct (Section.display_format s) as [es|] eqn:E.
      + simpl. apply Forall_app. split; [exact Hb|].
        apply (H s es); [now left | exact E].
      + destruct (Section.ranges s), (Section.capping s), (Section.rounding s);
          exact Hb.
    - intros section es Hin. apply H. now right. }
  intros H. apply G; [constructor | exact H].
Qed.

Lemma mergedByType_idem (b : ByType) :
  Forall noDeliveryOption (displayFormatEntries b) ->
  mergedByType (mergedByType b) = mergedByType b.
Proof.
  intros H. destruct b as [d r c o]. unfold mergedByType.
  cbn [displayFormatEntries rangesEntries cappingEntries roundingEntries] in *.
  f_equal.
  - now apply mergeDisplayFormat_idem.
  - apply mergeRanges_idem.
  - apply mergeCapping_idem.
Qed.

Lemma shape_regroup (key : Entry.t -> string)
      (F : string * list Entry.t -> list Entry.t) (l : list Entry.t) :
  (forall g, In g (groupBy key l) ->
             List.length (F g) = List.length (snd g)
             /\ Forall (fun x => key x = fst g) (F g)) ->
  shape (groupBy key (flat_map F (groupBy key l))) = shape (groupBy key l).
Proof.
  intros H. destruct (groupBy_table key l) as [Hnd Hb].
  rewrite (regroup key F (groupBy key l) Hnd).
  - unfold shape. rewrite map_map. apply map_ext_in.
    intros g Hg. simpl. now destruct (H g Hg) as [-> _].
  - rewrite Forall_forall in *. intros g Hg.
    destruct (H g Hg) as [Hl Hk]. destruct (Hb g Hg) as [Hne _].
    split; [|exact Hk].
    intros E. rewrite E in Hl. simpl in Hl.
    symmetry in Hl. now apply length_zero_iff_nil in Hl.
Qed.

Lemma push_total_length {A : Type} (k : string) (x : A)
      (gs : list (string * list A)) :
  List.length (flat_map snd (push k x gs)) = S (List.length (flat_map snd gs)).
Proof.
  induction gs as [|[k' xs] gs IH]; simpl; [reflexivity|].
  destruct (String.eqb k k'); simpl.
  - rewrite !length_app. simpl. lia.
  - rewrite !length_app, IH. lia.
Qed.

Lemma groupBy_total_length {A : Type} (key : A -> string) (l : list A) :
  List.length (flat_map snd (groupBy key l)) = List.length l.
Proof.
  unfold groupBy.
  assert (G : forall gs,
             List.length (flat_map snd (fold_left (fun gs x => push (key x) x gs) l gs))
             = List.length (flat_map snd gs) + List.length l).
  { induction l as [|x l IH]; intros gs; simpl; [lia|].
    rewrite IH, push_total_length. lia. }
  rewrite G. reflexivity.
Qed.

Lemma flat_map_same_length {A : Type} (F : string * list A -> list A)
      (gs : list (string * list A)) :
  (forall g, In g gs -> List.length (F g) = List.length (snd g)) ->
  List.length (flat_map F gs) = List.length (flat_map snd gs).
Proof.
  induction gs as [|g gs IH]; intros H; simpl; [reflexivity|].
  rewrite !length_app, IH, H; auto using in_eq, in_cons.
Qed.

Lemma titledMeanDelayGroup_length (b : string) (n : nat) (g : string * list Entry.t) :
  List.length (titledMeanDelayGroup b n g) = List.length (snd g).
Proof. rewrite titledMeanDelayGroup_retitle. apply retitle_length. Qed.

Lemma titledSubGroup_length (type : string) (g : string * list Entry.t) :
  List.length (titledSubGroup type g) = List.length (snd g).
Proof.
  destruct g as [k es]. unfold titledSubGroup, groupEntriesByMeanDelay. simpl.
  rewrite flat_map_same_length.
  - apply groupBy_total_length.
  - intros g _. apply titledMeanDelayGroup_length.
Qed.

Lemma titledPdtGroup_length (type : string) (ks : list string)
      (g : string * list Entry.t) :
  List.length (titledPdtGroup type ks g) = List.length (snd g).
Proof.
  destruct g as [k es]. unfold titledPdtGroup. simpl.
  rewrite flat_map_same_length.
  - apply groupBy_total_length.
  - intros g _. apply titledSubGroup_length.
Qed.

Lemma shape_display_format (es : list Entry.t) :
  Forall noDeliveryOption es ->
  shape (groupBy (fun e => generateEntryKey e displayFormatKeys)
                 (mergeEntriesByCommonParams es "display_format" displayFormatKeys))
  = shape (groupBy (fun e => generateEntryKey e displayFormatKeys) es).
Proof.
  intros Hes. unfold mergeEntriesByCommonParams. simpl.
  apply (shape_regroup (fun e => generateEntryKey e displayFormatKeys)
                       (fun g => map mergedDisplayFormat (snd g))).
  intros g Hg. split; [apply length_map|].
  destruct (groupBy_table (fun e => generateEntryKey e displayFormatKeys) es)
    as [_ Hb].
  pose proof (groupBy_members (fun e => generateEntryKey e displayFormatKeys)
                              noDeliveryOption es Hes) as Hm.
  rewrite Forall_forall in Hb, Hm.
  destruct (Hb g Hg) as [_ Hk]. specialize (Hm g Hg).
  apply Forall_map. rewrite Forall_forall in *.
  intros e He. rewrite mergedDisplayFormat_key; auto.
Qed.

Lemma shape_capping (es : list Entry.t) :
  shape (groupBy (fun e => generateEntryKey e rangesKeys)
                 (mergeEntriesByCommonParams es "capping" rangesKeys))
  = shape (groupBy (fun e => generateEntryKey e rangesKeys) es).
Proof.
  unfold mergeEntriesByCommonParams. simpl.
  apply (shape_regroup (fun e => generateEntryKey e rangesKeys)
                       (titledCappingGroup "capping")).
  intros g Hg. rewrite titledCappingGroup_retitle. split.
  - apply retitle_length.
  - destruct (groupBy_table (fun e => generateEntryKey e rangesKeys) es)
      as [_ Hb].
    rewrite Forall_forall in Hb. destruct (Hb g Hg) as [_ Hk].
    apply retitle_keeps; [|exact Hk]. intros e v. reflexivity.
Qed.

Lemma shape_ranges (es : list Entry.t) :
  shape (groupRangesByPdtBounds
           (mergeEntriesByCommonParams es "ranges" rangesKeys))
  = shape (groupRangesByPdtBounds es).
Proof.
  unfold mergeEntriesByCommonParams, groupRangesByPdtBounds. simpl.
  apply (shape_regroup pdtBoundsKey (titledPdtGroup "ranges" rangesKeys)).
  intros g Hg. split; [apply titledPdtGroup_length|].
  destruct (groupBy_table pdtBoundsKey es) as [_ Hb].
  rewrite Forall_forall in Hb. destruct (Hb g Hg) as [Hne Hk].
  apply (kept_keys pdtBoundsKey (fst g) (snd g));
    [apply pdtBoundsKey_ignores_title | exact Hk |].
  now apply titledPdtGroup_kept.
Qed.

End MergeFacts.

(** C5, as stated, fails on display-format entries that carry a
    delivery_option: the merge keys them by it and then drops it from the
    entry it emits, so a second run finds the first and the third entry of
    [optionedSections] under one key and moves them together. *)
Lemma C5_delivery_option_counterexample :
  ~ MergeSpec.remergeChangesNothing MergeSpec.optionedSections.
Proof.
  intros [H _]. vm_compute in H. discriminate H.
Qed.

(** C5 (amended): for every sections list whose display-format entries
    carry no delivery_option, merging the output of
    mergePdtSectionsByCommonParams again returns that output unchanged
    (same sections, same entries in the same order, same titles), and the
    tables the second run builds for display_format, ranges and capping
    have the keys and group sizes of the first run's tables: nothing is
    coalesced further. *)
Theorem merge_is_idempotent :
  forall sections : list Section.t,
    MergeSpec.displayFormatWithoutOption sections ->
    MergeSpec.remergeChangesNothing sections.
Proof.
  intros sections H.
  pose proof (MergeFacts.collect_display_format MergeSpec.noDeliveryOption
                sections H) as Hd.
  unfold MergeSpec.remergeChangesNothing.
  rewrite !MergeFacts.merge_as_sectionsOf, !MergeFacts.collect_sectionsOf.
  rewrite MergeFacts.mergedByType_idem by exact Hd.
  split; [reflexivity|].
  destruct (MergeSpec.collected sections) as [d r c o].
  unfold MergeSpec.mergedByType.
  cbn [ExportImportManager.displayFormatEntries ExportImportManager.rangesEntries
       ExportImportManager.cappingEntries ExportImportManager.roundingEntries] in *.
  split; [|split].
  - now apply MergeFacts.shape_display_format.
  - apply MergeFacts.shape_ranges.
  - apply MergeFacts.shape_capping.
Qed.

(** The three ranges entries of the end-to-end scenario. *)
Lemma merge_is_idempotent_witness :
  MergeSpec.remergeChangesNothing MergeSpec.scenarioSections.
Proof.
  apply (merge_is_idempotent MergeSpec.scenarioSections).
  intros section es [<- | []] E. discriminate E.
Defined.

(** The titles the merge gives the entries of the scenario. *)
Example scenario_titles :
  map (fun s => match Section.ranges s with
                | Some es => map Entry._title es
                | None => []
                end)
      (ExportImportManager.mergePdtSectionsByCommonParams MergeSpec.scenarioSections)
  = [ [ Js.VStr "Ranges PDT ≤13"; Js.VStr "Ranges PDT 13-18";
        Js.VStr "Ranges PDT 18-23" ] ].
Proof. reflexivity. Qed.

(* ================================================================== *)
(** ** Rebuilding the index *)
(* ================================================================== *)

Module RebuildFacts.
Import Js Grouping Model ConfigManager RebuildSpec.

(** *** Ids *)

Lemma append_inj_l (a s t : string) : a +++ s = a +++ t -> s = t.
Proof.
  induction a as [|c a IH]; simpl; intros H; [exact H|].
  injection H as H. auto.
Qed.

Lemma string_of_Z_inj (a b : Z) : string_of_Z a = string_of_Z b -> a = b.
Proof.
  unfold string_of_Z. intros H.
  assert (N : forall z, Z.to_int z <> Decimal.Pos Decimal.Nil
                        /\ Z.to_int z <> Decimal.Neg Decimal.Nil).
  { intros [|p|p]; simpl; split; try discriminate;
      intros E; injection E as E; now apply Unsigned.to_uint_nonnil in E. }
  assert (E : Some (Z.to_int a) = Some (Z.to_int b)).
  { rewrite <- (NilZero.isi (Z.to_int a)), <- (NilZero.isi (Z.to_int b));
      try apply N. now rewrite H. }
  injection E as E.
  rewrite <- (DecimalZ.of_to a), <- (DecimalZ.of_to b). now rewrite E.
Qed.

Lemma makeId_inj (ty ty' : string) (n n' : nat) :
  In ty Spec.sectionKinds -> In ty' Spec.sectionKinds ->
  makeId ty n = makeId ty' n' -> n = n'.
Proof.
  unfold Spec.sectionKinds, makeId. simpl.
  intros [<- | [<- | [<- | [<- | []]]]] [<- | [<- | [<- | [<- | []]]]] H;
    simpl in H; try discriminate H.
  all: apply Nat2Z.inj, string_of_Z_inj.
  - apply (append_inj_l "display-format-" _ _ H).
  - apply (append_inj_l "ranges-" _ _ H).
  - apply (append_inj_l "capping-" _ _ H).
  - apply (append_inj_l "rounding-" _ _ H).
Qed.

(** *** Installing a group *)

Lemma putGroup_fresh (gs : list (string * StoredGroup)) (k : string)
      (g : StoredGroup) :
  ~ In k (map fst gs) -> putGroup gs k g = gs ++ [(k, g)].
Proof.
  induction gs as [|[k' g'] gs IH]; simpl; intros H; [reflexivity|].
  destruct (String.eqb_spec k k') as [->|N].
  - exfalso. apply H. now left.
  - rewrite IH; [reflexivity | tauto].
Qed.

Lemma fresh_id (cm : t) (ty : string) :
  wellFormed cm -> In ty Spec.sectionKinds ->
  ~ In (makeId ty (idCounter cm)) (map fst (groups cm)).
Proof.
  intros W Hty Hin. apply in_map_iff in Hin.
  destruct Hin as (p & E & Hp).
  unfold wellFormed in W. rewrite Forall_forall in W.
  destruct (W p Hp) as ((ty' & n & Hty' & Hn & E') & _).
  rewrite E' in E. apply makeId_inj in E; trivial. lia.
Qed.

Lemma install_spec (cm : t) (g : GroupView) :
  wellFormed cm ->
  (exists ty, In ty Spec.sectionKinds /\ id g = makeId ty (idCounter cm)) ->
  wellFormed (install cm g)
  /\ allGroups (install cm g) = allGroups cm ++ [g]
  /\ idCounter (install cm g) = S (idCounter cm)
  /\ config (install cm g) = config cm.
Proof.
  intros W (ty & Hty & Hid).
  pose proof (fresh_id cm ty W Hty) as Hfresh. rewrite <- Hid in Hfresh.
  unfold install, allocParams, allocRules. simpl.
  rewrite putGroup_fresh by exact Hfresh.
  unfold wellFormed in *. simpl.
  split; [|split; [|split; reflexivity]].
  - apply Forall_app. split.
    + eapply Forall_impl; [|exact W].
      intros p ((ty' & n & H1 & H2 & H3) & H4 & H5).
      split; [|split].
      * exists ty', n. split; [|split]; trivial. lia.
      * rewrite length_app. simpl. lia.
      * rewrite length_app. simpl. lia.
    + constructor; [|constructor]. simpl. split; [|split].
      * exists ty, (idCounter cm). split; [|split]; trivial. lia.
      * rewrite length_app. simpl. lia.
      * rewrite length_app. simpl. lia.
  - unfold allGroups. simpl. rewrite map_app. simpl. f_equal.
    + apply map_ext_in. intros p Hp. rewrite Forall_forall in W.
      destruct (W p Hp) as (_ & H4 & H5).
      unfold view, paramsAt, rulesAt. simpl.
      rewrite !app_nth1 by assumption. reflexivity.
    + unfold view, paramsAt, rulesAt. simpl.
      rewrite !nth_middle. destruct g; reflexivity.
Qed.

Lemma fold_install_spec (gs : list GroupView) (cm : t) :
  wellFormed cm -> numberedFrom (idCounter cm) gs ->
  wellFormed (fold_left install gs cm)
  /\ allGroups (fold_left install gs cm) = allGroups cm ++ gs
  /\ idCounter (fold_left install gs cm) = idCounter cm + List.length gs
  /\ config (fold_left install gs cm) = config cm.
Proof.
  revert cm. induction gs as [|g gs IH]; intros cm W N; simpl.
  - rewrite app_nil_r, Nat.add_0_r. auto.
  - inversion N as [|? ? ? Hg Hgs]; subst.
    destruct (install_spec cm g W Hg) as (W' & A' & C' & F').
    rewrite <- C' in Hgs.
    destruct (IH (install cm g) W' Hgs) as (W2 & A2 & C2 & F2).
    split; [exact W2|split; [|split]].
    + rewrite A2, A', <- app_assoc. reflexivity.
    + rewrite C2, C'. lia.
    + now rewrite F2.
Qed.

(** *** The groups of a section are numbered from the counter *)

Lemma numbered_map (f : nat * (string * list Entry.t) -> GroupView) (ty : string)
      (l : list (string * list Entry.t)) (n : nat) :
  In ty Spec.sectionKinds ->
  (forall i p, id (f (i, p)) = makeId ty i) ->
  numberedFrom n (map f (numbered n l)).
Proof.
  intros Hty Hf. unfold numbered. revert n.
  induction l as [|p l IH]; intros n; simpl; constructor.
  - exists ty. split; [exact Hty | apply Hf].
  - apply IH.
Qed.

Lemma numbered_rounding (l : list Entry.t) (n m : nat) :
  numberedFrom (n + m)
    (map (roundingGroup n) (combine (seq m (List.length l)) l)).
Proof.
  revert m. induction l as [|e l IH]; intros m; simpl; constructor.
  - exists "rounding". split; [|reflexivity]. simpl. tauto.
  - rewrite <- Nat.add_succ_r. apply IH.
Qed.

Lemma groupsOfSection_numbered (n : nat) (section : Section.t) :
  numberedFrom n (groupsOfSection n section).
Proof.
  unfold groupsOfSection.
  destruct (Section.display_format section) as [es|].
  { apply (numbered_map _ "display-format"); [simpl; tauto|].
    intros i [k l]. reflexivity. }
  destruct (Section.ranges section) as [es|].
  { apply (numbered_map _ "ranges"); [simpl; tauto|].
    intros i [k l]. reflexivity. }
  destruct (Section.capping section) as [es|].
  { apply (numbered_map _ "capping"); [simpl; tauto|].
    intros i [k l]. reflexivity. }
  destruct (Section.rounding section) as [es|]; [|constructor].
  unfold indexed. rewrite <- (Nat.add_0_r n) at 1. apply numbered_rounding.
Qed.

(** The rebuilt index holds the groups of the sections, in the order of the
    sections. *)
Lemma rebuild_from (sections : list Section.t) (cm : t) :
  wellFormed cm ->
  allGroups
    (fold_left (fun cm section =>
                  fold_left install (groupsOfSection (idCounter cm) section) cm)
               sections cm)
  = allGroups cm ++ rebuiltGroups (idCounter cm) sections.
Proof.
  revert cm. induction sections as [|s sections IH]; intros cm W; simpl.
  - now rewrite app_nil_r.
  - destruct (fold_install_spec (groupsOfSection (idCounter cm) s) cm W
                                (groupsOfSection_numbered _ _))
      as (W' & A' & C' & _).
    rewrite IH by exact W'. rewrite A', C', <- app_assoc. reflexivity.
Qed.

Lemma allGroups_rebuildGroupsMapping (cm : t) :
  allGroups (rebuildGroupsMapping cm) = rebuiltGroups 0 (pdt (config cm)).
Proof.
  unfold rebuildGroupsMapping.
  rewrite rebuild_from; [reflexivity|].
  unfold wellFormed. simpl. constructor.
Qed.

(** *** Every entry reaches a group *)

Lemma insertSorted_In {A : Type} (cmp : A -> A -> option comparison)
      (x y : A) (l : list A) :
  In y (insertSorted cmp x l) <-> y = x \/ In y l.
Proof.
  induction l as [|z l IH]; simpl.
  - intuition congruence.
  - destruct (cmp x z) as [[| |]|]; simpl; rewrite ?IH; intuition congruence.
Qed.

Lemma arraySort_In {A : Type} (cmp : A -> A -> option comparison)
      (y : A) (l : list A) :
  In y (arraySort cmp l) <-> In y l.
Proof.
  unfold arraySort.
  assert (G : forall acc,
             In y (fold_left (fun sorted x => insertSorted cmp x sorted) l acc)
             <-> In y l \/ In y acc).
  { induction l as [|x l IH]; intros acc; simpl; [tauto|].
    rewrite IH, insertSorted_In. intuition congruence. }
  rewrite G. simpl. tauto.
Qed.

Lemma push_In {A : Type} (k : string) (x y : A) (gs : list (string * list A)) :
  In y (flat_map snd (push k x gs)) <-> y = x \/ In y (flat_map snd gs).
Proof.
  induction gs as [|[k' xs] gs IH]; simpl.
  - intuition congruence.
  - destruct (String.eqb k k'); simpl; rewrite !in_app_iff; simpl.
    + intuition congruence.
    + rewrite IH. intuition congruence.
Qed.

Lemma groupBy_cover {A : Type} (key : A -> string) (l : list A) (y : A) :
  In y l -> exists g, In g (groupBy key l) /\ In y (snd g).
Proof.
  intros H.
  assert (G : forall gs,
             In y (flat_map snd
                     (fold_left (fun gs x => push (key x) x gs) l gs))
             <-> In y l \/ In y (flat_map snd gs)).
  { clear H. induction l as [|x l IH]; intros gs; simpl; [tauto|].
    rewrite IH, push_In. intuition congruence. }
  assert (Hy : In y (flat_map snd (groupBy key l))).
  { unfold groupBy. apply G. now left. }
  apply in_flat_map in Hy. exact Hy.
Qed.

Lemma numbered_cover {A : Type} (n : nat) (l : list A) (x : A) :
  In x l -> exists i, In (i, x) (numbered n l).
Proof.
  unfold numbered. revert n.
  induction l as [|y l IH]; intros n H; simpl in *; [tauto|].
  destruct H as [-> | H].
  - exists n. now left.
  - destruct (IH (S n) H) as [i Hi]. exists i. now right.
Qed.

Lemma ranges_entry_reaches_group (n : nat) (section : Section.t)
      (entries : list Entry.t) (e : Entry.t) :
  Section.display_format section = None ->
  Section.ranges section = Some entries ->
  In e entries ->
  exists g, In g (groupsOfSection n section)
            /\ type g = "ranges" /\ In (rangesRule e) (rules g).
Proof.
  intros Hd Hr He. unfold groupsOfSection. rewrite Hd, Hr.
  destruct (groupBy_cover (groupingKey commonParamKeys) entries e He)
    as ([k es] & Hg & Hes).
  destruct (numbered_cover n _ _ Hg) as [i Hi].
  exists (rangesGroup (i, (k, es))). split; [|split].
  - apply in_map. exact Hi.
  - reflexivity.
  - simpl. apply in_map. apply arraySort_In. exact Hes.
Qed.

Lemma section_groups_rebuilt (sections : list Section.t) (section : Section.t) :
  In section sections ->
  forall n, exists m,
    forall g, In g (groupsOfSection m section) ->
              In g (rebuiltGroups n sections).
Proof.
  induction sections as [|s sections IH]; intros H n; simpl in *; [tauto|].
  destruct H as [-> | H].
  - exists n. intros g Hg. apply in_or_app. now left.
  - destruct (IH H (n + List.length (groupsOfSection n s))) as [m Hm].
    exists m. intros g Hg. apply in_or_app. right. now apply Hm.
Qed.

(** *** A bound of 0 *)

Lemma rangesRule_bounds (e : Entry.t) :
  get (rangesRule e) "pdtGreaterThan"
  = or_else (Entry.cond Conditions.pdt_greater_than e) VNull
  /\ get (rangesRule e) "pdtLessThanOrEqualTo"
     = or_else (Entry.cond Conditions.pdt_less_than_or_equal_to e) VNull
  /\ get (rangesRule e) "meanDelayGreaterThan"
     = or_else (Entry.cond Conditions.mean_delay_greater_than e) VNull
  /\ get (rangesRule e) "meanDelayLessThanOrEqualTo"
     = or_else (Entry.cond Conditions.mean_delay_less_than_or_equal_to e) VNull.
Proof. repeat split. Qed.

Lemma rangesEntry_bounds (g : GroupView) (rule : obj) :
  Entry.cond Conditions.pdt_greater_than (rangesEntry g rule)
  = whenTrue (specified (get rule "pdtGreaterThan")) (get rule "pdtGreaterThan")
  /\ Entry.cond Conditions.pdt_less_than_or_equal_to (rangesEntry g rule)
     = whenTrue (specified (get rule "pdtLessThanOrEqualTo"))
                (get rule "pdtLessThanOrEqualTo")
  /\ Entry.cond Conditions.mean_delay_greater_than (rangesEntry g rule)
     = whenTrue (specified (get rule "meanDelayGreaterThan"))
                (get rule "meanDelayGreaterThan")
  /\ Entry.cond Conditions.mean_delay_less_than_or_equal_to (rangesEntry g rule)
     = whenTrue (specified (get rule "meanDelayLessThanOrEqualTo"))
                (get rule "meanDelayLessThanOrEqualTo").
Proof. repeat split. Qed.

Lemma zero_bounds_lost (e : Entry.t) (g : GroupView) :
  zeroBoundLost Conditions.pdt_greater_than "pdtGreaterThan" e g
  /\ zeroBoundLost Conditions.pdt_less_than_or_equal_to "pdtLessThanOrEqualTo" e g
  /\ zeroBoundLost Conditions.mean_delay_greater_than "meanDelayGreaterThan" e g
  /\ zeroBoundLost Conditions.mean_delay_less_than_or_equal_to
                   "meanDelayLessThanOrEqualTo" e g.
Proof.
  destruct (rangesRule_bounds e) as (R1 & R2 & R3 & R4).
  destruct (rangesEntry_bounds g (rangesRule e)) as (E1 & E2 & E3 & E4).
  unfold zeroBoundLost.
  rewrite R1, R2, R3, R4, E1, E2, E3, E4, R1, R2, R3, R4.
  split; [|split; [|split]]; intros H; rewrite H; split; reflexivity.
Qed.

(** *** The entry a rule is serialised to *)

Lemma serialised_ranges_entry (gs : list GroupView) (g : GroupView) (rule : obj) :
  In g gs -> type g = "ranges" -> In rule (rules g) ->
  exists es, In (Section.make None (Some es) None None) (sectionsOfGroups gs)
             /\ In (rangesEntry g rule) es.
Proof.
  intros Hg Hty Hr.
  assert (Hin : In g (ofType "ranges" gs)).
  { unfold ofType. apply filter_In. split; [exact Hg|]. now rewrite Hty. }
  unfold sectionsOfGroups.
  destruct (ofType "ranges" gs) as [|g0 rgs] eqn:E; [destruct Hin|].
  eexists. split.
  - apply in_or_app. right. apply in_or_app. left. left. reflexivity.
  - apply in_flat_map. exists g. split; [exact Hin|]. now apply in_map.
Qed.

End RebuildFacts.

(** C9: every entry of a ranges section of the flat config reaches, by
    rebuildGroupsMapping, a rule of a ranges group of the rebuilt index; a
    bound that the entry's conditions give as the number 0
    (pdt_greater_than, pdt_less_than_or_equal_to, mean_delay_greater_than,
    mean_delay_less_than_or_equal_to) is [null] in that rule, and the entry
    the rule is serialised to by the next updateConfigFromGroups has no
    such condition. *)
Theorem zero_bound_is_lost_on_rebuild :
  forall (cm : ConfigManager.t) (section : Section.t)
         (entries : list Entry.t) (e : Entry.t),
    In section (Model.pdt (ConfigManager.config cm)) ->
    Section.display_format section = None ->
    Section.ranges section = Some entries ->
    In e entries ->
    RebuildSpec.rebuiltWithoutZeroBounds cm e.
Proof.
  intros cm section entries e Hs Hd Hr He.
  destruct (RebuildFacts.section_groups_rebuilt _ _ Hs 0) as [m Hm].
  destruct (RebuildFacts.ranges_entry_reaches_group m section entries e Hd Hr He)
    as (g & Hg & Hty & Hrule).
  exists g.
  assert (Hin : In g (ConfigManager.allGroups
                        (ConfigManager.rebuildGroupsMapping cm))).
  { rewrite RebuildFacts.allGroups_rebuildGroupsMapping. now apply Hm. }
  destruct (RebuildFacts.zero_bounds_lost e g) as (Z1 & Z2 & Z3 & Z4).
  repeat (split; [assumption|]).
  apply (RebuildFacts.serialised_ranges_entry
           (ConfigManager.allGroups (ConfigManager.rebuildGroupsMapping cm))
           g (ConfigManager.rangesRule e)); assumption.
Qed.

(** A ranges section whose only entry has pdt_greater_than 0. *)
Lemma zero_bound_is_lost_on_rebuild_witness :
  RebuildSpec.rebuiltWithoutZeroBounds
    RebuildSpec.zeroBoundStore RebuildSpec.zeroBoundEntry.
Proof.
  apply (zero_bound_is_lost_on_rebuild RebuildSpec.zeroBoundStore
           (Section.make None (Some [RebuildSpec.zeroBoundEntry]) None None)
           [RebuildSpec.zeroBoundEntry] RebuildSpec.zeroBoundEntry).
  - simpl. now left.
  - reflexivity.
  - reflexivity.
  - simpl. now left.
Defined.

(** The same store, run: after the rebuild and the next serialisation the
    entry has no pdt_greater_than. *)
Example zero_bound_round_trip :
  map (fun s => match Section.ranges s with
                | Some es => map (Entry.cond Conditions.pdt_greater_than) es
                | None => []
                end)
      (RebuildSpec.reserialised RebuildSpec.zeroBoundStore)
  = [ [ Js.VUndef ] ].
Proof. reflexivity. Qed.

(* ================================================================== *)
(** ** Pairs of a list *)
(* ================================================================== *)

Module PairFacts.
Import Js Grouping.

Lemma in_numbered_from {A : Type} (n : nat) (l : list A) (i : nat) (x : A) :
  In (i, x) (combine (seq n (List.length l)) l)
  <-> n <= i /\ nth_error l (i - n) = Some x.
Proof.
  revert n. induction l as [|a l IH]; intros n; simpl.
  - split; [intros []|]. intros [_ H]. destruct (i - n); discriminate H.
  - rewrite IH. split.
    + intros [E | [H1 H2]].
      * injection E as <- <-. split; [lia|]. rewrite Nat.sub_diag. reflexivity.
      * split; [lia|]. replace (i - n) with (S (i - S n)) by lia. exact H2.
    + intros [H1 H2]. destruct (Nat.eq_dec i n) as [->|Hne].
      * left. rewrite Nat.sub_diag in H2. simpl in H2. congruence.
      * right. split; [lia|]. replace (i - n) with (S (i - S n)) in H2 by lia.
        exact H2.
Qed.

Lemma in_indexed {A : Type} (l : list A) (i : nat) (x : A) :
  In (i, x) (indexed l) <-> nth_error l i = Some x.
Proof.
  unfold indexed. rewrite in_numbered_from. rewrite Nat.sub_0_r.
  split; [tauto | intros H; split; [lia | exact H]].
Qed.

Lemma in_pairs_numbered {A : Type} (n : nat) (l : list A) (i j : nat) (x y : A) :
  In ((i, x), (j, y)) (pairs (combine (seq n (List.length l)) l))
  <-> n <= i /\ i < j /\ nth_error l (i - n) = Some x
      /\ nth_error l (j - n) = Some y.
Proof.
  revert n. induction l as [|a l IH]; intros n; simpl.
  - split; [intros []|]. intros (_ & _ & H & _). destruct (i - n); discriminate H.
  - rewrite in_app_iff, in_map_iff, IH. split.
    + intros [[[j' y'] [E H]] | (H1 & H2 & H3 & H4)].
      * injection E as <- <- <- <-.
        apply in_numbered_from in H. destruct H as [H1 H2].
        split; [lia|]. split; [lia|]. rewrite Nat.sub_diag. split; [reflexivity|].
        replace (j' - n) with (S (j' - S n)) by lia. exact H2.
      * split; [lia|]. split; [lia|].
        replace (i - n) with (S (i - S n)) by lia.
        replace (j - n) with (S (j - S n)) by lia. split; assumption.
    + intros (H1 & H2 & H3 & H4). destruct (Nat.eq_dec i n) as [->|Hne].
      * left. exists (j, y). rewrite Nat.sub_diag in H3. simpl in H3.
        injection H3 as <-. split; [reflexivity|].
        apply in_numbered_from. split; [lia|].
        replace (j - n) with (S (j - S n)) in H4 by lia. exact H4.
      * right. split; [lia|]. split; [lia|].
        replace (i - n) with (S (i - S n)) in H3 by lia.
        replace (j - n) with (S (j - S n)) in H4 by lia. split; assumption.
Qed.

Lemma in_pairs_indexed {A : Type} (l : list A) (i j : nat) (x y : A) :
  In ((i, x), (j, y)) (pairs (indexed l))
  <-> i < j /\ nth_error l i = Some x /\ nth_error l j = Some y.
Proof.
  unfold indexed. rewrite in_pairs_numbered. rewrite !Nat.sub_0_r.
  split; [tauto | intros H; split; [lia | exact H]].
Qed.

(** The pairs of [pairs l] are taken from [l], the first before the second. *)
Lemma in_pairs {A : Type} (l : list A) (x y : A) :
  In (x, y) (pairs l)
  <-> exists i j, i < j /\ nth_error l i = Some x /\ nth_error l j = Some y.
Proof.
  induction l as [|a l IH]; simpl.
  - split; [intros [] | intros (i & j & _ & H & _); destruct i; discriminate H].
  - rewrite in_app_iff, in_map_iff, IH. split.
    + intros [[y' [E H]] | (i & j & H1 & H2 & H3)].
      * injection E as <- <-. apply In_nth_error in H. destruct H as [j Hj].
        exists 0, (S j). split; [lia|]. split; [reflexivity | exact Hj].
      * exists (S i), (S j). split; [lia|]. split; assumption.
    + intros (i & j & H1 & H2 & H3). destruct i as [|i].
      * left. exists y. simpl in H2. injection H2 as <-. split; [reflexivity|].
        destruct j as [|j]; [lia|]. simpl in H3. eapply nth_error_In; eassumption.
      * right. destruct j as [|j]; [lia|]. exists i, j.
        split; [lia|]. split; assumption.
Qed.

End PairFacts.

(* ================================================================== *)
(** ** The validator, continued *)
(* ================================================================== *)

Module ValidationMore.
Import Js Grouping Model ValidationManager Spec ValidationSpec.

Lemma flat_map_nil {A B : Type} (f : A -> list B) (l : list A) :
  (forall x, In x l -> f x = []) -> flat_map f l = [].
Proof.
  induction l as [|a l IH]; intros H; simpl; [reflexivity|].
  rewrite (H a (or_introl eq_refl)), IH; [reflexivity|].
  intros x Hx. apply H. right. exact Hx.
Qed.

Lemma tiled_tail (a : RuleBounds) (rest : list RuleBounds) :
  tiled (a :: rest) -> tiled rest.
Proof.
  intros H. inversion H; subst; [constructor | assumption].
Qed.

Lemma tiled_later (a : RuleBounds) (rest : list RuleBounds) (b : RuleBounds) :
  tiled (a :: rest) -> In b rest ->
  exists x x', pdtLessThanOrEqualTo a = Some x
               /\ pdtGreaterThan b = Some x' /\ (x <= x')%Z.
Proof.
  revert a. induction rest as [|c rest IH]; intros a H Hb; [destruct Hb|].
  inversion H as [| |a' b' rest' x Ha Hc Hlt Ht]; subst.
  destruct Hb as [<-|Hb].
  - exists x, x. split; [exact Ha|]. split; [exact Hc|]. lia.
  - destruct (IH c Ht Hb) as (y & x' & Hy & Hx' & Hle).
    exists x, x'. split; [exact Ha|]. split; [exact Hx'|].
    rewrite Hy in Hlt. simpl in Hlt. lia.
Qed.

Lemma tiled_at (bs : list RuleBounds) (i j : nat) (a b : RuleBounds) :
  tiled bs -> i < j -> nth_error bs i = Some a -> nth_error bs j = Some b ->
  exists x x', pdtLessThanOrEqualTo a = Some x
               /\ pdtGreaterThan b = Some x' /\ (x <= x')%Z.
Proof.
  revert i j. induction bs as [|c bs IH]; intros i j Ht Hij Hi Hj.
  - destruct i; discriminate Hi.
  - destruct j as [|j]; [lia|]. simpl in Hj. destruct i as [|i].
    + simpl in Hi. injection Hi as ->.
      apply (tiled_later a bs b Ht). eapply nth_error_In; eassumption.
    + simpl in Hi. apply (IH i j (tiled_tail _ _ Ht)); [lia | assumption ..].
Qed.

Lemma Forall2_nth_error {A B : Type} (R : A -> B -> Prop) (l : list A)
      (l' : list B) (i : nat) (x : A) :
  Forall2 R l l' -> nth_error l i = Some x ->
  exists y, nth_error l' i = Some y /\ R x y.
Proof.
  intros H. revert i. induction H as [|a b l l' Hab H IH]; intros i Hi.
  - destruct i; discriminate Hi.
  - destruct i as [|i]; simpl in *.
    + injection Hi as <-. exists b. split; [reflexivity | exact Hab].
    + apply IH. exact Hi.
Qed.

Lemma strict_eq_sym (a b : value) : strict_eq a b = strict_eq b a.
Proof.
  destruct a, b; simpl; try reflexivity.
  - destruct b, b0; reflexivity.
  - apply Z.eqb_sym.
  - apply String.eqb_sym.
Qed.

Lemma get_in (o : obj) (k : string) : get o k <> VUndef -> In k (keys o).
Proof.
  induction o as [|[k' v] o IH]; simpl; intros H; [congruence|].
  destruct (String.eqb_spec k k') as [->|Hne]; [left; reflexivity|].
  right. apply IH. exact H.
Qed.

Lemma in_get (o : obj) (k : string) :
  Forall (fun p : string * value => snd p <> VUndef) o ->
  In k (keys o) -> get o k <> VUndef.
Proof.
  induction o as [|[k' v] o IH]; simpl; intros H Hk; [destruct Hk|].
  apply Forall_cons_iff in H. destruct H as [Hv H].
  destruct (String.eqb_spec k k') as [->|Hne]; [exact Hv|].
  destruct Hk as [E|Hk]; [congruence|]. apply IH; assumption.
Qed.

Lemma strict_eq_undef (v : value) : strict_eq v VUndef = true -> v = VUndef.
Proof. destruct v; simpl; intros H; try discriminate H; reflexivity. Qed.

Lemma areGroupsEqual_flip (g1 g2 : GroupView) :
  plainParams (commonParams g1) ->
  areGroupsEqual g1 g2 = true -> areGroupsEqual g2 g1 = true.
Proof.
  intros [Hnd Hdef]. unfold areGroupsEqual. cbv zeta.
  destruct (Nat.eqb_spec (List.length (keys (commonParams g1)))
                         (List.length (keys (commonParams g2)))) as [Hlen|Hlen];
    simpl; [|discriminate].
  intros Hall. rewrite forallb_forall in Hall.
  rewrite <- Hlen, Nat.eqb_refl. simpl.
  assert (Hincl : incl (keys (commonParams g1)) (keys (commonParams g2))).
  { intros k Hk. apply get_in. intros E.
    specialize (Hall k Hk). rewrite E in Hall.
    apply strict_eq_undef in Hall. revert Hall. apply in_get; assumption. }
  assert (Hback : incl (keys (commonParams g2)) (keys (commonParams g1))).
  { apply NoDup_length_incl; [exact Hnd | lia | exact Hincl]. }
  apply forallb_forall. intros k Hk.
  rewrite strict_eq_sym. apply Hall. apply Hback. exact Hk.
Qed.

(** *** Grouping as filtering *)

Section GroupFilter.
Context {A : Type} (key : A -> string).

Lemma in_push (k0 : string) (x : A) (gs : list (string * list A))
      (k : string) (xs : list A) :
  NoDup (keysOf gs) ->
  In (k, xs) (push k0 x gs) ->
  (k <> k0 /\ In (k, xs) gs)
  \/ (k = k0 /\ ((exists xs0, In (k0, xs0) gs /\ xs = xs0 ++ [x])
                 \/ (~ In k0 (keysOf gs) /\ xs = [x]))).
Proof.
  induction gs as [|[k' ys] gs IH]; simpl; intros Hnd H.
  - destruct H as [E|[]]. injection E as <- <-.
    right. split; [reflexivity|]. right. split; [tauto | reflexivity].
  - apply NoDup_cons_iff in Hnd. destruct Hnd as [Hk' Hnd].
    destruct (String.eqb_spec k0 k') as [->|Hne].
    + destruct H as [E|H].
      * injection E as <- <-. right. split; [reflexivity|]. left.
        exists ys. split; [left; reflexivity | reflexivity].
      * left. split; [|right; exact H].
        intros ->. apply Hk'. apply (in_map fst) in H. exact H.
    + destruct H as [E|H].
      * injection E as <- <-. left. split; [congruence | left; reflexivity].
      * destruct (IH Hnd H) as [[H1 H2] | [H1 [[xs0 [H2 H3]] | [H2 H3]]]].
        -- left. split; [exact H1 | right; exact H2].
        -- right. split; [exact H1|]. left. exists xs0.
           split; [right; exact H2 | exact H3].
        -- right. split; [exact H1|]. right. split; [|exact H3].
           intros [E|Hin]; [congruence | exact (H2 Hin)].
Qed.

Lemma groupBy_snoc (l : list A) (x : A) :
  groupBy key (l ++ [x]) = push (key x) x (groupBy key l).
Proof. unfold groupBy. rewrite fold_left_app. reflexivity. Qed.

Lemma groupBy_keys_cover (l : list A) (y : A) :
  In y l -> In (key y) (keysOf (groupBy key l)).
Proof.
  intros H. destruct (RebuildFacts.groupBy_cover key l y H) as [g [Hg Hy]].
  destruct (GroupingFacts.groupBy_table key l) as [_ Hb].
  rewrite Forall_forall in Hb. destruct (Hb g Hg) as [_ Hkey].
  rewrite Forall_forall in Hkey. rewrite (Hkey y Hy).
  apply in_map. exact Hg.
Qed.

Lemma filter_none (f : A -> bool) (l : list A) :
  (forall y, In y l -> f y = false) -> filter f l = [].
Proof.
  induction l as [|a l IH]; intros H; simpl; [reflexivity|].
  rewrite (H a (or_introl eq_refl)). apply IH.
  intros y Hy. apply H. right. exact Hy.
Qed.

(** A group of [groupBy] holds the elements that have its key, in the
    order of the list. *)
Lemma groupBy_filter (l : list A) (k : string) (xs : list A) :
  In (k, xs) (groupBy key l) -> xs = filter (keyed key k) l.
Proof.
  revert k xs. induction l as [|x l IH] using rev_ind; intros k xs H.
  - destruct H.
  - rewrite groupBy_snoc in H.
    destruct (GroupingFacts.groupBy_table key l) as [Hnd _].
    rewrite filter_app. simpl. unfold keyed at 2.
    destruct (in_push _ _ _ _ _ Hnd H) as [[H1 H2] | [-> [[xs0 [H2 ->]] | [H2 ->]]]].
    + destruct (String.eqb_spec (key x) k) as [E|_]; [congruence|].
      rewrite app_nil_r. apply IH. exact H2.
    + rewrite String.eqb_refl. rewrite (IH _ _ H2). reflexivity.
    + rewrite String.eqb_refl. rewrite filter_none; [reflexivity|].
      intros y Hy. unfold keyed. apply String.eqb_neq. intros E.
      apply H2. rewrite <- E. apply groupBy_keys_cover. exact Hy.
Qed.

Lemma groupBy_has_filter (l : list A) (y : A) :
  In y l -> In (key y, filter (keyed key (key y)) l) (groupBy key l).
Proof.
  intros H. pose proof (groupBy_keys_cover l y H) as Hk.
  unfold keysOf in Hk. apply in_map_iff in Hk.
  destruct Hk as [[k xs] [E Hg]]. simpl in E. subst k.
  rewrite <- (groupBy_filter l _ _ Hg). exact Hg.
Qed.

End GroupFilter.

Lemma in_pairs_filter {A : Type} (f : A -> bool) (l : list A) (x y : A) :
  In (x, y) (pairs (filter f l))
  <-> In (x, y) (pairs l) /\ f x = true /\ f y = true.
Proof.
  induction l as [|a l IH]; simpl; [tauto|].
  destruct (f a) eqn:Ea; simpl.
  - rewrite !in_app_iff, !in_map_iff, IH. split.
    + intros [[y' [E H]] | H].
      * injection E as <- <-. apply filter_In in H. destruct H as [H1 H2].
        split; [left; exists y'; split; [reflexivity | exact H1]|]. tauto.
      * tauto.
    + intros [[[y' [E H]] | H] [Hx Hy]].
      * injection E as <- <-. left. exists y'. split; [reflexivity|].
        apply filter_In. tauto.
      * right. tauto.
  - rewrite IH, in_app_iff, in_map_iff. split.
    + tauto.
    + intros [[[y' [E H]] | H] [Hx Hy]].
      * injection E as <- <-. congruence.
      * tauto.
Qed.

End ValidationMore.

(** X1: for two ranges rules whose bounds are integers or null,
    [doRangesRulesOverlap] gives the same answer whichever rule comes
    first. *)
Theorem overlap_does_not_depend_on_rule_order :
  forall (rule1 rule2 : Js.obj) (bounds1 bounds2 : Spec.RuleBounds),
    Spec.carries rule1 bounds1 ->
    Spec.carries rule2 bounds2 ->
    ValidationManager.doRangesRulesOverlap rule1 rule2
    = ValidationManager.doRangesRulesOverlap rule2 rule1.
Proof.
  intros rule1 rule2 bounds1 bounds2 H1 H2.
  pose proof (OverlapFacts.doRangesRulesOverlap_on_bounds
                rule1 rule2 bounds1 bounds2 H1 H2) as H12.
  pose proof (OverlapFacts.doRangesRulesOverlap_on_bounds
                rule2 rule1 bounds2 bounds1 H2 H1) as H21.
  assert (S : Spec.overlapOnBounds bounds1 bounds2
              <-> Spec.overlapOnBounds bounds2 bounds1)
    by (unfold Spec.overlapOnBounds; tauto).
  destruct (ValidationManager.doRangesRulesOverlap rule1 rule2);
    destruct (ValidationManager.doRangesRulesOverlap rule2 rule1);
    try reflexivity.
  - symmetry. apply H21. apply S. apply H12. reflexivity.
  - apply H12. apply S. apply H21. reflexivity.
Qed.

Lemma overlap_does_not_depend_on_rule_order_witness :
  ValidationManager.doRangesRulesOverlap (Spec.ruleOf Spec.invertedRule)
                                         (Spec.ruleOf Spec.wideRule)
  = ValidationManager.doRangesRulesOverlap (Spec.ruleOf Spec.wideRule)
                                           (Spec.ruleOf Spec.invertedRule).
Proof.
  apply (overlap_does_not_depend_on_rule_order
           (Spec.ruleOf Spec.invertedRule) (Spec.ruleOf Spec.wideRule)
           Spec.invertedRule Spec.wideRule).
  - repeat split; reflexivity.
  - repeat split; reflexivity.
Defined.

(** X2: [checkOverlappingRangesRules] reports one issue for every pair of
    positions i < j whose rules [doRangesRulesOverlap] finds overlapping,
    and no other issue; the issue names the group, the two positions and the
    message built from the positions counted from one. *)
Theorem overlapping_pairs_are_exactly_reported :
  forall (groupId : string) (rules : list Js.obj)
         (issue : ValidationManager.OverlapIssue),
    In issue (ValidationManager.checkOverlappingRangesRules groupId rules)
    <-> exists (i j : nat) (ri rj : Js.obj),
          i < j
          /\ nth_error rules i = Some ri
          /\ nth_error rules j = Some rj
          /\ ValidationManager.doRangesRulesOverlap ri rj = true
          /\ issue = ValidationManager.RulePair groupId i j
                       (ValidationSpec.overlapMessage i j).
Proof.
  intros groupId rules issue.
  unfold ValidationManager.checkOverlappingRangesRules.
  rewrite in_flat_map. split.
  - intros [[[i ri] [j rj]] [Hp Hi]].
    apply PairFacts.in_pairs_indexed in Hp. destruct Hp as (Hij & Hri & Hrj).
    destruct (ValidationManager.doRangesRulesOverlap ri rj) eqn:E; [|destruct Hi].
    destruct Hi as [<-|[]].
    exists i, j, ri, rj. repeat split; assumption.
  - intros (i & j & ri & rj & Hij & Hri & Hrj & E & ->).
    exists ((i, ri), (j, rj)). split.
    + apply PairFacts.in_pairs_indexed. repeat split; assumption.
    + rewrite E. left. reflexivity.
Qed.

(** X3: rules that tile the PDT axis, each starting where the one before
    ends and the bounds rising, raise no overlap issue, whatever their
    Mean-Delay bounds. *)
Theorem tiled_rules_raise_no_overlap :
  forall (groupId : string) (rules : list Js.obj)
         (bounds : list Spec.RuleBounds),
    Forall2 Spec.carries rules bounds ->
    ValidationSpec.tiled bounds ->
    ValidationManager.checkOverlappingRangesRules groupId rules = [].
Proof.
  intros groupId rules bounds Hc Ht.
  unfold ValidationManager.checkOverlappingRangesRules.
  apply ValidationMore.flat_map_nil.
  intros [[i ri] [j rj]] Hp.
  apply PairFacts.in_pairs_indexed in Hp. destruct Hp as (Hij & Hri & Hrj).
  destruct (ValidationMore.Forall2_nth_error _ _ _ _ _ Hc Hri) as [a [Ha Ca]].
  destruct (ValidationMore.Forall2_nth_error _ _ _ _ _ Hc Hrj) as [b [Hb Cb]].
  destruct (ValidationMore.tiled_at bounds i j a b Ht Hij Ha Hb)
    as (x & x' & Hx & Hx' & Hle).
  destruct (ValidationManager.doRangesRulesOverlap ri rj) eqn:E; [|reflexivity].
  exfalso.
  apply (OverlapFacts.doRangesRulesOverlap_on_bounds ri rj a b Ca Cb) in E.
  destruct E as [E _]. rewrite Hx, Hx' in E. simpl in E. lia.
Qed.

Lemma tiled_rules_raise_no_overlap_witness :
  ValidationManager.checkOverlappingRangesRules "ranges-0"
    (map Spec.ruleOf ValidationSpec.fourTiles) = [].
Proof.
  apply (tiled_rules_raise_no_overlap "ranges-0"
           (map Spec.ruleOf ValidationSpec.fourTiles) ValidationSpec.fourTiles).
  - repeat constructor.
  - unfold ValidationSpec.fourTiles.
    apply (ValidationSpec.tiled_cons _ _ _ 13%Z); [reflexivity | reflexivity | simpl; lia |].
    apply (ValidationSpec.tiled_cons _ _ _ 18%Z); [reflexivity | reflexivity | simpl; lia |].
    apply (ValidationSpec.tiled_cons _ _ _ 23%Z); [reflexivity | reflexivity | exact I |].
    apply ValidationSpec.tiled_one.
Defined.

(** X4: for two groups whose common parameters are objects with distinct
    keys and no [undefined] value, [areGroupsEqual] gives the same answer
    whichever group comes first. *)
Theorem areGroupsEqual_is_symmetric :
  forall g1 g2 : Model.GroupView,
    ValidationSpec.plainParams (Model.commonParams g1) ->
    ValidationSpec.plainParams (Model.commonParams g2) ->
    ValidationManager.areGroupsEqual g1 g2
    = ValidationManager.areGroupsEqual g2 g1.
Proof.
  intros g1 g2 H1 H2.
  destruct (ValidationManager.areGroupsEqual g1 g2) eqn:E12;
    destruct (ValidationManager.areGroupsEqual g2 g1) eqn:E21;
    try reflexivity.
  - apply (ValidationMore.areGroupsEqual_flip g1 g2 H1) in E12. congruence.
  - apply (ValidationMore.areGroupsEqual_flip g2 g1 H2) in E21. congruence.
Qed.

Lemma areGroupsEqual_is_symmetric_witness :
  ValidationManager.areGroupsEqual Spec.minuteRangeGroup Spec.minuteGroup
  = ValidationManager.areGroupsEqual Spec.minuteGroup Spec.minuteRangeGroup.
Proof.
  apply (areGroupsEqual_is_symmetric Spec.minuteRangeGroup Spec.minuteGroup).
  - split.
    + repeat constructor; simpl; intuition discriminate.
    + repeat constructor; simpl; discriminate.
  - split.
    + repeat constructor; simpl; intuition discriminate.
    + repeat constructor; simpl; discriminate.
Defined.

(** X5: run on no earlier issue, [checkDuplicateGroups] reports a
    duplicate for exactly the pairs of groups, the first before the second
    in the list, that have the same type and that [areGroupsEqual] finds
    equal; the issue names the two ids, the type and the two titles. *)
Theorem duplicate_groups_are_exactly_reported :
  forall (groups : list Model.GroupView) (d : ValidationManager.DuplicateIssue),
    In d (ValidationManager.duplicateGroups
            (ValidationManager.checkDuplicateGroups groups
               ValidationManager.noIssues))
    <-> exists g1 g2 : Model.GroupView,
          In (g1, g2) (Grouping.pairs groups)
          /\ Model.type g1 = Model.type g2
          /\ ValidationManager.areGroupsEqual g1 g2 = true
          /\ d = ValidationManager.mkDuplicate (Model.id g1) (Model.id g2)
                   (Model.type g1) (ValidationSpec.duplicateMessage g1 g2).
Proof.
  intros groups d.
  unfold ValidationManager.checkDuplicateGroups. cbv zeta. simpl.
  rewrite in_flat_map. split.
  - intros [[ty typeGroups] [Hg Hd]].
    pose proof (ValidationMore.groupBy_filter Model.type groups ty typeGroups Hg)
      as Hf.
    unfold ValidationManager.duplicatesOfType in Hd.
    destruct (Nat.leb (List.length typeGroups) 1); [destruct Hd|].
    apply in_flat_map in Hd. destruct Hd as [[g1 g2] [Hp Hd]].
    destruct (ValidationManager.areGroupsEqual g1 g2) eqn:E; [|destruct Hd].
    destruct Hd as [<-|[]].
    rewrite Hf in Hp. apply ValidationMore.in_pairs_filter in Hp.
    destruct Hp as (Hp & T1 & T2).
    unfold Grouping.keyed in T1, T2.
    apply String.eqb_eq in T1, T2.
    exists g1, g2. rewrite T1, T2. repeat split; try assumption.
  - intros (g1 & g2 & Hp & Hty & E & ->).
    assert (H1 : In g1 groups).
    { apply PairFacts.in_pairs in Hp. destruct Hp as (i & j & _ & Hi & _).
      eapply nth_error_In; eassumption. }
    exists (Model.type g1,
            filter (Grouping.keyed Model.type (Model.type g1)) groups).
    split; [apply ValidationMore.groupBy_has_filter; exact H1|].
    assert (Hp' : In (g1, g2)
                     (Grouping.pairs
                        (filter (Grouping.keyed Model.type (Model.type g1))
                                groups))).
    { apply ValidationMore.in_pairs_filter. split; [exact Hp|].
      unfold Grouping.keyed. rewrite <- Hty, String.eqb_refl. tauto. }
    unfold ValidationManager.duplicatesOfType. cbv beta iota.
    match goal with
    | |- context [Nat.leb ?n 1] => destruct (Nat.leb_spec n 1) as [Hle|Hlt]
    end.
    + exfalso. apply PairFacts.in_pairs in Hp'.
      destruct Hp' as (i & j & Hij & Hi & Hj).
      assert (Hlen : nth_error
                       (filter (Grouping.keyed Model.type (Model.type g1))
                               groups) j <> None)
        by (intros Hn; exact (eq_ind None (fun o => match o with
                                                    | None => True
                                                    | Some _ => False
                                                    end) I _ (eq_trans (eq_sym Hn) Hj))).
      apply nth_error_Some in Hlen. unfold Model.GroupView in *. lia.
    + apply in_flat_map. exists (g1, g2). split; [exact Hp'|].
      rewrite E. left. reflexivity.
Qed.

(* ================================================================== *)
(** ** The store under the mutators *)
(* ================================================================== *)

Module StoreMore.
Import Js Grouping Model ConfigManager Spec RebuildSpec StoreSpec.

Lemma replaceAt_length {A : Type} (l : list A) (n : nat) (x : A) :
  List.length (replaceAt l n x) = List.length l.
Proof.
  revert n. induction l as [|a l IH]; intros [|n]; simpl; auto.
Qed.

Lemma nth_replaceAt_same {A : Type} (l : list A) (n : nat) (x d : A) :
  n < List.length l -> nth n (replaceAt l n x) d = x.
Proof.
  revert n. induction l as [|a l IH]; intros [|n] H; simpl in *; try lia.
  - reflexivity.
  - apply IH. lia.
Qed.

Lemma nth_replaceAt_other {A : Type} (l : list A) (n m : nat) (x d : A) :
  n <> m -> nth m (replaceAt l n x) d = nth m l d.
Proof.
  revert n m. induction l as [|a l IH]; intros [|n] [|m] H; simpl; try reflexivity.
  - lia.
  - apply IH. lia.
Qed.

Lemma getGroup_putGroup_same (gs : list (string * StoredGroup)) (k : string)
      (g : StoredGroup) :
  getGroup (putGroup gs k g) k = Some g.
Proof.
  induction gs as [|[k' g'] gs IH]; simpl.
  - rewrite String.eqb_refl. reflexivity.
  - destruct (String.eqb_spec k k') as [->|Hne]; simpl.
    + rewrite String.eqb_refl. reflexivity.
    + destruct (String.eqb_spec k k'); [congruence | exact IH].
Qed.

Lemma getGroup_putGroup_other (gs : list (string * StoredGroup)) (k k' : string)
      (g : StoredGroup) :
  k' <> k -> getGroup (putGroup gs k g) k' = getGroup gs k'.
Proof.
  intros Hne. induction gs as [|[k0 g0] gs IH]; simpl.
  - destruct (String.eqb_spec k' k); [congruence | reflexivity].
  - destruct (String.eqb_spec k k0) as [->|Hk]; simpl.
    + destruct (String.eqb_spec k' k0); [congruence | reflexivity].
    + destruct (String.eqb_spec k' k0); [reflexivity | exact IH].
Qed.

Lemma getGroup_In (gs : list (string * StoredGroup)) (k : string)
      (g : StoredGroup) :
  getGroup gs k = Some g -> In (k, g) gs.
Proof.
  induction gs as [|[k' g'] gs IH]; simpl; [discriminate|].
  destruct (String.eqb_spec k k') as [->|Hne].
  - intros E. injection E as ->. left. reflexivity.
  - intros H. right. apply IH. exact H.
Qed.

Lemma In_getGroup (gs : list (string * StoredGroup)) (k : string)
      (g : StoredGroup) :
  NoDup (map fst gs) -> In (k, g) gs -> getGroup gs k = Some g.
Proof.
  induction gs as [|[k' g'] gs IH]; simpl; intros Hnd H; [destruct H|].
  apply NoDup_cons_iff in Hnd. destruct Hnd as [Hk' Hnd].
  destruct (String.eqb_spec k k') as [->|Hne].
  - destruct H as [E|H]; [congruence|].
    exfalso. apply Hk'. apply (in_map fst) in H. exact H.
  - destruct H as [E|H]; [congruence|]. apply IH; assumption.
Qed.

Lemma getGroup_None (gs : list (string * StoredGroup)) (k : string) :
  getGroup gs k = None <-> ~ In k (map fst gs).
Proof.
  induction gs as [|[k' g'] gs IH]; simpl; [tauto|].
  destruct (String.eqb_spec k k') as [->|Hne].
  - split; [discriminate | intros H; exfalso; apply H; left; reflexivity].
  - rewrite IH. split; [intros H [E|Hin]; [congruence | exact (H Hin)] | tauto].
Qed.

Lemma putGroup_keys_present (gs : list (string * StoredGroup)) (k : string)
      (g : StoredGroup) :
  In k (map fst gs) -> map fst (putGroup gs k g) = map fst gs.
Proof.
  induction gs as [|[k' g'] gs IH]; simpl; intros H; [destruct H|].
  destruct (String.eqb_spec k k') as [->|Hne]; simpl; [reflexivity|].
  f_equal. apply IH. destruct H as [E|H]; [congruence | exact H].
Qed.

Lemma in_putGroup (gs : list (string * StoredGroup)) (k : string)
      (g : StoredGroup) (p : string * StoredGroup) :
  In p (putGroup gs k g) -> p = (k, g) \/ In p gs.
Proof.
  induction gs as [|[k' g'] gs IH]; simpl.
  - intros [<-|[]]. left. reflexivity.
  - destruct (String.eqb_spec k k') as [->|Hne]; simpl.
    + intros [<-|H]; [left; reflexivity | right; right; exact H].
    + intros [<-|H]; [right; left; reflexivity|].
      destruct (IH H) as [->|H']; [left; reflexivity | right; right; exact H'].
Qed.

Lemma removeGroup_keys (gs : list (string * StoredGroup)) (k : string) :
  map fst (removeGroup gs k) = filter (fun k' => negb (k =? k')) (map fst gs).
Proof.
  unfold removeGroup. induction gs as [|[k' g'] gs IH]; simpl; [reflexivity|].
  destruct (k =? k'); simpl; [exact IH | f_equal; exact IH].
Qed.

Lemma NoDup_filter {A : Type} (f : A -> bool) (l : list A) :
  NoDup l -> NoDup (filter f l).
Proof.
  induction 1 as [|a l Ha Hl IH]; simpl; [constructor|].
  destruct (f a); [|exact IH].
  constructor; [|exact IH]. intros H. apply filter_In in H. tauto.
Qed.

Lemma NoDup_snoc {A : Type} (l : list A) (x : A) :
  NoDup l -> ~ In x l -> NoDup (l ++ [x]).
Proof.
  induction 1 as [|a l Ha Hl IH]; simpl; intros Hx.
  - constructor; [tauto | constructor].
  - constructor.
    + rewrite in_app_iff. simpl. intros [H|[H|[]]]; [tauto|]. apply Hx. left. symmetry. exact H.
    + apply IH. tauto.
Qed.

(** *** The invariant *)

Lemma consistent_frame (cm cm' : t) :
  groups cm' = groups cm ->
  idCounter cm <= idCounter cm' ->
  List.length (paramObjects (heap cm)) <= List.length (paramObjects (heap cm')) ->
  List.length (ruleArrays (heap cm)) <= List.length (ruleArrays (heap cm')) ->
  consistent cm -> consistent cm'.
Proof.
  intros Eg Hc Hp Hr (W & Hnd & Hid).
  unfold consistent, wellFormed. rewrite Eg.
  split; [|split; assumption].
  eapply Forall_impl; [|exact W].
  intros p ((ty & n & H1 & H2 & H3) & H4 & H5).
  split; [exists ty, n; repeat split; trivial; lia | lia].
Qed.

Lemma consistent_updateConfigFromGroups (cm : t) :
  consistent cm -> consistent (updateConfigFromGroups cm).
Proof. apply consistent_frame; simpl; auto. Qed.

Lemma consistent_saveConfig (cm : t) :
  consistent cm -> consistent (saveConfig cm).
Proof. apply consistent_frame; simpl; auto. Qed.

Lemma consistent_storeParams (cm : t) (a : address) (o : obj) :
  consistent cm -> consistent (setHeap cm (storeParams (heap cm) a o)).
Proof.
  apply consistent_frame; simpl; auto. rewrite replaceAt_length. auto.
Qed.

Lemma consistent_storeRules (cm : t) (a : address) (rs : list obj) :
  consistent cm -> consistent (setHeap cm (storeRules (heap cm) a rs)).
Proof.
  apply consistent_frame; simpl; auto. rewrite replaceAt_length. auto.
Qed.

Lemma consistent_fresh_id (cm : t) (ty : string) :
  consistent cm -> In ty sectionKinds ->
  ~ In (makeId ty (idCounter cm)) (map fst (groups cm)).
Proof. intros (W & _) Hty. apply RebuildFacts.fresh_id; assumption. Qed.

(** Filing a new group under the next id. *)
Lemma consistent_append (cm : t) (ty : string) (g : StoredGroup) (h : Heap) :
  consistent cm -> In ty sectionKinds ->
  id g = makeId ty (idCounter cm) -> type g = ty ->
  List.length (paramObjects (heap cm)) <= List.length (paramObjects h) ->
  List.length (ruleArrays (heap cm)) <= List.length (ruleArrays h) ->
  commonParams g < List.length (paramObjects h) ->
  rules g < List.length (ruleArrays h) ->
  consistent (mk (config cm)
                 (putGroup (groups cm) (makeId ty (idCounter cm)) g)
                 (S (idCounter cm)) h (saved cm)).
Proof.
  intros C Hty Hid Htype Hp Hr Hgp Hgr.
  pose proof (consistent_fresh_id cm ty C Hty) as Hfresh.
  destruct C as (W & Hnd & Hids).
  rewrite RebuildFacts.putGroup_fresh by exact Hfresh.
  unfold consistent, wellFormed. simpl.
  split; [|split].
  - apply Forall_app. split.
    + eapply Forall_impl; [|exact W].
      intros p ((ty' & n & H1 & H2 & H3) & H4 & H5).
      split; [exists ty', n; repeat split; trivial; lia | lia].
    + constructor; [|constructor]. simpl.
      split; [exists ty, (idCounter cm); repeat split; trivial; lia | lia].
  - rewrite map_app. simpl. apply NoDup_snoc; assumption.
  - apply Forall_app. split; [exact Hids|].
    constructor; [|constructor]. simpl. rewrite Htype. split; assumption.
Qed.

End StoreMore.

Module StoreSteps.
Import Js Grouping Model ConfigManager Spec RebuildSpec StoreSpec StoreMore.

Lemma consistent_putFresh (cm : t) (ty : string) (g : GroupView) :
  consistent cm -> In ty sectionKinds ->
  id g = makeId ty (idCounter cm) -> type g = ty ->
  consistent (putFresh (setIdCounter cm (S (idCounter cm))) g).
Proof.
  intros C Hty Hid Htype.
  unfold putFresh, allocParams, allocRules, setHeap, setGroups, setIdCounter.
  simpl. rewrite Hid.
  apply (consistent_append cm ty); simpl; trivial;
    rewrite ?length_app; simpl; lia.
Qed.

Lemma consistent_addGroup (cm : t) (sectionType : string)
      (templateGroup : option StoredGroup) :
  consistent cm -> In sectionType sectionKinds -> allocated cm templateGroup ->
  consistent (snd (addGroup cm sectionType templateGroup)).
Proof.
  intros C Hty Ha. unfold addGroup. cbv zeta. cbn [snd].
  apply consistent_updateConfigFromGroups.
  destruct templateGroup as [template|].
  - destruct (String.eqb_spec (type template) sectionType) as [E|Hne]; cbn [negb].
    + destruct Ha as [Hp Hr].
      unfold setGroups, setIdCounter. simpl.
      apply (consistent_append cm sectionType); simpl; trivial; lia.
    + apply (consistent_putFresh cm sectionType); trivial.
  - apply (consistent_putFresh cm sectionType); trivial.
Qed.

Lemma consistent_group (cm : t) (groupId : string) (group : StoredGroup) :
  consistent cm -> getGroup (groups cm) groupId = Some group ->
  id group = groupId /\ In (type group) sectionKinds
  /\ commonParams group < List.length (paramObjects (heap cm))
  /\ rules group < List.length (ruleArrays (heap cm))
  /\ exists ty n, In ty sectionKinds /\ n < idCounter cm /\ groupId = makeId ty n.
Proof.
  intros (W & Hnd & Hids) Hg. apply getGroup_In in Hg.
  unfold wellFormed in W. rewrite Forall_forall in W, Hids.
  destruct (W _ Hg) as (Hf & Hp & Hr). destruct (Hids _ Hg) as (Hi & Ht).
  simpl in *. tauto.
Qed.

Lemma consistent_cloneGroup (cm : t) (groupId : string) :
  consistent cm -> consistent (snd (cloneGroup cm groupId)).
Proof.
  intros C. unfold cloneGroup.
  destruct (getGroup (groups cm) groupId) as [sourceGroup|] eqn:Hg; [|exact C].
  cbv zeta. cbn [snd]. apply consistent_updateConfigFromGroups.
  destruct (consistent_group cm groupId sourceGroup C Hg) as (_ & Ht & _).
  apply (consistent_putFresh cm (type sourceGroup)); trivial.
Qed.

Lemma consistent_deleteGroup (cm : t) (sectionType groupId : string) :
  consistent cm -> consistent (snd (deleteGroup cm sectionType groupId)).
Proof.
  intros C. unfold deleteGroup.
  destruct (getGroup (groups cm) groupId) as [group|]; [|exact C].
  cbn [snd]. apply consistent_updateConfigFromGroups.
  destruct C as (W & Hnd & Hids). unfold wellFormed in W.
  unfold consistent, wellFormed, setGroups. cbn [groups idCounter heap].
  split; [|split].
  - unfold removeGroup. apply Forall_forall. intros p Hp.
    apply filter_In in Hp. rewrite Forall_forall in W. apply W. tauto.
  - rewrite removeGroup_keys. apply NoDup_filter. exact Hnd.
  - unfold removeGroup. apply Forall_forall. intros p Hp.
    apply filter_In in Hp. rewrite Forall_forall in Hids. apply Hids. tauto.
Qed.

Lemma consistent_updateGroupCommonParam (cm : t) (groupId paramName : string)
      (v : value) :
  consistent cm ->
  consistent (snd (updateGroupCommonParam cm groupId paramName v)).
Proof.
  intros C. unfold updateGroupCommonParam.
  destruct (getGroup (groups cm) groupId) as [group|]; [|exact C].
  cbv zeta. cbn [snd]. apply consistent_updateConfigFromGroups.
  apply consistent_storeParams. exact C.
Qed.

Lemma consistent_addRule (cm : t) (groupId : string) (format : value) :
  consistent cm -> consistent (snd (addRule cm groupId format)).
Proof.
  intros C. unfold addRule.
  destruct (getGroup (groups cm) groupId) as [group|]; [|exact C].
  cbv zeta. cbn [snd]. apply consistent_updateConfigFromGroups.
  apply consistent_storeRules. exact C.
Qed.

Lemma consistent_updateRule (cm : t) (groupId : string) (ruleIndex : Z)
      (fieldName : string) (v : value) :
  consistent cm ->
  consistent (snd (updateRule cm groupId ruleIndex fieldName v)).
Proof.
  intros C. unfold updateRule.
  destruct (getGroup (groups cm) groupId) as [group|]; [|exact C].
  cbv zeta.
  destruct (ruleAt (rulesAt (heap cm) (rules group)) ruleIndex); [|exact C].
  cbn [snd]. apply consistent_updateConfigFromGroups.
  apply consistent_storeRules. exact C.
Qed.

Lemma consistent_deleteRule (cm : t) (groupId : string) (ruleIndex : Z) :
  consistent cm -> consistent (snd (deleteRule cm groupId ruleIndex)).
Proof.
  intros C. unfold deleteRule.
  destruct (getGroup (groups cm) groupId) as [group|]; [|exact C].
  cbv zeta.
  destruct (ruleAt (rulesAt (heap cm) (rules group)) ruleIndex); [|exact C].
  cbn [snd]. apply consistent_updateConfigFromGroups.
  apply consistent_storeRules. exact C.
Qed.

Lemma consistent_updateGroupTitle (cm : t) (groupId newTitle : string) :
  consistent cm -> consistent (snd (updateGroupTitle cm groupId newTitle)).
Proof.
  intros C. unfold updateGroupTitle.
  destruct (getGroup (groups cm) groupId) as [group|] eqn:Hg; [|exact C].
  cbv zeta. cbn [snd].
  apply consistent_saveConfig, consistent_updateConfigFromGroups.
  destruct (consistent_group cm groupId group C Hg)
    as (Hid & Hty & Hp & Hr & Hfmt).
  assert (Hin : In groupId (map fst (groups cm))).
  { apply getGroup_In in Hg. apply (in_map fst) in Hg. exact Hg. }
  destruct C as (W & Hnd & Hids). unfold wellFormed in W.
  unfold consistent, wellFormed, setGroups. cbn [groups idCounter heap].
  rewrite putGroup_keys_present by exact Hin.
  split; [|split; [exact Hnd|]].
  - apply Forall_forall. intros p Hp'. apply in_putGroup in Hp'.
    destruct Hp' as [->|Hp']; [|rewrite Forall_forall in W; apply W; exact Hp'].
    simpl. destruct Hfmt as (ty & n & H1 & H2 & H3).
    split; [exists ty, n; tauto | tauto].
  - apply Forall_forall. intros p Hp'. apply in_putGroup in Hp'.
    destruct Hp' as [->|Hp']; [|rewrite Forall_forall in Hids; apply Hids; exact Hp'].
    simpl. tauto.
Qed.

Lemma step_consistent (cm cm' : t) :
  step cm cm' -> consistent cm -> consistent cm'.
Proof.
  intros [ty tpl Hty Ha | gid | ty gid | gid p v | gid f | gid i f v | gid i | gid s] C.
  - apply consistent_addGroup; assumption.
  - apply consistent_cloneGroup; assumption.
  - apply consistent_deleteGroup; assumption.
  - apply consistent_updateGroupCommonParam; assumption.
  - apply consistent_addRule; assumption.
  - apply consistent_updateRule; assumption.
  - apply consistent_deleteRule; assumption.
  - apply consistent_updateGroupTitle; assumption.
Qed.

Lemma step_counter (cm cm' : t) : step cm cm' -> idCounter cm <= idCounter cm'.
Proof.
  intros [ty tpl Hty Ha | gid | ty gid | gid p v | gid f | gid i f v | gid i | gid s].
  - unfold addGroup. cbv zeta. cbn [snd].
    destruct tpl as [template|]; [destruct (negb (type template =? ty))|];
      simpl; lia.
  - unfold cloneGroup. destruct (getGroup (groups cm) gid); simpl; lia.
  - unfold deleteGroup. destruct (getGroup (groups cm) gid); simpl; lia.
  - unfold updateGroupCommonParam. destruct (getGroup (groups cm) gid); simpl; lia.
  - unfold addRule. destruct (getGroup (groups cm) gid); simpl; lia.
  - unfold updateRule. destruct (getGroup (groups cm) gid); [|simpl; lia].
    cbv zeta. destruct (ruleAt _ _); simpl; lia.
  - unfold deleteRule. destruct (getGroup (groups cm) gid); [|simpl; lia].
    cbv zeta. destruct (ruleAt _ _); simpl; lia.
  - unfold updateGroupTitle. destruct (getGroup (groups cm) gid); simpl; lia.
Qed.

Lemma steps_consistent (cm cm' : t) :
  steps cm cm' -> consistent cm ->
  consistent cm' /\ idCounter cm <= idCounter cm'.
Proof.
  induction 1 as [|cm1 cm2 H12 IH Hs]; intros C; [split; [exact C | lia]|].
  destruct (IH C) as [C1 Hle]. split.
  - apply (step_consistent cm1 cm2 Hs C1).
  - pose proof (step_counter cm1 cm2 Hs). lia.
Qed.

End StoreSteps.


(* ================================================================== *)
(** ** The store after a rebuild *)
(* ================================================================== *)

Module RebuildMore.
Import Js Grouping Model ConfigManager Spec RebuildSpec StoreSpec StoreMore.

Lemma byType_app (n : nat) (gs gs' : list GroupView) :
  numberedByType n gs -> numberedByType (n + List.length gs) gs' ->
  numberedByType n (gs ++ gs').
Proof.
  intros H. revert gs'.
  induction H as [n|n g gs Hty Hid H IH]; intros gs' H'; cbn [app List.length] in *.
  - rewrite Nat.add_0_r in H'. exact H'.
  - constructor; trivial. apply IH.
    replace (S n + List.length gs) with (n + S (List.length gs)) by lia. exact H'.
Qed.

Lemma byType_map (f : nat * (string * list Entry.t) -> GroupView) (ty : string)
      (l : list (string * list Entry.t)) (n : nat) :
  In ty sectionKinds ->
  (forall i p, id (f (i, p)) = makeId ty i /\ type (f (i, p)) = ty) ->
  numberedByType n (map f (numbered n l)).
Proof.
  intros Hty Hf. unfold numbered. revert n.
  induction l as [|p l IH]; intros n; simpl; constructor.
  - rewrite (proj2 (Hf n p)). exact Hty.
  - rewrite (proj2 (Hf n p)). apply Hf.
  - apply IH.
Qed.

Lemma byType_rounding (l : list Entry.t) (n m : nat) :
  numberedByType (n + m)
    (map (roundingGroup n) (combine (seq m (List.length l)) l)).
Proof.
  revert m. induction l as [|e l IH]; intros m; simpl; constructor.
  - simpl. tauto.
  - reflexivity.
  - replace (S (n + m)) with (n + S m) by lia. apply IH.
Qed.

Lemma groupsOfSection_byType (n : nat) (section : Section.t) :
  numberedByType n (groupsOfSection n section).
Proof.
  unfold groupsOfSection.
  destruct (Section.display_format section) as [es|].
  { apply (byType_map _ "display-format"); [simpl; tauto|].
    intros i [k l]. split; reflexivity. }
  destruct (Section.ranges section) as [es|].
  { apply (byType_map _ "ranges"); [simpl; tauto|].
    intros i [k l]. split; reflexivity. }
  destruct (Section.capping section) as [es|].
  { apply (byType_map _ "capping"); [simpl; tauto|].
    intros i [k l]. split; reflexivity. }
  destruct (Section.rounding section) as [es|]; [|constructor].
  unfold indexed. rewrite <- (Nat.add_0_r n) at 1. apply byType_rounding.
Qed.

Lemma rebuiltGroups_byType (n : nat) (sections : list Section.t) :
  numberedByType n (rebuiltGroups n sections).
Proof.
  revert n. induction sections as [|s sections IH]; intros n; simpl.
  - constructor.
  - apply byType_app; [apply groupsOfSection_byType | apply IH].
Qed.

Lemma byType_nth (n : nat) (gs : list GroupView) (i : nat) (g : GroupView) :
  numberedByType n gs -> nth_error gs i = Some g ->
  In (type g) sectionKinds /\ id g = makeId (type g) (n + i).
Proof.
  intros H. revert i. induction H as [n|n g' gs Hty Hid H IH]; intros i Hi.
  - destruct i; discriminate Hi.
  - destruct i as [|i]; simpl in Hi.
    + injection Hi as <-. rewrite Nat.add_0_r. tauto.
    + replace (n + S i) with (S n + i) by lia. apply IH. exact Hi.
Qed.

Lemma consistent_install (cm : t) (g : GroupView) :
  consistent cm -> In (type g) sectionKinds ->
  id g = makeId (type g) (idCounter cm) ->
  consistent (install cm g).
Proof.
  intros C Hty Hid.
  unfold install, allocParams, allocRules. simpl. rewrite Hid.
  apply (consistent_append cm (type g)); simpl; trivial;
    rewrite ?length_app; simpl; lia.
Qed.

Lemma consistent_fold_install (gs : list GroupView) (cm : t) :
  consistent cm -> numberedByType (idCounter cm) gs ->
  consistent (fold_left install gs cm)
  /\ idCounter (fold_left install gs cm) = idCounter cm + List.length gs
  /\ List.length (groups (fold_left install gs cm))
     = List.length (groups cm) + List.length gs.
Proof.
  revert cm. induction gs as [|g gs IH]; intros cm C N; simpl.
  - split; [exact C | split; lia].
  - inversion N as [|? ? ? Hty Hid Hgs]; subst.
    pose proof (consistent_install cm g C Hty Hid) as C'.
    assert (Hc : idCounter (install cm g) = S (idCounter cm)) by reflexivity.
    assert (Hl : List.length (groups (install cm g)) = S (List.length (groups cm))).
    { unfold install. simpl.
      rewrite RebuildFacts.putGroup_fresh.
      - rewrite length_app. simpl. lia.
      - rewrite Hid. apply consistent_fresh_id; assumption. }
    rewrite <- Hc in Hgs.
    destruct (IH (install cm g) C' Hgs) as (C2 & Hc2 & Hl2).
    split; [exact C2|]. split; lia.
Qed.

Lemma consistent_rebuild_from (sections : list Section.t) (cm : t) :
  consistent cm ->
  let cm' := fold_left (fun cm section =>
                          fold_left install
                            (groupsOfSection (idCounter cm) section) cm)
                       sections cm in
  consistent cm'
  /\ idCounter cm' + List.length (groups cm)
     = idCounter cm + List.length (groups cm').
Proof.
  revert cm. induction sections as [|s sections IH]; intros cm C; simpl.
  - split; [exact C | lia].
  - destruct (consistent_fold_install (groupsOfSection (idCounter cm) s) cm C
                (groupsOfSection_byType _ _)) as (C' & Hc & Hl).
    destruct (IH _ C') as (C2 & Hc2).
    split; [exact C2|]. lia.
Qed.

Lemma consistent_empty (c : Config) (h : Heap) (s : list Config) :
  consistent (mk c [] 0 h s).
Proof.
  unfold consistent, wellFormed. simpl. repeat split; constructor.
Qed.

End RebuildMore.

(** X7: whatever the index held, after [rebuildGroupsMapping] the store
    is consistent, the counter is the number of groups, the i-th group has
    the id made of its type and i, its type is one of the four section types,
    and looking its id up gives that group. *)
Theorem rebuild_numbers_the_groups_afresh :
  forall cm : ConfigManager.t,
    let rebuilt := ConfigManager.rebuildGroupsMapping cm in
    StoreSpec.consistent rebuilt
    /\ ConfigManager.idCounter rebuilt
       = List.length (ConfigManager.allGroups rebuilt)
    /\ forall (i : nat) (g : Model.GroupView),
         nth_error (ConfigManager.allGroups rebuilt) i = Some g ->
         In (Model.type g) Spec.sectionKinds
         /\ Model.id g = ConfigManager.makeId (Model.type g) i
         /\ StoreSpec.viewOf rebuilt (Model.id g) = Some g.
Proof.
  intros cm rebuilt.
  pose proof (RebuildMore.consistent_rebuild_from
                (Model.pdt (ConfigManager.config cm))
                (ConfigManager.mk (ConfigManager.config cm) [] 0
                                  (ConfigManager.heap cm) (ConfigManager.saved cm))
                (RebuildMore.consistent_empty _ _ _)) as H.
  cbv zeta in H. fold (ConfigManager.rebuildGroupsMapping cm) in H.
  fold rebuilt in H. simpl in H. destruct H as (C & Hc).
  split; [exact C|]. split.
  - unfold ConfigManager.allGroups. rewrite length_map. lia.
  - intros i g Hi.
    pose proof (RebuildFacts.allGroups_rebuildGroupsMapping cm) as Ha.
    fold rebuilt in Ha.
    pose proof (RebuildMore.rebuiltGroups_byType 0
                  (Model.pdt (ConfigManager.config cm))) as Hn.
    rewrite <- Ha in Hn.
    destruct (RebuildMore.byType_nth 0 _ i g Hn Hi) as [Hty Hid].
    split; [exact Hty|]. split; [exact Hid|].
    unfold ConfigManager.allGroups in Hi.
    rewrite nth_error_map in Hi.
    destruct (nth_error (ConfigManager.groups rebuilt) i) as [[k sg]|] eqn:E;
      [|discriminate Hi].
    simpl in Hi. injection Hi as Hi.
    apply nth_error_In in E.
    destruct C as (_ & Hnd & Hids). rewrite Forall_forall in Hids.
    destruct (Hids _ E) as [Hk _]. simpl in Hk.
    unfold StoreSpec.viewOf.
    assert (Model.id g = k) as -> by (rewrite <- Hi; exact Hk).
    rewrite (StoreMore.In_getGroup _ _ _ Hnd E). simpl. rewrite Hi. reflexivity.
Qed.

(* ================================================================== *)
(** ** Adding, cloning, editing and deleting *)
(* ================================================================== *)

Module ViewFacts.
Import Js Grouping Model ConfigManager Spec RebuildSpec StoreSpec StoreMore StoreSteps.

Lemma get_set_same (o : obj) (k : string) (v : value) : get (set o k v) k = v.
Proof.
  induction o as [|[k' v'] o IH]; simpl.
  - rewrite String.eqb_refl. reflexivity.
  - destruct (String.eqb_spec k k') as [->|Hne]; simpl.
    + rewrite String.eqb_refl. reflexivity.
    + destruct (String.eqb_spec k k'); [congruence | exact IH].
Qed.

Lemma get_set_other (o : obj) (k k' : string) (v : value) :
  k' <> k -> get (set o k v) k' = get o k'.
Proof.
  intros Hne. induction o as [|[k0 v0] o IH]; simpl.
  - destruct (String.eqb_spec k' k); [congruence | reflexivity].
  - destruct (String.eqb_spec k k0) as [->|Hk]; simpl.
    + destruct (String.eqb_spec k' k0); [congruence | reflexivity].
    + destruct (String.eqb_spec k' k0); [reflexivity | exact IH].
Qed.

Lemma replaceAt_split {A : Type} (l : list A) (n : nat) (x y : A) :
  nth_error l n = Some y ->
  replaceAt l n x = firstn n l ++ [x] ++ skipn (S n) l.
Proof.
  revert n. induction l as [|a l IH]; intros [|n] H; simpl in *; try discriminate.
  - reflexivity.
  - f_equal. apply IH. exact H.
Qed.

Lemma removeAt_split {A : Type} (l : list A) (n : nat) :
  removeAt l n = firstn n l ++ skipn (S n) l.
Proof.
  revert n. induction l as [|a l IH]; intros [|n]; simpl; try reflexivity.
  f_equal. apply IH.
Qed.

Lemma view_more_heap (h : Heap) (ps : list obj) (rs : list (list obj))
      (g : StoredGroup) :
  commonParams g < List.length (paramObjects h) ->
  rules g < List.length (ruleArrays h) ->
  view (mkHeap (paramObjects h ++ ps) (ruleArrays h ++ rs)) g = view h g.
Proof.
  intros Hp Hr. unfold view, paramsAt, rulesAt. simpl.
  rewrite !app_nth1 by assumption. reflexivity.
Qed.

Lemma view_storeParams_other (h : Heap) (a : address) (o : obj) (g : StoredGroup) :
  commonParams g <> a -> view (storeParams h a o) g = view h g.
Proof.
  intros H. unfold view, paramsAt, rulesAt, storeParams. simpl.
  rewrite nth_replaceAt_other by congruence. reflexivity.
Qed.

Lemma view_storeRules_other (h : Heap) (a : address) (rs : list obj)
      (g : StoredGroup) :
  rules g <> a -> view (storeRules h a rs) g = view h g.
Proof.
  intros H. unfold view, paramsAt, rulesAt, storeRules. simpl.
  rewrite nth_replaceAt_other by congruence. reflexivity.
Qed.

Lemma viewOf_updateConfigFromGroups (cm : t) (k : string) :
  viewOf (updateConfigFromGroups cm) k = viewOf cm k.
Proof. reflexivity. Qed.

Lemma viewOf_saveConfig (cm : t) (k : string) :
  viewOf (saveConfig cm) k = viewOf cm k.
Proof. reflexivity. Qed.

(** The store after a group with fresh objects was filed under the next
    id. *)
Lemma putFresh_spec (cm : t) (ty : string) (g : GroupView) :
  consistent cm -> In ty sectionKinds ->
  id g = makeId ty (idCounter cm) ->
  let cm' := putFresh (setIdCounter cm (S (idCounter cm))) g in
  groups cm' = groups cm
               ++ [(id g, mkGroup (id g) (type g) (title g)
                                  (List.length (paramObjects (heap cm)))
                                  (List.length (ruleArrays (heap cm))))]
  /\ heap cm' = mkHeap (paramObjects (heap cm) ++ [commonParams g])
                       (ruleArrays (heap cm) ++ [rules g])
  /\ idCounter cm' = S (idCounter cm)
  /\ allGroups cm' = allGroups cm ++ [g]
  /\ viewOf cm' (id g) = Some g
  /\ forall k, k <> id g -> viewOf cm' k = viewOf cm k.
Proof.
  intros C Hty Hid cm'.
  pose proof (consistent_fresh_id cm ty C Hty) as Hfresh. rewrite <- Hid in Hfresh.
  assert (Eg : groups cm' = groups cm
               ++ [(id g, mkGroup (id g) (type g) (title g)
                                  (List.length (paramObjects (heap cm)))
                                  (List.length (ruleArrays (heap cm))))]).
  { unfold cm', putFresh, allocParams, allocRules, setHeap, setGroups, setIdCounter.
    simpl. apply RebuildFacts.putGroup_fresh. exact Hfresh. }
  assert (Eh : heap cm' = mkHeap (paramObjects (heap cm) ++ [commonParams g])
                                 (ruleArrays (heap cm) ++ [rules g])) by reflexivity.
  assert (Hold : forall p, In p (groups cm) ->
                           view (heap cm') (snd p) = view (heap cm) (snd p)).
  { intros p Hp. rewrite Eh. destruct C as (W & _). unfold wellFormed in W.
    rewrite Forall_forall in W. destruct (W p Hp) as (_ & H1 & H2).
    apply view_more_heap; assumption. }
  assert (Hnew : view (heap cm')
                      (mkGroup (id g) (type g) (title g)
                               (List.length (paramObjects (heap cm)))
                               (List.length (ruleArrays (heap cm)))) = g).
  { rewrite Eh. unfold view, paramsAt, rulesAt. simpl.
    rewrite !nth_middle. destruct g; reflexivity. }
  split; [exact Eg|]. split; [exact Eh|]. split; [reflexivity|].
  split; [|split].
  - unfold allGroups. rewrite Eg, map_app. cbn [map snd]. rewrite Hnew. f_equal.
    apply map_ext_in. exact Hold.
  - unfold viewOf. rewrite Eg.
    assert (Hg : getGroup (groups cm) (id g) = None) by (apply getGroup_None; exact Hfresh).
    clear - Hg Hnew. revert Hg. generalize (groups cm) as gs.
    induction gs as [|[k' g'] gs IH]; cbn [getGroup app]; intros Hg.
    + rewrite String.eqb_refl. cbn [option_map]. rewrite Hnew. reflexivity.
    + destruct (id g =? k'); [discriminate Hg | apply IH; exact Hg].
  - intros k Hk. unfold viewOf. rewrite Eg.
    assert (E : getGroup (groups cm ++ [(id g, mkGroup (id g) (type g) (title g)
                                  (List.length (paramObjects (heap cm)))
                                  (List.length (ruleArrays (heap cm))))]) k
                = getGroup (groups cm) k).
    { generalize (groups cm) as gs.
      induction gs as [|[k' g'] gs IH]; cbn [getGroup app].
      - destruct (String.eqb_spec k (id g)); [congruence | reflexivity].
      - destruct (k =? k'); [reflexivity | exact IH]. }
    rewrite E. destruct (getGroup (groups cm) k) as [sg|] eqn:Hg; [|reflexivity].
    cbn [option_map]. f_equal. apply (Hold (k, sg)). apply getGroup_In. exact Hg.
Qed.

End ViewFacts.

(** X8: in a consistent store, [addGroup] without a template returns
    the id made of the section type and the counter, which no group had; the
    groups are the old ones followed by the new group, with the default
    title, no common parameter and the default rules of its type; every other
    id shows the group it showed before; the counter grows by one. *)
Theorem a_new_group_is_appended_under_a_fresh_id :
  forall (cm : ConfigManager.t) (sectionType : string),
    StoreSpec.consistent cm ->
    In sectionType Spec.sectionKinds ->
    let newId := ConfigManager.makeId sectionType (ConfigManager.idCounter cm) in
    let added := ConfigManager.addGroup cm sectionType None in
    fst added = Js.VStr newId
    /\ StoreSpec.viewOf cm newId = None
    /\ ConfigManager.allGroups (snd added)
       = ConfigManager.allGroups cm
         ++ [ Model.mkGroup newId sectionType
                (Js.VStr ("New " +++ ConfigManager.sectionTypeToDisplayName sectionType))
                [] (ConfigManager.createDefaultRules sectionType) ]
    /\ (forall other : string,
          other <> newId ->
          StoreSpec.viewOf (snd added) other = StoreSpec.viewOf cm other)
    /\ ConfigManager.idCounter (snd added) = S (ConfigManager.idCounter cm).
Proof.
  intros cm sectionType C Hty newId added.
  pose proof (ViewFacts.putFresh_spec cm sectionType
                (Model.mkGroup newId sectionType
                   (Js.VStr ("New " +++ ConfigManager.sectionTypeToDisplayName sectionType))
                   [] (ConfigManager.createDefaultRules sectionType))
                C Hty eq_refl) as H.
  cbv zeta in H. destruct H as (_ & _ & Hc & Ha & _ & Hother).
  split; [reflexivity|]. split; [|split; [|split]].
  - unfold StoreSpec.viewOf.
    assert (Hn : ConfigManager.getGroup (ConfigManager.groups cm) newId = None).
    { apply StoreMore.getGroup_None.
      apply StoreMore.consistent_fresh_id; assumption. }
    rewrite Hn. reflexivity.
  - exact Ha.
  - exact Hother.
  - exact Hc.
Qed.

Lemma a_new_group_is_appended_under_a_fresh_id_witness :
  fst (ConfigManager.addGroup Spec.oneRangesGroupStore "capping" None)
  = Js.VStr "capping-1"
  /\ ConfigManager.idCounter
       (snd (ConfigManager.addGroup Spec.oneRangesGroupStore "capping" None)) = 2.
Proof.
  assert (C : StoreSpec.consistent Spec.oneRangesGroupStore).
  { apply (StoreSteps.consistent_addGroup Spec.freshStore "ranges" None).
    - apply RebuildMore.consistent_empty.
    - simpl. tauto.
    - exact I. }
  destruct (a_new_group_is_appended_under_a_fresh_id
              Spec.oneRangesGroupStore "capping" C)
    as (H1 & _ & _ & _ & H5).
  - simpl. tauto.
  - split; [exact H1 | exact H5].
Defined.

Module AliasFacts.
Import Js Grouping Model ConfigManager Spec RebuildSpec StoreSpec StoreSpec.
Import StoreMore StoreSteps ViewFacts.

(** A group a step leaves in the index was there before, with the same
    objects, or was filed under the id the counter stood at. *)
Lemma step_origin (cm cm' : t) (k : string) (g' : StoredGroup) :
  consistent cm -> step cm cm' ->
  getGroup (groups cm') k = Some g' ->
  (exists g, getGroup (groups cm) k = Some g /\ sameObjects g g')
  \/ (exists ty, In ty sectionKinds /\ k = makeId ty (idCounter cm)).
Proof.
  intros C Hs.
  assert (Hsame : forall gs', gs' = groups cm -> getGroup gs' k = Some g' ->
                  (exists g, getGroup (groups cm) k = Some g /\ sameObjects g g')
                  \/ (exists ty, In ty sectionKinds /\ k = makeId ty (idCounter cm))).
  { intros gs' -> Hg. left. exists g'. split; [exact Hg | split; reflexivity]. }
  assert (Hput : forall gs' ty g0, In ty sectionKinds ->
            gs' = putGroup (groups cm) (makeId ty (idCounter cm)) g0 ->
            getGroup gs' k = Some g' ->
            (exists g, getGroup (groups cm) k = Some g /\ sameObjects g g')
            \/ (exists ty, In ty sectionKinds /\ k = makeId ty (idCounter cm))).
  { intros gs' ty g0 Hty -> Hg.
    destruct (String.eqb_spec k (makeId ty (idCounter cm))) as [->|Hne].
    - right. exists ty. split; [exact Hty | reflexivity].
    - left. rewrite getGroup_putGroup_other in Hg by exact Hne.
      exists g'. split; [exact Hg | split; reflexivity]. }
  destruct Hs as [ty tpl Hty Ha | gid | ty gid | gid p v | gid f | gid i f v | gid i | gid s].
  - unfold addGroup. cbv zeta. cbn [snd].
    destruct tpl as [template|];
      [destruct (negb (type template =? ty))|];
      (eapply (Hput _ ty); [exact Hty | reflexivity]).
  - unfold cloneGroup.
    destruct (getGroup (groups cm) gid) as [src|] eqn:Hsrc.
    + destruct (consistent_group cm gid src C Hsrc) as (_ & Hty & _).
      cbv zeta. cbn [snd].
      eapply (Hput _ (type src)); [exact Hty | reflexivity].
    + apply Hsame. reflexivity.
  - unfold deleteGroup.
    destruct (getGroup (groups cm) gid) as [grp|] eqn:Hgrp.
    + cbn [snd]. intros Hg. left. exists g'.
      split; [|split; reflexivity].
      apply getGroup_In in Hg.
      change (In (k, g') (removeGroup (groups cm) gid)) in Hg.
      unfold removeGroup in Hg.
      apply filter_In in Hg. destruct Hg as [Hg _].
      destruct C as (_ & Hnd & _). apply In_getGroup; assumption.
    + apply Hsame. reflexivity.
  - apply Hsame. unfold updateGroupCommonParam.
    destruct (getGroup (groups cm) gid); reflexivity.
  - apply Hsame. unfold addRule.
    destruct (getGroup (groups cm) gid); reflexivity.
  - apply Hsame. unfold updateRule.
    destruct (getGroup (groups cm) gid); [|reflexivity].
    cbv zeta. destruct (ruleAt _ _); reflexivity.
  - apply Hsame. unfold deleteRule.
    destruct (getGroup (groups cm) gid); [|reflexivity].
    cbv zeta. destruct (ruleAt _ _); reflexivity.
  - unfold updateGroupTitle.
    destruct (getGroup (groups cm) gid) as [grp|] eqn:Hgrp.
    + cbv zeta. cbn [snd]. intros Hg. left.
      change (getGroup (putGroup (groups cm) gid
                          (mkGroup (id grp) (type grp)
                             (VStr (if ((type grp =? "ranges")
                                        && negb (startsWith s "Copy of"))%bool
                                    then if coversAllPositive
                                              (rulesAt (heap cm) (rules grp))
                                         then "Ranges (All Positive PDT)" else s
                                    else s))
                             (commonParams grp) (rules grp))) k = Some g') in Hg.
      destruct (String.eqb_spec k gid) as [->|Hne].
      * rewrite getGroup_putGroup_same in Hg. injection Hg as <-.
        exists grp. split; [exact Hgrp | split; reflexivity].
      * rewrite getGroup_putGroup_other in Hg by exact Hne.
        exists g'. split; [exact Hg | split; reflexivity].
    + apply Hsame. reflexivity.
Qed.

Lemma steps_origin (cm cm' : t) (k : string) (g' : StoredGroup) :
  consistent cm -> steps cm cm' ->
  getGroup (groups cm') k = Some g' ->
  (exists g, getGroup (groups cm) k = Some g /\ sameObjects g g')
  \/ (exists ty n, In ty sectionKinds /\ idCounter cm <= n /\ k = makeId ty n).
Proof.
  intros C Hs. revert k g'.
  induction Hs as [|cm1 cm2 H01 IH H12]; intros k g' Hg.
  - left. exists g'. split; [exact Hg | split; reflexivity].
  - destruct (steps_consistent cm cm1 H01 C) as [C1 Hle].
    destruct (step_origin cm1 cm2 k g' C1 H12 Hg) as [(g1 & Hg1 & S1) | (ty & Hty & ->)].
    + destruct (IH k g1 Hg1) as [(g0 & Hg0 & S0) | Hnew].
      * left. exists g0. split; [exact Hg0|].
        destruct S0, S1. split; congruence.
      * right. exact Hnew.
    + right. exists ty, (idCounter cm1). repeat split; trivial.
Qed.

(** The groups of a store keep their objects. *)
Lemma steps_keep_objects (cm cm' : t) (k : string) (g g' : StoredGroup) :
  consistent cm -> steps cm cm' ->
  getGroup (groups cm) k = Some g -> getGroup (groups cm') k = Some g' ->
  sameObjects g g'.
Proof.
  intros C Hs Hg Hg'.
  destruct (steps_origin cm cm' k g' C Hs Hg') as [(g0 & Hg0 & S0) | (ty & n & Hty & Hn & E)].
  - congruence.
  - exfalso. destruct (consistent_group cm k g C Hg) as (_ & _ & _ & _ & ty' & n' & Hty' & Hn' & E').
    rewrite E' in E. apply RebuildFacts.makeId_inj in E; trivial. lia.
Qed.

Lemma makeId_next (ty : string) (n : nat) :
  In ty sectionKinds -> makeId ty n <> makeId ty (S n).
Proof.
  intros Hty E. apply RebuildFacts.makeId_inj in E; trivial. lia.
Qed.

(** The store after a template of the section's own type was applied. *)
Lemma addGroup_template_spec (cm : t) (template : StoredGroup) :
  consistent cm -> In (type template) sectionKinds ->
  allocated cm (Some template) ->
  let newId := makeId (type template) (idCounter cm) in
  let cm' := snd (addGroup cm (type template) (Some template)) in
  fst (addGroup cm (type template) (Some template)) = VStr newId
  /\ getGroup (groups cm') newId
     = Some (mkGroup newId (type template) (title template)
                     (commonParams template) (rules template))
  /\ heap cm' = heap cm
  /\ idCounter cm' = S (idCounter cm)
  /\ consistent cm'
  /\ forall k, k <> newId -> getGroup (groups cm') k = getGroup (groups cm) k.
Proof.
  intros C Hty Ha newId cm'.
  assert (E : cm' = updateConfigFromGroups
                      (setGroups (setIdCounter cm (S (idCounter cm)))
                         (putGroup (groups cm) newId
                            (mkGroup newId (type template) (title template)
                                     (commonParams template) (rules template))))).
  { unfold cm', addGroup. cbv zeta. cbn [snd].
    rewrite String.eqb_refl. reflexivity. }
  split; [reflexivity|]. split; [|split; [|split; [|split]]].
  - rewrite E. simpl. apply getGroup_putGroup_same.
  - rewrite E. reflexivity.
  - rewrite E. reflexivity.
  - apply consistent_addGroup; assumption.
  - intros k Hk. rewrite E. simpl. apply getGroup_putGroup_other. exact Hk.
Qed.

End AliasFacts.

(** X9: two groups made by [addGroup] from one template of their own
    section type get different ids but hold the template's commonParams and
    rules objects themselves: a common parameter set through the first id is
    read through the second, and after any further calls of the mutators the
    two groups, while both exist, show equal common parameters and equal
    rules. *)
Theorem groups_made_from_one_template_share_their_objects :
  forall (cm : ConfigManager.t) (template : ConfigManager.StoredGroup),
    StoreSpec.consistent cm ->
    In (Model.type template) Spec.sectionKinds ->
    StoreSpec.allocated cm (Some template) ->
    let sectionType := Model.type template in
    let first := ConfigManager.addGroup cm sectionType (Some template) in
    let second := ConfigManager.addGroup (snd first) sectionType (Some template) in
    let id1 := ConfigManager.makeId sectionType (ConfigManager.idCounter cm) in
    let id2 := ConfigManager.makeId sectionType (S (ConfigManager.idCounter cm)) in
    fst first = Js.VStr id1
    /\ fst second = Js.VStr id2
    /\ id1 <> id2
    /\ (forall (paramName : string) (v : Js.value),
          exists g2 : Model.GroupView,
            StoreSpec.viewOf
              (snd (ConfigManager.updateGroupCommonParam (snd second) id1
                      paramName v)) id2 = Some g2
            /\ Js.get (Model.commonParams g2) paramName = v)
    /\ (forall (later : ConfigManager.t) (g1 g2 : Model.GroupView),
          StoreSpec.steps (snd second) later ->
          StoreSpec.viewOf later id1 = Some g1 ->
          StoreSpec.viewOf later id2 = Some g2 ->
          Model.commonParams g1 = Model.commonParams g2
          /\ Model.rules g1 = Model.rules g2).
Proof.
  intros cm template C Hty Ha sectionType first second id1 id2.
  destruct (AliasFacts.addGroup_template_spec cm template C Hty Ha)
    as (R1 & G1 & H1 & N1 & C1 & _).
  fold sectionType in R1, G1, H1, N1, C1. fold first in R1, G1, H1, N1, C1.
  fold id1 in R1, G1.
  assert (Ha1 : StoreSpec.allocated (snd first) (Some template)).
  { unfold StoreSpec.allocated. rewrite H1. exact Ha. }
  destruct (AliasFacts.addGroup_template_spec (snd first) template C1 Hty Ha1)
    as (R2 & G2 & H2 & N2 & C2 & O2).
  fold sectionType in R2, G2, H2, N2, C2, O2. fold second in R2, G2, H2, N2, C2, O2.
  rewrite N1 in R2, G2, O2. fold id2 in R2, G2, O2.
  assert (Hne : id1 <> id2) by (apply AliasFacts.makeId_next; exact Hty).
  assert (G1' : ConfigManager.getGroup (ConfigManager.groups (snd second)) id1
                = Some (Model.mkGroup id1 sectionType (Model.title template)
                          (Model.commonParams template) (Model.rules template))).
  { rewrite O2 by exact Hne. exact G1. }
  split; [exact R1|]. split; [exact R2|]. split; [exact Hne|]. split.
  - intros paramName v.
    unfold ConfigManager.updateGroupCommonParam. rewrite G1'. cbv zeta. cbn [snd].
    rewrite ViewFacts.viewOf_updateConfigFromGroups.
    unfold StoreSpec.viewOf. cbn [ConfigManager.groups ConfigManager.setHeap].
    rewrite G2. cbn [option_map]. eexists. split; [reflexivity|].
    unfold ConfigManager.view. cbn [Model.commonParams ConfigManager.heap].
    unfold ConfigManager.paramsAt, ConfigManager.storeParams.
    cbn [ConfigManager.paramObjects].
    unfold ConfigManager.setHeap.
    cbn [ConfigManager.heap ConfigManager.paramObjects].
    rewrite StoreMore.nth_replaceAt_same.
    + apply ViewFacts.get_set_same.
    + rewrite H2, H1. destruct Ha as [Hp _]. exact Hp.
  - intros later g1 g2 Hs V1 V2.
    unfold StoreSpec.viewOf in V1, V2.
    destruct (ConfigManager.getGroup (ConfigManager.groups later) id1)
      as [s1|] eqn:L1; [|discriminate V1].
    destruct (ConfigManager.getGroup (ConfigManager.groups later) id2)
      as [s2|] eqn:L2; [|discriminate V2].
    destruct (AliasFacts.steps_keep_objects _ _ _ _ _ C2 Hs G1' L1) as [P1 Q1].
    destruct (AliasFacts.steps_keep_objects _ _ _ _ _ C2 Hs G2 L2) as [P2 Q2].
    simpl in P1, Q1, P2, Q2.
    simpl in V1, V2. injection V1 as <-. injection V2 as <-.
    unfold ConfigManager.view. simpl. rewrite P1, Q1, P2, Q2. split; reflexivity.
Qed.

Lemma groups_made_from_one_template_share_their_objects_witness :
  exists g2 : Model.GroupView,
    StoreSpec.viewOf
      (snd (ConfigManager.updateGroupCommonParam
              (snd (ConfigManager.addGroup
                      (snd (ConfigManager.addGroup StoreSpec.templateStore "ranges"
                              (Some StoreSpec.templateGroup)))
                      "ranges" (Some StoreSpec.templateGroup)))
              "ranges-0" "deliveryOption" (Js.VStr "EXPRESS")))
      "ranges-1" = Some g2
    /\ Js.get (Model.commonParams g2) "deliveryOption" = Js.VStr "EXPRESS".
Proof.
  assert (C : StoreSpec.consistent StoreSpec.templateStore)
    by apply RebuildMore.consistent_empty.
  destruct (groups_made_from_one_template_share_their_objects
              StoreSpec.templateStore StoreSpec.templateGroup C)
    as (_ & _ & _ & H & _).
  - simpl. tauto.
  - simpl. lia.
  - exact (H "deliveryOption" (Js.VStr "EXPRESS")).
Defined.

Module EditFacts.
Import Js Grouping Model ConfigManager Spec RebuildSpec StoreSpec StoreSpec.
Import StoreMore StoreSteps ViewFacts.

(** An edit of the parameters at [a] is not seen through a group that
    holds other parameters. *)
Lemma viewOf_storeParams_other (cm : t) (a : address) (o : obj) (k : string) :
  (forall g, getGroup (groups cm) k = Some g -> commonParams g <> a) ->
  viewOf (setHeap cm (storeParams (heap cm) a o)) k = viewOf cm k.
Proof.
  intros H. unfold viewOf. cbn [groups setHeap heap].
  destruct (getGroup (groups cm) k) as [g|] eqn:Hg; [|reflexivity].
  cbn [option_map]. f_equal. apply view_storeParams_other. apply H. reflexivity.
Qed.

Lemma viewOf_storeRules_other (cm : t) (a : address) (rs : list obj) (k : string) :
  (forall g, getGroup (groups cm) k = Some g -> rules g <> a) ->
  viewOf (setHeap cm (storeRules (heap cm) a rs)) k = viewOf cm k.
Proof.
  intros H. unfold viewOf. cbn [groups setHeap heap].
  destruct (getGroup (groups cm) k) as [g|] eqn:Hg; [|reflexivity].
  cbn [option_map]. f_equal. apply view_storeRules_other. apply H. reflexivity.
Qed.

(** The rules of a group after its rule array was replaced. *)
Lemma viewOf_storeRules_same (cm : t) (k : string) (g : StoredGroup)
      (rs : list obj) :
  getGroup (groups cm) k = Some g ->
  rules g < List.length (ruleArrays (heap cm)) ->
  viewOf (setHeap cm (storeRules (heap cm) (rules g) rs)) k
  = Some (mkGroup (id g) (type g) (title g)
                  (paramsAt (heap cm) (commonParams g)) rs).
Proof.
  intros Hg Hr. unfold viewOf. cbn [groups setHeap heap]. rewrite Hg.
  cbn [option_map]. f_equal. unfold view, paramsAt, rulesAt, storeRules.
  cbn [paramObjects ruleArrays]. rewrite nth_replaceAt_same by exact Hr.
  reflexivity.
Qed.

Lemma ruleAt_nat (rs : list obj) (i : nat) : ruleAt rs (Z.of_nat i) = nth_error rs i.
Proof.
  unfold ruleAt. destruct (Z.ltb_spec (Z.of_nat i) 0) as [H|H]; [lia|].
  rewrite Nat2Z.id. reflexivity.
Qed.

End EditFacts.

(** X10: in a consistent store, [cloneGroup] of an existing group returns
    the id made of the source's type and the counter; the clone has the title
    of the source after 'Copy of ', and JSON copies of its common parameters
    and rules; every other group, the source included, shows what it showed
    before, and still does after a parameter of the clone is set or a rule of
    the clone is added, changed or deleted. *)
Theorem a_clone_shares_nothing_with_its_source :
  forall (cm : ConfigManager.t) (groupId : string)
         (source : ConfigManager.StoredGroup),
    StoreSpec.consistent cm ->
    ConfigManager.getGroup (ConfigManager.groups cm) groupId = Some source ->
    let cloned := ConfigManager.cloneGroup cm groupId in
    let newId := ConfigManager.makeId (Model.type source)
                                      (ConfigManager.idCounter cm) in
    let original := ConfigManager.view (ConfigManager.heap cm) source in
    fst cloned = Js.VStr newId
    /\ StoreSpec.viewOf (snd cloned) newId
       = Some (Model.mkGroup newId (Model.type source)
                 (Js.VStr ("Copy of " +++ Js.toStr (Model.title source)))
                 (ConfigManager.jsonCloneObject (Model.commonParams original))
                 (map ConfigManager.jsonCloneObject (Model.rules original)))
    /\ forall other : string,
         other <> newId ->
         StoreSpec.viewOf (snd cloned) other = StoreSpec.viewOf cm other
         /\ (forall paramName v,
               StoreSpec.viewOf
                 (snd (ConfigManager.updateGroupCommonParam (snd cloned) newId
                         paramName v)) other
               = StoreSpec.viewOf cm other)
         /\ (forall format,
               StoreSpec.viewOf
                 (snd (ConfigManager.addRule (snd cloned) newId format)) other
               = StoreSpec.viewOf cm other)
         /\ (forall ruleIndex fieldName v,
               StoreSpec.viewOf
                 (snd (ConfigManager.updateRule (snd cloned) newId ruleIndex
                         fieldName v)) other
               = StoreSpec.viewOf cm other)
         /\ (forall ruleIndex,
               StoreSpec.viewOf
                 (snd (ConfigManager.deleteRule (snd cloned) newId ruleIndex)) other
               = StoreSpec.viewOf cm other).
Proof.
  intros cm groupId source C Hsrc cloned newId original.
  destruct (StoreSteps.consistent_group cm groupId source C Hsrc)
    as (_ & Hty & _).
  set (copy := Model.mkGroup newId (Model.type source)
                 (Js.VStr ("Copy of " +++ Js.toStr (Model.title source)))
                 (ConfigManager.jsonCloneObject (Model.commonParams original))
                 (map ConfigManager.jsonCloneObject (Model.rules original))).
  pose proof (ViewFacts.putFresh_spec cm (Model.type source) copy C Hty eq_refl)
    as H.
  cbv zeta in H.
  set (cm1 := ConfigManager.putFresh
                (ConfigManager.setIdCounter cm (S (ConfigManager.idCounter cm)))
                copy) in H.
  destruct H as (Eg & Eh & Ec & _ & Vnew & Vother).
  assert (E : snd cloned = ConfigManager.updateConfigFromGroups cm1).
  { unfold cloned, ConfigManager.cloneGroup. rewrite Hsrc. reflexivity. }
  assert (C1 : StoreSpec.consistent cm1).
  { apply (StoreSteps.consistent_putFresh cm (Model.type source)); trivial. }
  assert (Gnew : ConfigManager.getGroup (ConfigManager.groups cm1) newId
                 = Some (Model.mkGroup newId (Model.type source)
                           (Js.VStr ("Copy of " +++ Js.toStr (Model.title source)))
                           (List.length (ConfigManager.paramObjects
                                           (ConfigManager.heap cm)))
                           (List.length (ConfigManager.ruleArrays
                                           (ConfigManager.heap cm))))).
  { rewrite Eg. clear - C Hty.
    pose proof (StoreMore.consistent_fresh_id cm _ C Hty) as Hfresh.
    apply StoreMore.getGroup_None in Hfresh. fold newId in Hfresh.
    revert Hfresh. generalize (ConfigManager.groups cm) as gs.
    induction gs as [|[k' g'] gs IH]; cbn [ConfigManager.getGroup app]; intros Hg.
    - cbn [Model.id copy]. rewrite String.eqb_refl. reflexivity.
    - cbn [Model.id copy] in *. destruct (newId =? k'); [discriminate Hg | apply IH; exact Hg]. }
  assert (Hold : forall other g, other <> newId ->
            ConfigManager.getGroup (ConfigManager.groups cm1) other = Some g ->
            Model.commonParams g
            < List.length (ConfigManager.paramObjects (ConfigManager.heap cm))
            /\ Model.rules g
               < List.length (ConfigManager.ruleArrays (ConfigManager.heap cm))).
  { intros other g Hne Hg. rewrite Eg in Hg.
    assert (Hg0 : ConfigManager.getGroup (ConfigManager.groups cm) other = Some g).
    { revert Hg. generalize (ConfigManager.groups cm) as gs.
      induction gs as [|[k' g'] gs IH]; cbn [ConfigManager.getGroup app].
      - cbn [Model.id copy]. destruct (String.eqb_spec other newId); [congruence | discriminate].
      - destruct (other =? k'); [tauto | exact IH]. }
    destruct (StoreSteps.consistent_group cm other g C Hg0) as (_ & _ & Hp & Hr & _).
    split; assumption. }
  split; [unfold cloned, ConfigManager.cloneGroup; rewrite Hsrc; reflexivity|].
  split; [rewrite E, ViewFacts.viewOf_updateConfigFromGroups; exact Vnew|].
  intros other Hne.
  assert (V1 : StoreSpec.viewOf (snd cloned) other = StoreSpec.viewOf cm other).
  { rewrite E, ViewFacts.viewOf_updateConfigFromGroups. apply Vother. exact Hne. }
  split; [exact V1|].
  rewrite E.
  split; [|split; [|split]].
  - intros paramName v. unfold ConfigManager.updateGroupCommonParam.
    cbn [ConfigManager.groups ConfigManager.updateConfigFromGroups
         ConfigManager.saveConfig ConfigManager.setConfig].
    rewrite Gnew. cbv zeta. cbn [snd Model.commonParams].
    rewrite ViewFacts.viewOf_updateConfigFromGroups.
    rewrite <- V1, E, ViewFacts.viewOf_updateConfigFromGroups.
    apply (EditFacts.viewOf_storeParams_other (ConfigManager.updateConfigFromGroups cm1)).
    intros g Hg. destruct (Hold other g Hne Hg) as [Hp _]. lia.
  - intros format. unfold ConfigManager.addRule.
    cbn [ConfigManager.groups ConfigManager.updateConfigFromGroups
         ConfigManager.saveConfig ConfigManager.setConfig].
    rewrite Gnew. cbv zeta. cbn [snd Model.rules].
    rewrite ViewFacts.viewOf_updateConfigFromGroups.
    rewrite <- V1, E, ViewFacts.viewOf_updateConfigFromGroups.
    apply (EditFacts.viewOf_storeRules_other (ConfigManager.updateConfigFromGroups cm1)).
    intros g Hg. destruct (Hold other g Hne Hg) as [_ Hr]. lia.
  - intros ruleIndex fieldName v. unfold ConfigManager.updateRule.
    cbn [ConfigManager.groups ConfigManager.updateConfigFromGroups
         ConfigManager.saveConfig ConfigManager.setConfig].
    rewrite Gnew. cbv zeta. cbn [Model.rules].
    rewrite <- V1, E, ViewFacts.viewOf_updateConfigFromGroups.
    destruct (ConfigManager.ruleAt _ ruleIndex);
      [|cbn [snd]; apply ViewFacts.viewOf_updateConfigFromGroups].
    cbn [snd]. rewrite ViewFacts.viewOf_updateConfigFromGroups.
    apply (EditFacts.viewOf_storeRules_other (ConfigManager.updateConfigFromGroups cm1)).
    intros g Hg. destruct (Hold other g Hne Hg) as [_ Hr]. lia.
  - intros ruleIndex. unfold ConfigManager.deleteRule.
    cbn [ConfigManager.groups ConfigManager.updateConfigFromGroups
         ConfigManager.saveConfig ConfigManager.setConfig].
    rewrite Gnew. cbv zeta. cbn [Model.rules].
    rewrite <- V1, E, ViewFacts.viewOf_updateConfigFromGroups.
    destruct (ConfigManager.ruleAt _ ruleIndex);
      [|cbn [snd]; apply ViewFacts.viewOf_updateConfigFromGroups].
    cbn [snd]. rewrite ViewFacts.viewOf_updateConfigFromGroups.
    apply (EditFacts.viewOf_storeRules_other (ConfigManager.updateConfigFromGroups cm1)).
    intros g Hg. destruct (Hold other g Hne Hg) as [_ Hr]. lia.
Qed.

Lemma a_clone_shares_nothing_with_its_source_witness :
  StoreSpec.viewOf
    (snd (ConfigManager.updateRule
            (snd (ConfigManager.cloneGroup Spec.oneRangesGroupStore "ranges-0"))
            "ranges-1" 0 "lowerBound" (Js.VNum 7)))
    "ranges-0"
  = StoreSpec.viewOf Spec.oneRangesGroupStore "ranges-0".
Proof.
  assert (C : StoreSpec.consistent Spec.oneRangesGroupStore).
  { apply (StoreSteps.consistent_addGroup Spec.freshStore "ranges" None).
    - apply RebuildMore.consistent_empty.
    - simpl. tauto.
    - exact I. }
  destruct (ConfigManager.getGroup
              (ConfigManager.groups Spec.oneRangesGroupStore) "ranges-0")
    as [source|] eqn:E; [|discriminate E].
  destruct (a_clone_shares_nothing_with_its_source
              Spec.oneRangesGroupStore "ranges-0" source C E) as (_ & _ & H).
  injection E as <-.
  destruct (H "ranges-0") as (_ & _ & _ & H4 & _); [discriminate|].
  exact (H4 0%Z "lowerBound" (Js.VNum 7)).
Defined.

(** X11: in a consistent store and for a position that holds a rule,
    [updateRule] (on a field other than the type of a capping rule) returns
    true and leaves the rules as they were but for that position, where the
    field now holds the value and the other fields hold what they held;
    [deleteRule] returns true and removes the rule of that position and no
    other. *)
Theorem rule_edits_touch_one_rule :
  forall (cm : ConfigManager.t) (groupId : string)
         (group : ConfigManager.StoredGroup) (i : nat) (rule : Js.obj),
    StoreSpec.consistent cm ->
    ConfigManager.getGroup (ConfigManager.groups cm) groupId = Some group ->
    let old := ConfigManager.rulesAt (ConfigManager.heap cm) (Model.rules group) in
    let withRules := Model.mkGroup (Model.id group) (Model.type group)
                       (Model.title group)
                       (ConfigManager.paramsAt (ConfigManager.heap cm)
                                               (Model.commonParams group)) in
    nth_error old i = Some rule ->
    (forall (fieldName : string) (v : Js.value),
        (Model.type group =? "capping") && (fieldName =? "type") = false ->
        let edited := ConfigManager.updateRule cm groupId (Z.of_nat i) fieldName v in
        fst edited = Js.VBool true
        /\ StoreSpec.viewOf (snd edited) groupId
           = Some (withRules (firstn i old ++ [Js.set rule fieldName v]
                              ++ skipn (S i) old))
        /\ Js.get (Js.set rule fieldName v) fieldName = v
        /\ forall other : string,
             other <> fieldName ->
             Js.get (Js.set rule fieldName v) other = Js.get rule other)
    /\ (let deleted := ConfigManager.deleteRule cm groupId (Z.of_nat i) in
        fst deleted = Js.VBool true
        /\ StoreSpec.viewOf (snd deleted) groupId
           = Some (withRules (firstn i old ++ skipn (S i) old))).
Proof.
  intros cm groupId group i rule C Hg old withRules Hi.
  destruct (StoreSteps.consistent_group cm groupId group C Hg)
    as (_ & _ & _ & Hr & _).
  split.
  - intros fieldName v Hplain edited.
    assert (E : edited
                = (Js.VBool true,
                   ConfigManager.updateConfigFromGroups
                     (ConfigManager.setHeap cm
                        (ConfigManager.storeRules (ConfigManager.heap cm)
                           (Model.rules group)
                           (ConfigManager.replaceAt old i
                              (Js.set rule fieldName v)))))).
    { unfold edited, ConfigManager.updateRule. rewrite Hg. cbv zeta.
      fold old. rewrite EditFacts.ruleAt_nat, Hi, Hplain, Nat2Z.id. reflexivity. }
    rewrite E. cbn [fst snd]. split; [reflexivity|]. split; [|split].
    + rewrite ViewFacts.viewOf_updateConfigFromGroups.
      rewrite (EditFacts.viewOf_storeRules_same cm groupId group _ Hg Hr).
      rewrite (ViewFacts.replaceAt_split old i _ rule Hi). reflexivity.
    + apply ViewFacts.get_set_same.
    + intros other Hne. apply ViewFacts.get_set_other. exact Hne.
  - intros deleted.
    assert (E : deleted
                = (Js.VBool true,
                   ConfigManager.updateConfigFromGroups
                     (ConfigManager.setHeap cm
                        (ConfigManager.storeRules (ConfigManager.heap cm)
                           (Model.rules group)
                           (ConfigManager.removeAt old i))))).
    { unfold deleted, ConfigManager.deleteRule. rewrite Hg. cbv zeta.
      fold old. rewrite EditFacts.ruleAt_nat, Hi, Nat2Z.id. reflexivity. }
    rewrite E. cbn [fst snd]. split; [reflexivity|].
    rewrite ViewFacts.viewOf_updateConfigFromGroups.
    rewrite (EditFacts.viewOf_storeRules_same cm groupId group _ Hg Hr).
    rewrite ViewFacts.removeAt_split. reflexivity.
Qed.

Lemma rule_edits_touch_one_rule_witness :
  fst (ConfigManager.deleteRule Spec.oneRangesGroupStore "ranges-0" 0)
  = Js.VBool true
  /\ option_map Model.rules
       (StoreSpec.viewOf
          (snd (ConfigManager.deleteRule Spec.oneRangesGroupStore "ranges-0" 0))
          "ranges-0") = Some [].
Proof.
  assert (C : StoreSpec.consistent Spec.oneRangesGroupStore).
  { apply (StoreSteps.consistent_addGroup Spec.freshStore "ranges" None).
    - apply RebuildMore.consistent_empty.
    - simpl. tauto.
    - exact I. }
  destruct (ConfigManager.getGroup
              (ConfigManager.groups Spec.oneRangesGroupStore) "ranges-0")
    as [group|] eqn:E; [|discriminate E].
  destruct (ConfigManager.rulesAt (ConfigManager.heap Spec.oneRangesGroupStore)
                                  (Model.rules group)) as [|rule rest] eqn:R;
    [injection E as <-; discriminate R|].
  destruct (rule_edits_touch_one_rule Spec.oneRangesGroupStore "ranges-0"
              group 0 rule C E) as [_ [H1 H2]].
  - rewrite R. reflexivity.
  - split; [exact H1|]. change (Z.of_nat 0) with 0%Z in H2. rewrite H2.
    injection E as <-. reflexivity.
Defined.

Module DeleteFacts.
Import Js Grouping Model ConfigManager Spec RebuildSpec StoreSpec.
Import StoreMore StoreSteps ViewFacts.

Lemma getGroup_removeGroup_same (gs : list (string * StoredGroup)) (k : string) :
  getGroup (removeGroup gs k) k = None.
Proof.
  apply getGroup_None. rewrite removeGroup_keys. intros H.
  apply filter_In in H. destruct H as [_ H]. rewrite String.eqb_refl in H.
  discriminate H.
Qed.

Lemma getGroup_removeGroup_other (gs : list (string * StoredGroup))
      (k k' : string) :
  k' <> k -> getGroup (removeGroup gs k) k' = getGroup gs k'.
Proof.
  intros Hne. unfold removeGroup.
  induction gs as [|[k0 g0] gs IH]; simpl; [reflexivity|].
  destruct (String.eqb_spec k k0) as [->|Hk]; simpl.
  - destruct (String.eqb_spec k' k0); [congruence | exact IH].
  - destruct (k' =? k0); [reflexivity | exact IH].
Qed.

Lemma allGroups_removeGroup (cm : t) (k : string) :
  consistent cm ->
  allGroups (setGroups cm (removeGroup (groups cm) k))
  = filter (fun g : GroupView => negb (id g =? k)) (allGroups cm).
Proof.
  intros (_ & _ & Hids). unfold allGroups, removeGroup.
  cbn [groups setGroups heap].
  induction (groups cm) as [|[k0 g0] gs IH]; [reflexivity|].
  apply Forall_cons_iff in Hids. destruct Hids as [[Hid _] Hids].
  cbn [filter map fst snd] in *. unfold view at 2. cbn [id].
  rewrite Hid. rewrite (String.eqb_sym k0 k).
  destruct (k =? k0); cbn [negb map snd]; rewrite IH by exact Hids; reflexivity.
Qed.

End DeleteFacts.

(** X12: in a consistent store, [deleteGroup] of an existing group
    returns true; the id shows no group afterwards, every other id shows the
    group it showed before, the groups are the old ones without that group,
    in the same order, and the counter is unchanged. *)
Theorem deleting_a_group_removes_that_group_only :
  forall (cm : ConfigManager.t) (sectionType groupId : string)
         (group : ConfigManager.StoredGroup),
    StoreSpec.consistent cm ->
    ConfigManager.getGroup (ConfigManager.groups cm) groupId = Some group ->
    let deleted := ConfigManager.deleteGroup cm sectionType groupId in
    fst deleted = Js.VBool true
    /\ StoreSpec.viewOf (snd deleted) groupId = None
    /\ (forall other : string,
          other <> groupId ->
          StoreSpec.viewOf (snd deleted) other = StoreSpec.viewOf cm other)
    /\ ConfigManager.allGroups (snd deleted)
       = filter (fun g => negb (Model.id g =? groupId)) (ConfigManager.allGroups cm)
    /\ ConfigManager.idCounter (snd deleted) = ConfigManager.idCounter cm.
Proof.
  intros cm sectionType groupId group C Hg deleted.
  assert (E : deleted
              = (Js.VBool true,
                 ConfigManager.updateConfigFromGroups
                   (ConfigManager.setGroups cm
                      (ConfigManager.removeGroup (ConfigManager.groups cm)
                                                 groupId)))).
  { unfold deleted, ConfigManager.deleteGroup. rewrite Hg. reflexivity. }
  rewrite E. cbn [fst snd]. split; [reflexivity|]. split; [|split; [|split]].
  - rewrite ViewFacts.viewOf_updateConfigFromGroups. unfold StoreSpec.viewOf.
    cbn [ConfigManager.groups ConfigManager.setGroups].
    rewrite DeleteFacts.getGroup_removeGroup_same. reflexivity.
  - intros other Hne.
    rewrite ViewFacts.viewOf_updateConfigFromGroups. unfold StoreSpec.viewOf.
    cbn [ConfigManager.groups ConfigManager.setGroups ConfigManager.heap].
    rewrite DeleteFacts.getGroup_removeGroup_other by exact Hne. reflexivity.
  - rewrite StoreFacts.allGroups_updateConfigFromGroups.
    apply DeleteFacts.allGroups_removeGroup. exact C.
  - reflexivity.
Qed.

Lemma deleting_a_group_removes_that_group_only_witness :
  ConfigManager.allGroups
    (snd (ConfigManager.deleteGroup Spec.oneRangesGroupStore "capping" "ranges-0"))
  = [].
Proof.
  assert (C : StoreSpec.consistent Spec.oneRangesGroupStore).
  { apply (StoreSteps.consistent_addGroup Spec.freshStore "ranges" None).
    - apply RebuildMore.consistent_empty.
    - simpl. tauto.
    - exact I. }
  destruct (ConfigManager.getGroup
              (ConfigManager.groups Spec.oneRangesGroupStore) "ranges-0")
    as [group|] eqn:E; [|discriminate E].
  destruct (deleting_a_group_removes_that_group_only
              Spec.oneRangesGroupStore "capping" "ranges-0" group C E)
    as (_ & _ & _ & H & _).
  rewrite H. reflexivity.
Defined.


Module AddRuleFacts.
Import Js Grouping Model ValidationManager ConfigManager Spec StoreSpec.

Lemma viewOf_In (cm : t) (k : string) (g : GroupView) :
  viewOf cm k = Some g -> In g (allGroups cm).
Proof.
  unfold viewOf, allGroups.
  destruct (getGroup (groups cm) k) as [sg|] eqn:E; [|discriminate].
  cbn [option_map]. intros H. injection H as <-.
  apply StoreMore.getGroup_In in E.
  apply (in_map (fun p : string * StoredGroup => view (heap cm) (snd p))) in E.
  exact E.
Qed.

Lemma overlaps_itself (rule : obj) (b : RuleBounds) :
  carries rule b -> Spec.wellFormed b -> doRangesRulesOverlap rule rule = true.
Proof.
  intros Hc [Hp Hm].
  apply (OverlapFacts.doRangesRulesOverlap_on_bounds rule rule b b Hc Hc).
  apply OverlapFacts.nonEmpty_below in Hp, Hm.
  unfold overlapOnBounds. tauto.
Qed.

Lemma nth_error_last {A : Type} (front : list A) (x y : A) :
  nth_error (front ++ [x; y]) (List.length front) = Some x
  /\ nth_error (front ++ [x; y]) (S (List.length front)) = Some y.
Proof.
  induction front as [|a front IH]; [split; reflexivity|]. exact IH.
Qed.

Lemma invalid_when_overlapping (gs : list GroupView) (issue : OverlapIssue) :
  In issue (overlappingRules (snd (validateConfiguration gs))) ->
  fst (validateConfiguration gs) = false.
Proof.
  intros H.
  change (fst (validateConfiguration gs))
    with (isValid (snd (validateConfiguration gs))).
  unfold isValid.
  destruct (overlappingRules (snd (validateConfiguration gs))); [destruct H|].
  cbn [List.length Nat.eqb]. rewrite andb_false_r. reflexivity.
Qed.

End AddRuleFacts.

(** X13: in a consistent store, [addRule] on a ranges group whose last
    rule has integer or null bounds and non-empty intervals returns true and
    appends a copy of that last rule; the validator then reports the last two
    positions as overlapping and finds the configuration invalid. *)
Theorem a_rule_added_to_a_ranges_group_overlaps_the_last :
  forall (cm : ConfigManager.t) (groupId : string)
         (group : ConfigManager.StoredGroup) (front : list Js.obj)
         (last : Js.obj) (bounds : Spec.RuleBounds) (format : Js.value),
    StoreSpec.consistent cm ->
    ConfigManager.getGroup (ConfigManager.groups cm) groupId = Some group ->
    Model.type group = "ranges" ->
    ConfigManager.rulesAt (ConfigManager.heap cm) (Model.rules group)
    = front ++ [last] ->
    Spec.carries last bounds ->
    Spec.wellFormed bounds ->
    let added := ConfigManager.addRule cm groupId format in
    let n := List.length front in
    fst added = Js.VBool true
    /\ StoreSpec.viewOf (snd added) groupId
       = Some (Model.mkGroup (Model.id group) (Model.type group)
                 (Model.title group)
                 (ConfigManager.paramsAt (ConfigManager.heap cm)
                                         (Model.commonParams group))
                 (front ++ [last; last]))
    /\ In (ValidationManager.RulePair groupId n (S n)
             (ValidationSpec.overlapMessage n (S n)))
          (ValidationManager.overlappingRules
             (snd (ValidationManager.validateConfiguration
                     (ConfigManager.allGroups (snd added)))))
    /\ fst (ValidationManager.validateConfiguration
              (ConfigManager.allGroups (snd added))) = false.
Proof.
  intros cm groupId group front last bounds format C Hg Ht Hold Hc Hw added n.
  destruct (StoreSteps.consistent_group cm groupId group C Hg)
    as (Hid & _ & _ & Hr & _).
  assert (E : added
              = (Js.VBool true,
                 ConfigManager.updateConfigFromGroups
                   (ConfigManager.setHeap cm
                      (ConfigManager.storeRules (ConfigManager.heap cm)
                         (Model.rules group) (front ++ [last; last]))))).
  { unfold added, ConfigManager.addRule. rewrite Hg. cbv zeta.
    rewrite Ht, Hold. cbn [String.eqb Ascii.eqb Bool.eqb].
    rewrite rev_app_distr. cbn [rev app].
    rewrite <- app_assoc. reflexivity. }
  assert (V : StoreSpec.viewOf (snd added) groupId
              = Some (Model.mkGroup (Model.id group) (Model.type group)
                        (Model.title group)
                        (ConfigManager.paramsAt (ConfigManager.heap cm)
                                                (Model.commonParams group))
                        (front ++ [last; last]))).
  { rewrite E. cbn [snd]. rewrite ViewFacts.viewOf_updateConfigFromGroups.
    apply (EditFacts.viewOf_storeRules_same cm groupId group _ Hg Hr). }
  assert (I : In (ValidationManager.RulePair groupId n (S n)
                    (ValidationSpec.overlapMessage n (S n)))
                 (ValidationManager.overlappingRules
                    (snd (ValidationManager.validateConfiguration
                            (ConfigManager.allGroups (snd added)))))).
  { rewrite ValidationFacts.validate_overlappingRules. apply in_flat_map.
    eexists. split; [apply (AddRuleFacts.viewOf_In _ _ _ V)|].
    unfold ValidationManager.overlapsOfGroup,
           ValidationManager.checkOverlappingRules.
    cbn [Model.rules Model.type Model.id]. rewrite Ht, Hid.
    rewrite length_app. cbn [List.length].
    replace (Nat.ltb 1 (List.length front + 2)) with true
      by (symmetry; apply Nat.ltb_lt; lia).
    cbn [String.eqb Ascii.eqb Bool.eqb].
    unfold ValidationManager.checkOverlappingRangesRules.
    apply in_flat_map. exists ((n, last), (S n, last)). split.
    - apply PairFacts.in_pairs_indexed. split; [lia|].
      apply AddRuleFacts.nth_error_last.
    - rewrite (AddRuleFacts.overlaps_itself last bounds Hc Hw).
      left. reflexivity. }
  split; [rewrite E; reflexivity|]. split; [exact V|]. split; [exact I|].
  exact (AddRuleFacts.invalid_when_overlapping _ _ I).
Qed.

Lemma a_rule_added_to_a_ranges_group_overlaps_the_last_witness :
  fst (ValidationManager.validateConfiguration
         (ConfigManager.allGroups
            (snd (ConfigManager.addRule Spec.oneRangesGroupStore "ranges-0"
                                        Js.VNull)))) = false.
Proof.
  assert (C : StoreSpec.consistent Spec.oneRangesGroupStore).
  { apply (StoreSteps.consistent_addGroup Spec.freshStore "ranges" None).
    - apply RebuildMore.consistent_empty.
    - simpl. tauto.
    - exact I. }
  refine (proj2 (proj2 (proj2
            (a_rule_added_to_a_ranges_group_overlaps_the_last
               Spec.oneRangesGroupStore "ranges-0" _ [] _
               (Spec.mkBounds None None None None) Js.VNull C _ _ _ _ _)))).
  - reflexivity.
  - reflexivity.
  - reflexivity.
  - repeat split; reflexivity.
  - split; exists 0%Z; split; exact I.
Defined.

(* ================================================================== *)
(** ** Sorting and grouping the entries *)
(* ================================================================== *)

Module SortFacts.
Import Js Grouping Model ConfigManager SortSpec.

Lemma insertSorted_perm {A : Type} (cmp : A -> A -> option comparison)
      (x : A) (l : list A) :
  Permutation (insertSorted cmp x l) (x :: l).
Proof.
  induction l as [|y l IH]; simpl; [reflexivity|].
  destruct (cmp x y) as [[| |]|]; try reflexivity.
  all: rewrite IH; apply perm_swap.
Qed.

Lemma arraySort_perm {A : Type} (cmp : A -> A -> option comparison)
      (l : list A) :
  Permutation (arraySort cmp l) l.
Proof.
  unfold arraySort.
  assert (G : forall acc,
             Permutation
               (fold_left (fun sorted x => insertSorted cmp x sorted) l acc)
               (acc ++ l)).
  { induction l as [|x l IH]; intros acc; simpl.
    - rewrite app_nil_r. reflexivity.
    - rewrite IH, insertSorted_perm. apply Permutation_middle. }
  apply (G []).
Qed.

(** *** The order of numbers *)

Lemma num_lt_trans (a b c : num) :
  num_lt a b = true -> num_lt b c = true -> num_lt a c = true.
Proof.
  destruct a, b, c; simpl; try discriminate; try reflexivity.
  intros H1 H2. apply Z.ltb_lt in H1, H2. apply Z.ltb_lt. lia.
Qed.

Lemma num_lt_irrefl (a : num) : num_lt a a = false.
Proof. destruct a; simpl; try reflexivity. apply Z.ltb_irrefl. Qed.

Lemma num_total (a b : num) :
  isNumber a -> isNumber b ->
  num_lt a b = true \/ a = b \/ num_lt b a = true.
Proof.
  unfold isNumber. destruct a, b; simpl; intros Ha Hb; try congruence; auto.
  destruct (Z.lt_total z z0) as [H|[H|H]].
  - left. apply Z.ltb_lt. exact H.
  - right. left. congruence.
  - right. right. apply Z.ltb_lt. exact H.
Qed.

Lemma num_eqb_eq (a b : num) : num_eqb a b = true -> a = b.
Proof.
  destruct a, b; simpl; intros H; try discriminate; try reflexivity.
  apply Z.eqb_eq in H. congruence.
Qed.

Lemma num_eqb_neq (a b : num) :
  isNumber a -> isNumber b -> num_eqb a b = false -> a <> b.
Proof.
  unfold isNumber. destruct a, b; simpl; intros Ha Hb H E;
    try discriminate; try congruence.
  injection E as ->. rewrite Z.eqb_refl in H. discriminate.
Qed.

Lemma sign_lt (a b : num) : signOfDifference a b = Some Lt -> num_lt a b = true.
Proof.
  destruct a, b; simpl; intros H; try discriminate; try reflexivity.
  injection H as H. apply Z.compare_lt_iff in H. apply Z.ltb_lt. exact H.
Qed.

Lemma sign_not_lt (a b : num) :
  isNumber a -> isNumber b -> signOfDifference a b <> Some Lt ->
  b = a \/ num_lt b a = true.
Proof.
  intros Ha Hb H. destruct (num_total a b Ha Hb) as [L|[E|G]]; auto.
  exfalso. apply H. destruct a, b; simpl in *; try discriminate; try reflexivity.
  apply Z.ltb_lt in L. f_equal. apply Z.compare_lt_iff. exact L.
Qed.

(** *** The order of keys *)

Lemma lexLe_refl (k : list num) : lexLe k k.
Proof. induction k as [|a k IH]; simpl; auto. Qed.

Lemma lexLe_trans (k1 k2 k3 : list num) :
  List.length k1 = List.length k2 -> List.length k2 = List.length k3 ->
  lexLe k1 k2 -> lexLe k2 k3 -> lexLe k1 k3.
Proof.
  revert k2 k3. induction k1 as [|a k1 IH]; intros [|b k2] [|c k3] L1 L2;
    simpl in *; try discriminate; auto.
  intros [H1|[-> H1]] [H2|[-> H2]].
  - left. eapply num_lt_trans; eassumption.
  - left. exact H1.
  - left. exact H2.
  - right. split; [reflexivity|]. apply (IH k2 k3); congruence.
Qed.

Lemma compareKeys_lt (k1 k2 : list num) :
  compareKeys k1 k2 = Some Lt -> lexLe k1 k2.
Proof.
  revert k2. induction k1 as [|a k1 IH]; intros [|b k2]; simpl; auto.
  intros H.
  assert (G : (if num_eqb a b then compareKeys k1 k2 else signOfDifference a b)
              = Some Lt -> num_lt a b = true \/ a = b /\ lexLe k1 k2).
  { destruct (num_eqb a b) eqn:E.
    - intros H'. right. split; [apply num_eqb_eq; exact E | apply IH; exact H'].
    - intros H'. left. apply sign_lt. exact H'. }
  destruct k1 as [|a' k1].
  - destruct k2 as [|b' k2].
    + left. apply sign_lt. exact H.
    + apply G. exact H.
  - apply G. exact H.
Qed.

Lemma compareKeys_not_lt (k1 k2 : list num) :
  List.length k1 = List.length k2 ->
  Forall isNumber k1 -> Forall isNumber k2 ->
  compareKeys k1 k2 <> Some Lt -> lexLe k2 k1.
Proof.
  revert k2. induction k1 as [|a k1 IH]; intros [|b k2] L N1 N2; simpl; auto.
  simpl in L. apply Forall_cons_iff in N1, N2.
  destruct N1 as [Na N1], N2 as [Nb N2].
  intros H.
  assert (G : (if num_eqb a b then compareKeys k1 k2 else signOfDifference a b)
              <> Some Lt -> num_lt b a = true \/ b = a /\ lexLe k2 k1).
  { destruct (num_eqb a b) eqn:E.
    - intros H'. right. split; [symmetry; apply num_eqb_eq; exact E|].
      apply IH; trivial. lia.
    - intros H'. destruct (sign_not_lt a b Na Nb H') as [E'|L']; [|left; exact L'].
      exfalso. apply (num_eqb_neq a b Na Nb E). congruence. }
  destruct k1 as [|a' k1].
  - destruct k2 as [|b' k2]; [|discriminate L].
    destruct (sign_not_lt a b Na Nb H) as [E'|L'].
    + right. split; [exact E' | exact I].
    + left. exact L'.
  - apply G. exact H.
Qed.

(** *** The comparator of [sortRangeEntries] on keys *)

Lemma boundDiffers_num (va vb : value) (d : sortBound) :
  d = MinusInfinity \/ d = PlusInfinity ->
  integerOrAbsent va -> integerOrAbsent vb ->
  boundDiffers (boundOr va d) (boundOr vb d)
  = negb (num_eqb (boundNum (boundOr va d)) (boundNum (boundOr vb d))).
Proof.
  intros [-> | ->] [-> | [x ->]] [-> | [y ->]]; reflexivity.
Qed.

Lemma boundNum_number (v : value) (d : sortBound) :
  d = MinusInfinity \/ d = PlusInfinity ->
  integerOrAbsent v -> isNumber (boundNum (boundOr v d)).
Proof.
  intros [-> | ->] [-> | [x ->]]; discriminate.
Qed.

Lemma sortKey_numbers (e : Entry.t) : plainRange e -> Forall isNumber (sortKey e).
Proof.
  intros (H1 & H2 & H3 & H4 & [x Hx] & [y Hy]). unfold sortKey.
  rewrite Hx, Hy.
  repeat constructor; try (apply boundNum_number; auto); discriminate.
Qed.

Lemma compareRangeEntries_keys (a b : Entry.t) :
  plainRange a -> plainRange b ->
  compareRangeEntries a b = compareKeys (sortKey a) (sortKey b).
Proof.
  intros (A1 & A2 & A3 & A4 & [xa Ha] & [ya Hya])
         (B1 & B2 & B3 & B4 & [xb Hb] & [yb Hyb]).
  unfold compareRangeEntries, sortKey. cbv zeta.
  rewrite (boundDiffers_num _ _ MinusInfinity (or_introl eq_refl) A1 B1).
  rewrite (boundDiffers_num _ _ PlusInfinity (or_intror eq_refl) A2 B2).
  rewrite (boundDiffers_num _ _ MinusInfinity (or_introl eq_refl) A3 B3).
  rewrite (boundDiffers_num _ _ PlusInfinity (or_intror eq_refl) A4 B4).
  rewrite Ha, Hb, Hya, Hyb.
  cbn [compareKeys strict_eq toNum num_eqb].
  repeat match goal with
         | |- context [num_eqb ?p ?q] => destruct (num_eqb p q); cbn [negb]
         end; try reflexivity.
  all: destruct (xa =? xb)%Z; reflexivity.
Qed.

(** *** Insertion keeps the order *)

Lemma insertSorted_sorted (x : Entry.t) (l : list Entry.t) :
  plainRange x -> Forall plainRange l ->
  StronglySorted inOrder l ->
  StronglySorted inOrder (insertSorted compareRangeEntries x l).
Proof.
  intros Px Pl Hs. induction Hs as [|y l Hs IH Hy]; simpl.
  - constructor; constructor.
  - apply Forall_cons_iff in Pl. destruct Pl as [Py Pl].
    destruct (compareRangeEntries x y) as [c|] eqn:E.
    + destruct c.
      * (* Eq *) constructor.
        -- apply IH. exact Pl.
        -- apply Forall_forall. intros z Hz.
           apply RebuildFacts.insertSorted_In in Hz. destruct Hz as [->|Hz].
           ++ unfold inOrder. apply compareKeys_not_lt.
              ** reflexivity.
              ** apply sortKey_numbers; exact Px.
              ** apply sortKey_numbers; exact Py.
              ** rewrite <- compareRangeEntries_keys by assumption.
                 rewrite E. discriminate.
           ++ rewrite Forall_forall in Hy. apply Hy. exact Hz.
      * (* Lt *) constructor.
        -- constructor; assumption.
        -- assert (Hxy : inOrder x y).
           { unfold inOrder. apply compareKeys_lt.
             rewrite <- compareRangeEntries_keys by assumption. exact E. }
           constructor; [exact Hxy|].
           apply Forall_forall. intros z Hz.
           rewrite Forall_forall in Hy. specialize (Hy z Hz).
           unfold inOrder in *.
           apply (lexLe_trans _ (sortKey y)); trivial.
      * (* Gt *) constructor.
        -- apply IH. exact Pl.
        -- apply Forall_forall. intros z Hz.
           apply RebuildFacts.insertSorted_In in Hz. destruct Hz as [->|Hz].
           ++ unfold inOrder. apply compareKeys_not_lt.
              ** reflexivity.
              ** apply sortKey_numbers; exact Px.
              ** apply sortKey_numbers; exact Py.
              ** rewrite <- compareRangeEntries_keys by assumption.
                 rewrite E. discriminate.
           ++ rewrite Forall_forall in Hy. apply Hy. exact Hz.
    + constructor.
      * apply IH. exact Pl.
      * apply Forall_forall. intros z Hz.
        apply RebuildFacts.insertSorted_In in Hz. destruct Hz as [->|Hz].
        -- unfold inOrder. apply compareKeys_not_lt.
           ++ reflexivity.
           ++ apply sortKey_numbers; exact Px.
           ++ apply sortKey_numbers; exact Py.
           ++ rewrite <- compareRangeEntries_keys by assumption.
              rewrite E. discriminate.
        -- rewrite Forall_forall in Hy. apply Hy. exact Hz.
Qed.

Lemma insertSorted_plain (x : Entry.t) (l : list Entry.t) :
  plainRange x -> Forall plainRange l ->
  Forall plainRange (insertSorted compareRangeEntries x l).
Proof.
  intros Px Pl. apply Forall_forall. intros z Hz.
  apply RebuildFacts.insertSorted_In in Hz. destruct Hz as [->|Hz]; [exact Px|].
  rewrite Forall_forall in Pl. apply Pl. exact Hz.
Qed.

Lemma push_perm {A : Type} (k : string) (x : A) (gs : list (string * list A)) :
  Permutation (flat_map snd (push k x gs)) (flat_map snd gs ++ [x]).
Proof.
  induction gs as [|[k' xs] gs IH]; simpl; [reflexivity|].
  destruct (k =? k'); simpl.
  - rewrite <- !app_assoc. apply Permutation_app_head.
    apply Permutation_app_comm.
  - rewrite IH. rewrite app_assoc. reflexivity.
Qed.

Lemma groupBy_perm {A : Type} (key : A -> string) (l : list A) :
  Permutation (flat_map snd (groupBy key l)) l.
Proof.
  induction l as [|x l IH] using rev_ind; [reflexivity|].
  rewrite ValidationMore.groupBy_snoc, push_perm, IH. reflexivity.
Qed.

End SortFacts.

(** X14: [sortRangeEntries] returns the entries it was given, each as
    often as it was given, in some order. *)
Theorem sortRangeEntries_keeps_every_entry :
  forall entries : list Entry.t,
    Permutation (ConfigManager.sortRangeEntries entries) entries.
Proof.
  intros entries. unfold ConfigManager.sortRangeEntries.
  apply SortFacts.arraySort_perm.
Qed.

(** X15: on ranges entries whose condition bounds are integers or absent
    and whose own bounds are integers, [sortRangeEntries] returns the entries
    in rising order of pdt_greater_than (absent first), then of
    pdt_less_than_or_equal_to (absent last), then of mean_delay_greater_than
    (absent first), then of mean_delay_less_than_or_equal_to (absent last),
    then of lower_bound, then of upper_bound. *)
Theorem sortRangeEntries_sorts_by_bounds :
  forall entries : list Entry.t,
    Forall SortSpec.plainRange entries ->
    StronglySorted SortSpec.inOrder (ConfigManager.sortRangeEntries entries).
Proof.
  intros entries Hp. unfold ConfigManager.sortRangeEntries, ConfigManager.arraySort.
  assert (G : forall acc,
             Forall SortSpec.plainRange acc ->
             StronglySorted SortSpec.inOrder acc ->
             StronglySorted SortSpec.inOrder
               (fold_left (fun sorted x =>
                             ConfigManager.insertSorted
                               ConfigManager.compareRangeEntries x sorted)
                          entries acc)).
  { induction Hp as [|x l Px Pl IH]; intros acc Pa Sa; simpl; [exact Sa|].
    apply IH.
    - apply SortFacts.insertSorted_plain; assumption.
    - apply SortFacts.insertSorted_sorted; assumption. }
  apply G; constructor.
Qed.

Lemma sortRangeEntries_sorts_by_bounds_witness :
  StronglySorted SortSpec.inOrder
    (ConfigManager.sortRangeEntries SortSpec.shuffledRanges).
Proof.
  apply (sortRangeEntries_sorts_by_bounds SortSpec.shuffledRanges).
  unfold SortSpec.shuffledRanges.
  repeat (apply Forall_cons || apply Forall_nil).
  all: unfold SortSpec.plainRange, SortSpec.integerOrAbsent, SortSpec.integer.
  all: simpl.
  all: repeat split.
  all: first [ left; reflexivity | right; eexists; reflexivity
             | eexists; reflexivity ].
Defined.

(** X16: [groupByCommonParams] splits the entries into groups with
    distinct keys: the groups together hold the entries given, each as often
    as given; no group is empty; and a group holds the entries that have its
    key, in the order of the list. *)
Theorem groupByCommonParams_partitions_the_entries :
  forall (entries : list Entry.t) (paramKeys : list string),
    let groups := ConfigManager.groupByCommonParams entries paramKeys in
    NoDup (map fst groups)
    /\ Permutation (flat_map snd groups) entries
    /\ forall (key : string) (members : list Entry.t),
         In (key, members) groups ->
         members <> []
         /\ members
            = filter (fun e => ConfigManager.groupingKey paramKeys e =? key)
                     entries.
Proof.
  intros entries paramKeys groups.
  destruct (GroupingFacts.groupBy_table (ConfigManager.groupingKey paramKeys)
                                        entries) as [Hnd Hb].
  split; [exact Hnd|]. split; [apply SortFacts.groupBy_perm|].
  intros key members Hin. split.
  - rewrite Forall_forall in Hb. destruct (Hb _ Hin) as [Hne _]. exact Hne.
  - apply (ValidationMore.groupBy_filter _ _ _ _ Hin).
Qed.

(* ================================================================== *)
(** ** The merge, continued *)
(* ================================================================== *)

Module MergeMore.
Import Js Grouping Model ExportImportManager MergeSpec MergedSpec.

Lemma untitled_setTitle (e : Entry.t) (v : value) :
  untitled (Entry.setTitle e v) = untitled e.
Proof. destruct e; reflexivity. Qed.

Lemma untitled_retitle (text : nat -> Entry.t -> string) (l : list Entry.t) :
  map untitled (retitle text l) = map untitled l.
Proof.
  unfold retitle, indexed. generalize 0 as n.
  induction l as [|e l IH]; intros n; simpl; [reflexivity|].
  rewrite untitled_setTitle, IH. reflexivity.
Qed.

Lemma flat_map_keeps (F : string * list Entry.t -> list Entry.t)
      (gs : list (string * list Entry.t)) :
  keepsEntries F -> sameEntries (flat_map F gs) (flat_map snd gs).
Proof.
  intros H. unfold sameEntries.
  induction gs as [|g gs IH]; simpl; [reflexivity|].
  rewrite !map_app. apply Permutation_app; [apply H | exact IH].
Qed.

Lemma nest_keeps (key : Entry.t -> string)
      (F : string * list Entry.t -> list Entry.t) (l : list Entry.t) :
  keepsEntries F -> sameEntries (flat_map F (groupBy key l)) l.
Proof.
  intros H. unfold sameEntries.
  eapply Permutation_trans; [apply (flat_map_keeps F _ H)|].
  apply Permutation_map. apply SortFacts.groupBy_perm.
Qed.

Lemma titledMeanDelayGroup_keeps (baseTitle : string) (groupCount : nat) :
  keepsEntries (titledMeanDelayGroup baseTitle groupCount).
Proof.
  intros g. unfold sameEntries.
  rewrite MergeFacts.titledMeanDelayGroup_retitle, untitled_retitle. reflexivity.
Qed.

Lemma titledSubGroup_keeps (type : string) : keepsEntries (titledSubGroup type).
Proof.
  intros [k l]. unfold titledSubGroup, groupEntriesByMeanDelay. cbn [snd].
  apply nest_keeps. apply titledMeanDelayGroup_keeps.
Qed.

Lemma titledPdtGroup_keeps (type : string) (ks : list string) :
  keepsEntries (titledPdtGroup type ks).
Proof.
  intros [k l]. unfold titledPdtGroup. cbn [snd].
  apply nest_keeps. apply titledSubGroup_keeps.
Qed.

Lemma titledCappingGroup_keeps (type : string) :
  keepsEntries (titledCappingGroup type).
Proof.
  intros g. unfold sameEntries.
  rewrite MergeFacts.titledCappingGroup_retitle, untitled_retitle. reflexivity.
Qed.

Lemma mergeRanges_keeps (ks : list string) (es : list Entry.t) :
  sameEntries (mergeEntriesByCommonParams es "ranges" ks) es.
Proof.
  unfold mergeEntriesByCommonParams, groupRangesByPdtBounds. cbn [String.eqb Ascii.eqb Bool.eqb].
  apply nest_keeps. apply titledPdtGroup_keeps.
Qed.

Lemma mergeCapping_keeps (ks : list string) (es : list Entry.t) :
  sameEntries (mergeEntriesByCommonParams es "capping" ks) es.
Proof.
  unfold mergeEntriesByCommonParams. cbn [String.eqb Ascii.eqb Bool.eqb].
  apply nest_keeps. apply titledCappingGroup_keeps.
Qed.

Lemma mergeDisplayFormat_perm (ks : list string) (es : list Entry.t) :
  Permutation (mergeEntriesByCommonParams es "display_format" ks)
              (map mergedDisplayFormat es).
Proof.
  unfold mergeEntriesByCommonParams. cbn [String.eqb Ascii.eqb Bool.eqb].
  transitivity (map mergedDisplayFormat
                    (flat_map snd
                       (groupBy (fun entry => generateEntryKey entry ks) es))).
  - induction (groupBy (fun entry => generateEntryKey entry ks) es) as [|g gs IH];
      simpl; [reflexivity|].
    rewrite map_app. apply Permutation_app; [reflexivity | exact IH].
  - apply Permutation_map. apply SortFacts.groupBy_perm.
Qed.


(** *** Titles *)







(** *** Counting *)

Lemma countImportItems_from (pdt : list Section.t) (c : Counts) :
  fold_left countSection pdt c
  = mkCounts
      (display_format_count c
       + display_format_count (fold_left countSection pdt (mkCounts 0 0 0 0)))
      (ranges_count c + ranges_count (fold_left countSection pdt (mkCounts 0 0 0 0)))
      (capping_count c + capping_count (fold_left countSection pdt (mkCounts 0 0 0 0)))
      (rounding_count c
       + rounding_count (fold_left countSection pdt (mkCounts 0 0 0 0))).
Proof.
  revert c. induction pdt as [|s pdt IH]; intros c; simpl.
  - destruct c. simpl. rewrite !Nat.add_0_r. reflexivity.
  - rewrite IH. rewrite (IH (countSection _ s)). simpl.
    f_equal; lia.
Qed.

Lemma countImportItems_cons (s : Section.t) (pdt : list Section.t) :
  countImportItems (s :: pdt)
  = mkCounts
      (lengthOf (Section.display_format s)
       + display_format_count (countImportItems pdt))
      (lengthOf (Section.ranges s) + ranges_count (countImportItems pdt))
      (lengthOf (Section.capping s) + capping_count (countImportItems pdt))
      (lengthOf (Section.rounding s) + rounding_count (countImportItems pdt)).
Proof.
  unfold countImportItems. simpl. rewrite countImportItems_from. reflexivity.
Qed.

Lemma countImportItems_app (p q : list Section.t) :
  countImportItems (p ++ q)
  = mkCounts
      (display_format_count (countImportItems p)
       + display_format_count (countImportItems q))
      (ranges_count (countImportItems p) + ranges_count (countImportItems q))
      (capping_count (countImportItems p) + capping_count (countImportItems q))
      (rounding_count (countImportItems p) + rounding_count (countImportItems q)).
Proof.
  unfold countImportItems. rewrite fold_left_app.
  rewrite countImportItems_from. reflexivity.
Qed.

Lemma count_sectionsOf (b : ByType) : countImportItems (sectionsOf b) = sizes b.
Proof.
  destruct b as [d r c o]. unfold sectionsOf, sizes.
  cbn [displayFormatEntries rangesEntries cappingEntries roundingEntries].
  rewrite !countImportItems_app.
  destruct d, r, c, o;
    cbv [countImportItems fold_left countSection lengthOf app
         display_format_count ranges_count capping_count rounding_count
         Section.display_format Section.ranges Section.capping Section.rounding];
    cbn [List.length Nat.add]; f_equal; lia.
Qed.

Lemma collect_sizes (sections : list Section.t) (b : ByType) :
  Forall atMostOneKey sections ->
  sizes (fold_left collect sections b)
  = mkCounts
      (display_format_count (sizes b)
       + display_format_count (countImportItems sections))
      (ranges_count (sizes b) + ranges_count (countImportItems sections))
      (capping_count (sizes b) + capping_count (countImportItems sections))
      (rounding_count (sizes b) + rounding_count (countImportItems sections)).
Proof.
  intros H. revert b. induction H as [|s sections Hs H IH]; intros b.
  - destruct b. unfold sizes. simpl. rewrite !Nat.add_0_r. reflexivity.
  - cbn [fold_left]. rewrite IH, countImportItems_cons.
    unfold atMostOneKey in Hs. unfold collect, sizes.
    destruct b as [d r c o].
    destruct (Section.display_format s) as [es1|],
             (Section.ranges s) as [es2|],
             (Section.capping s) as [es3|],
             (Section.rounding s) as [es4|]; try destruct Hs;
      cbn [displayFormatEntries rangesEntries cappingEntries roundingEntries
           display_format_count ranges_count capping_count rounding_count
           lengthOf];
      rewrite ?length_app; f_equal; lia.
Qed.

Lemma same_length (l l' : list Entry.t) :
  sameEntries l l' -> List.length l = List.length l'.
Proof.
  intros H. apply Permutation_length in H. rewrite !length_map in H. exact H.
Qed.

End MergeMore.

(** X17: [mergePdtSectionsByCommonParams] returns one section for each
    kind of which its first loop collects an entry (a section gives the
    entries under the first of its keys), in the order display_format,
    ranges, capping, rounding; each section has one key and no section has an
    empty array. *)
Theorem merged_sections_are_one_per_kind_in_order :
  forall sections : list Section.t,
    let merged := ExportImportManager.mergePdtSectionsByCommonParams sections in
    map ConfigManager.getSectionType merged
    = filter (MergedSpec.hasEntries (MergeSpec.collected sections))
             Spec.sectionKinds
    /\ Forall Spec.singleKeyed merged
    /\ Forall MergedSpec.noEmptyArray merged.
Proof.
  intros sections merged. unfold merged.
  rewrite MergeFacts.merge_as_sectionsOf.
  set (b := MergeSpec.collected sections).
  assert (Hd : ExportImportManager.displayFormatEntries (MergeSpec.mergedByType b) = []
               <-> ExportImportManager.displayFormatEntries b = []).
  { unfold MergeSpec.mergedByType. cbn [ExportImportManager.displayFormatEntries].
    split; intros H.
    - destruct (ExportImportManager.displayFormatEntries b) as [|e l] eqn:E;
        [reflexivity|].
      exfalso. revert H. apply MergeFacts.mergeDisplayFormat_nonempty. discriminate.
    - rewrite H. reflexivity. }
  assert (Hr : ExportImportManager.rangesEntries (MergeSpec.mergedByType b) = []
               <-> ExportImportManager.rangesEntries b = []).
  { unfold MergeSpec.mergedByType. cbn [ExportImportManager.rangesEntries].
    split; intros H.
    - destruct (ExportImportManager.rangesEntries b) as [|e l] eqn:E;
        [reflexivity|].
      exfalso. revert H. apply MergeFacts.mergeRanges_nonempty. discriminate.
    - rewrite H. reflexivity. }
  assert (Hc : ExportImportManager.cappingEntries (MergeSpec.mergedByType b) = []
               <-> ExportImportManager.cappingEntries b = []).
  { unfold MergeSpec.mergedByType. cbn [ExportImportManager.cappingEntries].
    split; intros H.
    - destruct (ExportImportManager.cappingEntries b) as [|e l] eqn:E;
        [reflexivity|].
      exfalso. revert H. apply MergeFacts.mergeCapping_nonempty. discriminate.
    - rewrite H. reflexivity. }
  assert (Ho : ExportImportManager.roundingEntries (MergeSpec.mergedByType b)
               = ExportImportManager.roundingEntries b) by reflexivity.
  unfold MergeSpec.sectionsOf. rewrite Ho.
  unfold Spec.sectionKinds, MergedSpec.hasEntries, MergedSpec.entriesOfKind.
  cbn [filter String.eqb Ascii.eqb Bool.eqb].
  destruct (ExportImportManager.displayFormatEntries (MergeSpec.mergedByType b))
    as [|e1 l1] eqn:E1;
    destruct (ExportImportManager.displayFormatEntries b) as [|e1' l1'] eqn:E1';
    try (exfalso; destruct Hd as [Hd1 Hd2];
         first [ specialize (Hd1 eq_refl); discriminate Hd1
               | specialize (Hd2 eq_refl); discriminate Hd2 ]).
  all: destruct (ExportImportManager.rangesEntries (MergeSpec.mergedByType b))
    as [|e2 l2] eqn:E2;
    destruct (ExportImportManager.rangesEntries b) as [|e2' l2'] eqn:E2';
    try (exfalso; destruct Hr as [Hr1 Hr2];
         first [ specialize (Hr1 eq_refl); discriminate Hr1
               | specialize (Hr2 eq_refl); discriminate Hr2 ]).
  all: destruct (ExportImportManager.cappingEntries (MergeSpec.mergedByType b))
    as [|e3 l3] eqn:E3;
    destruct (ExportImportManager.cappingEntries b) as [|e3' l3'] eqn:E3';
    try (exfalso; destruct Hc as [Hc1 Hc2];
         first [ specialize (Hc1 eq_refl); discriminate Hc1
               | specialize (Hc2 eq_refl); discriminate Hc2 ]).
  all: destruct (ExportImportManager.roundingEntries b) as [|e4 l4].
  all: split; [reflexivity|].
  all: split; repeat constructor; discriminate.
Qed.




(** X20: on sections that have one key at most, the counts of
    [countImportItems] are the same before and after
    [mergePdtSectionsByCommonParams]. *)
Theorem merge_keeps_the_import_counts :
  forall sections : list Section.t,
    Forall MergedSpec.atMostOneKey sections ->
    ExportImportManager.countImportItems
      (ExportImportManager.mergePdtSectionsByCommonParams sections)
    = ExportImportManager.countImportItems sections.
Proof.
  intros sections H.
  rewrite MergeFacts.merge_as_sectionsOf, MergeMore.count_sectionsOf.
  unfold MergeSpec.collected.
  pose proof (MergeMore.collect_sizes sections MergeSpec.noSections H) as Hs.
  fold (MergeSpec.collected sections) in Hs |- *.
  set (b := MergeSpec.collected sections) in *.
  assert (Hm : MergedSpec.sizes (MergeSpec.mergedByType b) = MergedSpec.sizes b).
  { unfold MergedSpec.sizes, MergeSpec.mergedByType.
    cbn [ExportImportManager.displayFormatEntries ExportImportManager.rangesEntries
         ExportImportManager.cappingEntries ExportImportManager.roundingEntries].
    rewrite (Permutation_length (MergeMore.mergeDisplayFormat_perm _ _)), length_map.
    rewrite (MergeMore.same_length _ _ (MergeMore.mergeRanges_keeps _ _)).
    rewrite (MergeMore.same_length _ _ (MergeMore.mergeCapping_keeps _ _)).
    reflexivity. }
  rewrite Hm, Hs. cbn.
  destruct (ExportImportManager.countImportItems sections). reflexivity.
Qed.

Lemma merge_keeps_the_import_counts_witness :
  ExportImportManager.countImportItems
    (ExportImportManager.mergePdtSectionsByCommonParams MergeSpec.scenarioSections)
  = ExportImportManager.countImportItems MergeSpec.scenarioSections.
Proof.
  apply (merge_keeps_the_import_counts MergeSpec.scenarioSections).
  repeat constructor.
Defined.

(* ================================================================== *)
(** ** Escaping *)
(* ================================================================== *)

Module EscapeFacts.
Import Js ExportImportManager EscapeSpec.

Lemma replaceAll_app (c : ascii) (r s t : string) :
  replaceAll c r (s +++ t) = replaceAll c r s +++ replaceAll c r t.
Proof.
  induction s as [|a s IH]; [reflexivity|].
  cbn [String.append replaceAll]. destruct (Ascii.eqb a c).
  - rewrite IH. generalize (replaceAll c r s) (replaceAll c r t). intros x y.
    clear. induction r as [|b r IHr]; [reflexivity|].
    cbn [String.append]. rewrite IHr. reflexivity.
  - cbn [String.append]. rewrite IH. reflexivity.
Qed.

Lemma escapeHtml_app (s t : string) :
  escapeHtml (s +++ t) = escapeHtml s +++ escapeHtml t.
Proof. unfold escapeHtml. rewrite !replaceAll_app. reflexivity. Qed.

Lemma escapeHtml_one (a : ascii) :
  escapeHtml (String a EmptyString) = escapeChar a.
Proof.
  unfold escapeHtml, escapeChar. cbn [replaceAll].
  destruct (Ascii.eqb_spec a "&") as [->|H1]; [reflexivity|].
  cbn [replaceAll].
  destruct (Ascii.eqb_spec a "<") as [->|H2]; [reflexivity|].
  cbn [replaceAll].
  destruct (Ascii.eqb_spec a ">") as [->|H3]; [reflexivity|].
  cbn [replaceAll].
  destruct (Ascii.eqb_spec a quote) as [->|H4]; [reflexivity|].
  cbn [replaceAll].
  destruct (Ascii.eqb_spec a "'") as [->|H5]; reflexivity.
Qed.

Lemma escapeHtml_each (s : string) : escapeHtml s = escapeEach s.
Proof.
  induction s as [|a s IH]; [reflexivity|].
  change (String a s) with (String a EmptyString +++ s).
  rewrite escapeHtml_app, escapeHtml_one, IH. reflexivity.
Qed.

Lemma in_app_string (c : ascii) (s t : string) :
  In c (list_ascii_of_string (s +++ t))
  <-> In c (list_ascii_of_string s) \/ In c (list_ascii_of_string t).
Proof.
  induction s as [|a s IH]; simpl; [tauto|]. rewrite IH. tauto.
Qed.

Lemma escapeChar_no_markup (a c : ascii) :
  In c (list_ascii_of_string (escapeChar a)) -> ~ markup c.
Proof.
  unfold escapeChar, markup.
  destruct (Ascii.eqb_spec a "&") as [->|H1].
  { simpl. intros H M. intuition (subst; discriminate). }
  destruct (Ascii.eqb_spec a "<") as [->|H2].
  { simpl. intros H M. intuition (subst; discriminate). }
  destruct (Ascii.eqb_spec a ">") as [->|H3].
  { simpl. intros H M. intuition (subst; discriminate). }
  destruct (Ascii.eqb_spec a quote) as [->|H4].
  { simpl. intros H M. intuition (subst; discriminate). }
  destruct (Ascii.eqb_spec a "'") as [->|H5].
  { simpl. intros H M. intuition (subst; discriminate). }
  simpl. intros [<-|[]] M. intuition congruence.
Qed.

(** The images of the characters form a prefix code. *)
Lemma escapeChar_prefix (a b : ascii) (s t : string) :
  escapeChar a +++ s = escapeChar b +++ t -> a = b /\ s = t.
Proof.
  unfold escapeChar.
  destruct (Ascii.eqb_spec a "&") as [->|A1];
    [|destruct (Ascii.eqb_spec a "<") as [->|A2];
      [|destruct (Ascii.eqb_spec a ">") as [->|A3];
        [|destruct (Ascii.eqb_spec a quote) as [->|A4];
          [|destruct (Ascii.eqb_spec a "'") as [->|A5]]]]];
    (destruct (Ascii.eqb_spec b "&") as [->|B1];
     [|destruct (Ascii.eqb_spec b "<") as [->|B2];
       [|destruct (Ascii.eqb_spec b ">") as [->|B3];
         [|destruct (Ascii.eqb_spec b quote) as [->|B4];
           [|destruct (Ascii.eqb_spec b "'") as [->|B5]]]]]);
    cbn [String.append]; intros E;
    try discriminate E;
    try (injection E as E; split; [reflexivity | congruence]);
    try (injection E as E1 E2; congruence).
  injection E as E1 E2. split; assumption.
Qed.

End EscapeFacts.

(** X21: the text [escapeHtml] returns holds no less-than sign, no
    greater-than sign, no double quote and no single quote. *)
Theorem escaped_text_holds_no_markup_character :
  forall unsafe : string,
    Forall (fun c => ~ EscapeSpec.markup c)
           (list_ascii_of_string (ExportImportManager.escapeHtml unsafe)).
Proof.
  intros unsafe. apply Forall_forall. intros c.
  rewrite EscapeFacts.escapeHtml_each.
  induction unsafe as [|a s IH]; [intros []|].
  cbn [EscapeSpec.escapeEach]. rewrite EscapeFacts.in_app_string.
  intros [H|H]; [exact (EscapeFacts.escapeChar_no_markup a c H) | exact (IH H)].
Qed.

(** X22: two texts have the same escaped form only if they are the same
    text: the five replacements of [escapeHtml], run one after the other,
    never replace a character that an earlier one wrote and never make two
    texts alike. *)
Theorem escapeHtml_loses_nothing :
  forall s t : string,
    ExportImportManager.escapeHtml s = ExportImportManager.escapeHtml t <-> s = t.
Proof.
  intros s t. split; [|intros ->; reflexivity].
  rewrite !EscapeFacts.escapeHtml_each. revert t.
  induction s as [|a s IH]; intros [|b t] E.
  - reflexivity.
  - exfalso. cbn [EscapeSpec.escapeEach] in E. revert E.
    unfold EscapeSpec.escapeChar.
    repeat match goal with
           | |- context [Ascii.eqb ?x ?y] => destruct (Ascii.eqb x y)
           end; discriminate.
  - exfalso. cbn [EscapeSpec.escapeEach] in E. revert E.
    unfold EscapeSpec.escapeChar.
    repeat match goal with
           | |- context [Ascii.eqb ?x ?y] => destruct (Ascii.eqb x y)
           end; discriminate.
  - cbn [EscapeSpec.escapeEach] in E.
    apply EscapeFacts.escapeChar_prefix in E. destruct E as [-> E].
    rewrite (IH t E). reflexivity.
Qed.

(* ================================================================== *)
(** ** Checking an imported configuration *)
(* ================================================================== *)

Module ImportFacts.
Import Js ExportImportManager ImportSpec.

Lemma isValidSection_usable (section : value) :
  isValidSection section = Some true <-> usable section.
Proof.
  unfold usable, isValidSection, kindKeys. split.
  - destruct section as [| |b|n| |s|l|o]; cbn [prop truthy orb];
      try discriminate.
    intros E. injection E as E. exists o.
    destruct (truthy (get o "display_format")) eqn:E1;
      [exists "display_format"; cbn [In]; tauto|].
    destruct (truthy (get o "ranges")) eqn:E2;
      [exists "ranges"; cbn [In]; tauto|].
    destruct (truthy (get o "capping")) eqn:E3;
      [exists "capping"; cbn [In]; tauto|].
    destruct (truthy (get o "rounding")) eqn:E4;
      [exists "rounding"; cbn [In]; tauto|].
    discriminate E.
  - intros (o & key & -> & Hk & Ht). cbn [prop]. f_equal.
    cbn [In] in Hk.
    destruct Hk as [<-|[<-|[<-|[<-|[]]]]]; rewrite Ht;
      rewrite ?orb_true_r; reflexivity.
Qed.

Lemma isValidSection_blank (section : value) :
  isValidSection section = Some false <-> blank section.
Proof.
  unfold blank. rewrite <- isValidSection_usable. split.
  - intros E. rewrite E.
    destruct section; cbn in E; try discriminate E;
      (split; [discriminate|]; split; discriminate).
  - intros (H1 & H2 & H3).
    destruct (isValidSection section) as [[|]|] eqn:E.
    + exfalso. apply H3. reflexivity.
    + reflexivity.
    + exfalso. unfold isValidSection in E.
      destruct section; cbn [prop] in E; try discriminate E; congruence.
Qed.

Lemma hasValidSection_true (sections : list value) :
  hasValidSection sections = Some true <-> reachesUsable sections.
Proof.
  unfold reachesUsable. induction sections as [|s rest IH]; cbn [hasValidSection].
  - split; [discriminate|]. intros (before & section & after & E & _).
    destruct before; discriminate E.
  - destruct (isValidSection s) as [[|]|] eqn:Es.
    + split; [|reflexivity]. intros _. exists [], s, rest.
      split; [reflexivity|]. split; [constructor|].
      apply isValidSection_usable. exact Es.
    + rewrite IH. split.
      * intros (before & section & after & -> & Hb & Hu).
        exists (s :: before), section, after.
        split; [reflexivity|]. split; [|exact Hu].
        constructor; [apply isValidSection_blank; exact Es | exact Hb].
      * intros (before & section & after & E & Hb & Hu).
        destruct before as [|b before].
        -- injection E as <- <-. apply isValidSection_usable in Hu. congruence.
        -- injection E as <- ->. inversion Hb; subst.
           exists before, section, after. split; [reflexivity|]. split; assumption.
    + split; [discriminate|].
      intros (before & section & after & E & Hb & Hu).
      destruct before as [|b before].
      * injection E as <- <-. apply isValidSection_usable in Hu. congruence.
      * injection E as <- ->. inversion Hb as [|? ? Hs ?]; subst.
        apply isValidSection_blank in Hs. congruence.
Qed.

End ImportFacts.

(** X23: [validateImportedConfig] returns valid with a list of errors
    exactly when the configuration is an object with a truthy variant and a
    truthy platform, whose pdt is an array that reaches, over sections that
    can be read and have none of the four keys, a section with one of them;
    the errors are then the note on the missing format version, or none. *)
Theorem import_is_accepted_exactly_when :
  forall (config : Js.value) (errors : list string),
    ExportImportManager.validateImportedConfig config
    = Some (ExportImportManager.mkValidation true errors)
    <-> ImportSpec.importable config errors.
Proof.
  intros config errors. unfold ImportSpec.importable. split.
  - unfold ExportImportManager.validateImportedConfig.
    destruct (Js.truthy config) eqn:Tc; cbn [negb]; [|discriminate].
    destruct config as [| |b|n| |s|l|o]; cbn [ExportImportManager.prop];
      try (cbn in Tc |- *; first [discriminate Tc | discriminate]).
    fold (ImportSpec.versionNote o).
    destruct (Js.truthy (Js.get o "pdt")) eqn:Tp; cbn [negb]; [|discriminate].
    destruct (Js.get o "pdt") as [| |b|n| |s|sections|o'] eqn:Ep;
      try discriminate.
    destruct (ExportImportManager.hasValidSection sections) as [[|]|] eqn:Hv;
      try discriminate.
    intros E. injection E as Hvalid Herr.
    unfold ExportImportManager.whenMissing in *.
    destruct (Js.truthy (Js.get o "variant")) eqn:Tv;
      destruct (Js.truthy (Js.get o "platform")) eqn:Tpl;
      unfold ImportSpec.versionNote in *;
      destruct (negb (Js.truthy (Js.get o "configFormatVersion"))
                && negb (Js.truthy (Js.get o "config_format_version")))%bool
        eqn:Ev;
      try discriminate Hvalid;
      exists o, sections; cbn [app] in Herr;
      (split; [reflexivity|]); (split; [exact Tv|]);
      (split; [exact Tpl|]); (split; [exact Ep|]);
      (split; [apply ImportFacts.hasValidSection_true; exact Hv|]);
      rewrite Ev; symmetry; exact Herr.
  - intros (o & sections & -> & Tv & Tpl & Ep & Hr & ->).
    apply ImportFacts.hasValidSection_true in Hr.
    unfold ExportImportManager.validateImportedConfig, ExportImportManager.whenMissing.
    cbn [Js.truthy negb ExportImportManager.prop].
    rewrite Ep. cbn [Js.truthy negb]. rewrite Hr, Tv, Tpl.
    unfold ImportSpec.versionNote.
    destruct (negb (Js.truthy (Js.get o "configFormatVersion"))
              && negb (Js.truthy (Js.get o "config_format_version")))%bool;
      reflexivity.
Qed.

(* ================================================================== *)
(** ** Preparing the configuration for YAML *)
(* ================================================================== *)

Module YamlFacts.
Import Js YamlHandler YamlSpec.











End YamlFacts.

